(** * ipfs-pack-core: a shallow embedding of [packages/ipfs-pack-core/src/index.ts]

    The development follows the source file top to bottom:
    - [Text]      string primitives of the JavaScript runtime the code calls
                  ([includes], [endsWith], [toLowerCase], [replace]);
    - [JsObject]  plain objects used as string-keyed records ([fileCids]);
    - [Json]      [JSON.stringify (v, null, 2)];
    - [Fs]        the output directory as a tree, with [readdirSync] order;
    - [MemoryBlockstore] and [Core]  the block store and the exported
                  functions [packDirectoryToCar], [computeDirectoryManifest],
                  [stampIndexWithRootCID] and [writeIpfsAddressedHtml];
    - [Reference] stand-ins for the imported libraries and example
                  directories, used to run the functions;
    - [Spec]      the vocabulary of the specification;
    - the properties of the specification, stated on those definitions.

    Conventions.  A JavaScript string is a [string] holding its UTF-8 bytes.
    The stamper, which writes back to the file it read, reads through
    [Text.utf8], the decoding of ['utf8'] with its replacement characters;
    the pages and the manifest the rewriter reads are assumed to be valid
    UTF-8, so that their text is their bytes.  A CID is represented by its
    string form, as the code itself does as soon as it has called
    [toString]; the importer is run with [cidVersion: 1], so the raw and the
    v1 string forms agree.  The CAR is written through a stream the packer
    does not wait for: [Core.createWriteStream] gives the part of it that
    has reached the directory when the packer returns. *)

From Stdlib Require Import Bool Arith NArith List Lia.
From Stdlib Require Import Sorting.Permutation Sorting.Sorted.
From Stdlib Require Import Strings.Ascii Strings.String Numbers.DecimalString.
Import ListNotations.
Open Scope string_scope.

Set Implicit Arguments.
Set Warnings "-register-all".

(* ================================================================= *)
(** ** String primitives *)

Module Text.

(** The double quote and the line feed, which a string literal of this
    file cannot hold. *)
Definition dq : string := String (ascii_of_N 34) "".
Definition nl : string := String (ascii_of_N 10) "".

(** [String.prototype.startsWith], on bytes. *)
Definition starts_with (p s : string) : bool := String.prefix p s.

(** [s.slice(n)]. *)
Fixpoint drop (n : nat) (s : string) : string :=
  match n, s with
  | O, _ => s
  | S _, EmptyString => EmptyString
  | S k, String _ t => drop k t
  end.

(** [String.prototype.includes]. *)
Fixpoint includes (needle hay : string) : bool :=
  starts_with needle hay ||
  match hay with
  | EmptyString => false
  | String _ t => includes needle t
  end.

(** [String.prototype.endsWith]. *)
Fixpoint ends_with (suffix s : string) : bool :=
  (s =? suffix) ||
  match s with
  | EmptyString => false
  | String _ t => ends_with suffix t
  end.

(** [s.slice(0, s.length - n)]. *)
Definition drop_last (n : nat) (s : string) : string :=
  substring 0 (length s - n) s.

Definition lower_ascii (c : ascii) : ascii :=
  let n := nat_of_ascii c in
  if ((65 <=? n) && (n <=? 90))%nat then ascii_of_nat (n + 32) else c.

(** [String.prototype.toLowerCase].  Only ASCII letters are mapped: no
    character outside ASCII lower-cases to one of the letters of the
    literals the code compares the result with. *)
Fixpoint to_lower (s : string) : string :=
  match s with
  | EmptyString => EmptyString
  | String c t => String (lower_ascii c) (to_lower t)
  end.

(** The first occurrence of [pat] in [s], as the text before it and the text
    after it. *)
Fixpoint split_first (pat s : string) : option (string * string) :=
  if starts_with pat s then Some (EmptyString, drop (length pat) s)
  else match s with
       | EmptyString => None
       | String c t =>
           match split_first pat t with
           | Some (before, after) => Some (String c before, after)
           | None => None
           end
       end.

(** [GetSubstitution] of ECMA-262 for a string pattern (no capture groups):
    [$$] is a dollar, [$&] the matched text, [$`] the text before the match,
    [$'] the text after it; any other character, a [$] followed by anything
    else included, stands for itself. *)
Fixpoint get_substitution (matched before after repl : string) : string :=
  match repl with
  | EmptyString => EmptyString
  | String c t =>
      if (c =? "$")%char then
        match t with
        | String d u =>
            if (d =? "$")%char then
              String "$" (get_substitution matched before after u)
            else if (d =? "&")%char then
              matched ++ get_substitution matched before after u
            else if (d =? "`")%char then
              before ++ get_substitution matched before after u
            else if (d =? "'")%char then
              after ++ get_substitution matched before after u
            else String c (get_substitution matched before after t)
        | EmptyString => String c EmptyString
        end
      else String c (get_substitution matched before after t)
  end.

(** [s.replace(pat, repl)] with a string pattern: the first occurrence only,
    the replacement text expanded by [get_substitution]. *)
Definition replace (pat repl s : string) : string :=
  match split_first pat s with
  | Some (before, after) =>
      before ++ get_substitution pat before after repl ++ after
  | None => s
  end.

(** What the first byte of a UTF-8 sequence announces: a sequence of one
    byte, or the lead byte of a sequence of two, three or four bytes with
    the bounds its second byte has to keep, or a byte that starts no
    sequence. *)
Inductive lead :=
| Single
| Lead2
| Lead3 (lo hi : N)
| Lead4 (lo hi : N)
| NoLead.

Definition classify (c : ascii) : lead :=
  let n := N_of_ascii c in
  if (n <? 128)%N then Single
  else if ((194 <=? n) && (n <=? 223))%N then Lead2
  else if ((224 <=? n) && (n <=? 239))%N then
    Lead3 (if (n =? 224)%N then 160%N else 128%N)
          (if (n =? 237)%N then 159%N else 191%N)
  else if ((240 <=? n) && (n <=? 244))%N then
    Lead4 (if (n =? 240)%N then 144%N else 128%N)
          (if (n =? 244)%N then 143%N else 191%N)
  else NoLead.

Definition between (lo hi : N) (c : ascii) : bool :=
  ((lo <=? N_of_ascii c) && (N_of_ascii c <=? hi))%N.

(** The UTF-8 bytes of U+FFFD, the replacement character. *)
Definition replacement_character : string :=
  String (ascii_of_N 239) (String (ascii_of_N 191) (String (ascii_of_N 189) "")).

(** [buffer.toString ('utf8')], as the UTF-8 bytes of the text it gives:
    every well-formed sequence stands for itself, and every maximal
    ill-formed part is replaced by U+FFFD, the byte that ended it being
    read again. *)
Fixpoint utf8 (s : string) : string :=
  match s with
  | EmptyString => EmptyString
  | String b0 t =>
      match classify b0 with
      | Single => String b0 (utf8 t)
      | Lead2 =>
          match t with
          | String b1 t1 =>
              if between 128 191 b1 then String b0 (String b1 (utf8 t1))
              else replacement_character ++ utf8 t
          | EmptyString => replacement_character
          end
      | Lead3 lo hi =>
          match t with
          | String b1 t1 =>
              if between lo hi b1 then
                match t1 with
                | String b2 t2 =>
                    if between 128 191 b2
                    then String b0 (String b1 (String b2 (utf8 t2)))
                    else replacement_character ++ utf8 t1
                | EmptyString => replacement_character
                end
              else replacement_character ++ utf8 t
          | EmptyString => replacement_character
          end
      | Lead4 lo hi =>
          match t with
          | String b1 t1 =>
              if between lo hi b1 then
                match t1 with
                | String b2 t2 =>
                    if between 128 191 b2 then
                      match t2 with
                      | String b3 t3 =>
                          if between 128 191 b3
                          then String b0 (String b1 (String b2 (String b3 (utf8 t3))))
                          else replacement_character ++ utf8 t2
                      | EmptyString => replacement_character
                      end
                    else replacement_character ++ utf8 t1
                | EmptyString => replacement_character
                end
              else replacement_character ++ utf8 t
          | EmptyString => replacement_character
          end
      | NoLead => replacement_character ++ utf8 t
      end
  end.

End Text.

(* ================================================================= *)
(** ** Plain JavaScript objects with string values *)

Module JsObject.

(** The own properties of an object created by the literal [{}], in the order
    they were created. *)
Definition t := list (string * string).

Definition empty : t := [].

Fixpoint update (k v : string) (o : t) : option t :=
  match o with
  | [] => None
  | (k', v') :: rest =>
      if k' =? k then Some ((k', v) :: rest)
      else match update k v rest with
           | Some rest' => Some ((k', v') :: rest')
           | None => None
           end
  end.

(** The assignment [o[k] = v] for a string [v].  The key [__proto__] reaches
    the accessor inherited from [Object.prototype], whose setter ignores a
    value that is neither an object nor [null]: no own property is created.
    Any other key creates the property, or overwrites it in place. *)
Definition set (k v : string) (o : t) : t :=
  if k =? "__proto__" then o
  else match update k v o with
       | Some o' => o'
       | None => (o ++ [(k, v)])%list
       end.

(** The own property [k], if there is one. *)
Fixpoint get (k : string) (o : t) : option string :=
  match o with
  | [] => None
  | (k', v) :: rest => if k' =? k then Some v else get k rest
  end.

Definition digit (c : ascii) : option N :=
  let n := N_of_ascii c in
  if ((48 <=? n) && (n <=? 57))%N then Some (n - 48)%N else None.

Fixpoint digits (acc : N) (s : string) : option N :=
  match s with
  | EmptyString => Some acc
  | String c t =>
      match digit c with
      | Some d => digits (acc * 10 + d)%N t
      | None => None
      end
  end.

(** A key is an array index when it is the canonical decimal form of an
    integer below 2^32 - 1. *)
Definition array_index (k : string) : option N :=
  match k with
  | EmptyString => None
  | String c t =>
      if (c =? "0")%char then
        (if t =? "" then Some 0%N else None)
      else match digits 0 k with
           | Some n => if (n <? 4294967295)%N then Some n else None
           | None => None
           end
  end.

Fixpoint insert_index (n : N) (k : string) (l : list (N * string))
  : list (N * string) :=
  match l with
  | [] => [(n, k)]
  | (m, k') :: rest =>
      if (n <=? m)%N then (n, k) :: l else (m, k') :: insert_index n k rest
  end.

Fixpoint index_keys (o : t) : list (N * string) :=
  match o with
  | [] => []
  | (k, _) :: rest =>
      match array_index k with
      | Some n => insert_index n k (index_keys rest)
      | None => index_keys rest
      end
  end.

Fixpoint name_keys (o : t) : list string :=
  match o with
  | [] => []
  | (k, _) :: rest =>
      match array_index k with
      | Some _ => name_keys rest
      | None => k :: name_keys rest
      end
  end.

(** [Object.keys o]: array indices in ascending order, then the other keys
    in creation order. *)
Definition keys (o : t) : list string :=
  (map snd (index_keys o) ++ name_keys o)%list.

Definition value_of (o : t) (k : string) : string :=
  match get k o with Some v => v | None => "" end.

(** [Object.entries o]. *)
Definition entries (o : t) : list (string * string) :=
  map (fun k => (k, value_of o k)) (keys o).

End JsObject.

(* ================================================================= *)
(** ** JSON.stringify *)

Module Json.

Inductive value :=
| Str (s : string)
| Num (n : N)
| Obj (props : list (string * value))
| Arr (items : list value).

Definition hex_digit (n : N) : ascii :=
  ascii_of_N (if (n <? 10)%N then 48 + n else 87 + n).

(** [QuoteJSONString]: the two-character escapes, [\u00xx] for the other
    control characters, every other byte as it is. *)
Definition escape_char (c : ascii) : string :=
  let n := N_of_ascii c in
  if (n =? 34)%N then String "\" (String c "") else
  if (n =? 92)%N then "\\" else
  if (n =? 8)%N then "\b" else
  if (n =? 9)%N then "\t" else
  if (n =? 10)%N then "\n" else
  if (n =? 12)%N then "\f" else
  if (n =? 13)%N then "\r" else
  if (n <? 32)%N then
    "\u00" ++ String (hex_digit (n / 16)) (String (hex_digit (n mod 16)) "")
  else String c "".

Fixpoint escape (s : string) : string :=
  match s with
  | EmptyString => EmptyString
  | String c t => escape_char c ++ escape t
  end.

Definition dquote : string := Text.dq.
Definition newline : string := Text.nl.

Definition quote (s : string) : string := dquote ++ escape s ++ dquote.

Definition decimal (n : N) : string := NilZero.string_of_uint (N.to_uint n).

(** [JSON.stringify (v, null, 2)] below the indentation [indent]. *)
Fixpoint stringify_at (indent : string) (v : value) : string :=
  let inner := indent ++ "  " in
  match v with
  | Str s => quote s
  | Num n => decimal n
  | Obj [] => "{}"
  | Obj props =>
      "{" ++ newline ++
      concat ("," ++ newline)
        (map (fun kv => match kv with
                        | (k, x) => inner ++ quote k ++ ": " ++ stringify_at inner x
                        end) props) ++
      newline ++ indent ++ "}"
  | Arr [] => "[]"
  | Arr items =>
      "[" ++ newline ++
      concat ("," ++ newline)
        (map (fun x => inner ++ stringify_at inner x) items) ++
      newline ++ indent ++ "]"
  end.

Definition stringify (v : value) : string := stringify_at "" v.

Definition of_object (o : JsObject.t) : value :=
  Obj (map (fun kv => (fst kv, Str (snd kv))) (JsObject.entries o)).

End Json.

(* ================================================================= *)
(** ** The output directory *)

Module Fs.

(** What lies below [outDir]: regular files and directories.  The entries
    of a directory are kept in the order [readdirSync] lists them; a file
    that is created is listed last and the other entries keep their
    order. *)
Inductive node :=
| File (data : string)
| Dir (entries : list (string * node)).

(** A path below [outDir], one component per directory level;
    [path.join (dir, entry.name)] adds a component at the end. *)
Definition path := list string.

Definition is_dir (n : node) : bool :=
  match n with Dir _ => true | File _ => false end.

Fixpoint find (name : string) (es : list (string * node)) : option node :=
  match es with
  | [] => None
  | (n, child) :: rest => if n =? name then Some child else find name rest
  end.

Fixpoint put (name : string) (child : node) (es : list (string * node))
  : list (string * node) :=
  match es with
  | [] => [(name, child)]
  | (n, c) :: rest =>
      if n =? name then (n, child) :: rest else (n, c) :: put name child rest
  end.

Fixpoint lookup (p : path) (n : node) : option node :=
  match p with
  | [] => Some n
  | name :: rest =>
      match n with
      | File _ => None
      | Dir es =>
          match find name es with
          | Some child => lookup rest child
          | None => None
          end
      end
  end.

(** [fs.existsSync]. *)
Definition exists_ (p : path) (n : node) : bool :=
  match lookup p n with Some _ => true | None => false end.

(** [fs.readFileSync]: the data of a regular file; nothing (the call
    throws) for a directory or a missing path. *)
Definition read (p : path) (n : node) : option string :=
  match lookup p n with
  | Some (File data) => Some data
  | _ => None
  end.

(** [fs.writeFileSync], and what a write stream does to its path: the file
    is created in an existing directory or its data replaced; nothing (the
    call throws, the stream emits ['error']) when the path names a directory
    or its parent is not a directory. *)
Fixpoint write (p : path) (data : string) (n : node) : option node :=
  match p with
  | [] =>
      match n with
      | File _ => Some (File data)
      | Dir _ => None
      end
  | name :: rest =>
      match n with
      | File _ => None
      | Dir es =>
          match find name es with
          | Some child =>
              match write rest data child with
              | Some child' => Some (Dir (put name child' es))
              | None => None
              end
          | None =>
              match rest with
              | [] => Some (Dir (put name (File data) es))
              | _ :: _ => None
              end
          end
      end
  end.

Definition backslash : ascii := ascii_of_N 92.

(** [s.replace (/\\/g, '/')]. *)
Fixpoint slashes (s : string) : string :=
  match s with
  | EmptyString => EmptyString
  | String c t =>
      String (if (c =? backslash)%char then "/"%char else c) (slashes t)
  end.

(** [path.relative (outDir, abs).replace (/\\/g, '/')]. *)
Definition rel (p : path) : string := slashes (concat "/" p).

(** The last component rewritten by [f]. *)
Fixpoint map_last (f : string -> string) (p : path) : path :=
  match p with
  | [] => []
  | [name] => [f name]
  | name :: rest => name :: map_last f rest
  end.

End Fs.

(* ================================================================= *)
(** ** The block store *)

Module MemoryBlockstore.

(** [Map<string, Uint8Array>]: one value per key, keys in the order of
    their first [set]. *)
Definition t := list (string * string).

Definition empty : t := [].

Fixpoint put (key val : string) (m : t) : t :=
  match m with
  | [] => [(key, val)]
  | (k, v) :: rest =>
      if k =? key then (k, val) :: rest else (k, v) :: put key val rest
  end.

Fixpoint get (key : string) (m : t) : option string :=
  match m with
  | [] => None
  | (k, v) :: rest => if k =? key then Some v else get key rest
  end.

Definition has (key : string) (m : t) : bool :=
  match get key m with Some _ => true | None => false end.

(** [blocks ()]: what [map.entries ()] yields. *)
Definition blocks (m : t) : list (string * string) := m.

End MemoryBlockstore.

(* ================================================================= *)
(** ** The exported functions *)

Module Core.

Inductive error :=
| FailedToComputeRootCid   (* 'Failed to compute root CID' *)
| FsError.                 (* an exception of node:fs *)

Inductive outcome (A : Type) :=
| Returned (a : A)
| Thrown (e : error).
Arguments Thrown {A} e.

(** A computation on the output directory that returns or throws. *)
Definition M (A : Type) := Fs.node -> Fs.node * outcome A.

Definition ret {A} (a : A) : M A := fun fs => (fs, Returned a).

Definition throw {A} (e : error) : M A := fun fs => (fs, Thrown e).

Definition bind {A B} (m : M A) (k : A -> M B) : M B :=
  fun fs =>
    match m fs with
    | (fs', Returned a) => k a fs'
    | (fs', Thrown e) => (fs', Thrown e)
    end.

Notation "x <- m ;; k" := (bind m (fun x => k))
  (at level 61, m at next level, right associativity).
Notation "m ;;; k" := (bind m (fun _ => k))
  (at level 61, right associativity).

Definition readFileSync (p : Fs.path) : M string :=
  fun fs =>
    match Fs.read p fs with
    | Some data => (fs, Returned data)
    | None => (fs, Thrown FsError)
    end.

Definition writeFileSync (p : Fs.path) (data : string) : M unit :=
  fun fs =>
    match Fs.write p data fs with
    | Some fs' => (fs', Returned tt)
    | None => (fs, Thrown FsError)
    end.

(** [fs.readFileSync (p, 'utf8')]. *)
Definition readFileSync_utf8 (p : Fs.path) : M string :=
  fun fs =>
    match Fs.read p fs with
    | Some data => (fs, Returned (Text.utf8 data))
    | None => (fs, Thrown FsError)
    end.

Definition existsSync (p : Fs.path) : M bool :=
  fun fs => (fs, Returned (Fs.exists_ p fs)).

(** [fs.createWriteStream (p)], the chunks written to it and [end ()], for
    a caller that waits neither for ['finish'] nor for ['error']: what the
    stream has done to the directory when the caller returns.  [flushed] is
    the part the operating system has carried out by then: nothing ([None],
    the path is as it was), or the file created or truncated and the first
    [n] bytes of [data] written ([Some n]).  On a path that cannot be
    written the stream emits ['error'] later on: nothing is written, and
    nothing is thrown in the caller. *)
Definition createWriteStream (flushed : option nat) (p : Fs.path)
  (data : string) : M unit :=
  fun fs =>
    match flushed with
    | None => (fs, Returned tt)
    | Some n =>
        match Fs.write p (substring 0 n data) fs with
        | Some fs' => (fs', Returned tt)
        | None => (fs, Returned tt)
        end
    end.

(** The directory once the stream has finished: all of [data] carried
    out. *)
Definition stream_finished (p : Fs.path) (data : string) (fs : Fs.node)
  : Fs.node :=
  fst (createWriteStream (Some (length data)) p data fs).

Fixpoint for_each {A} (l : list A) (body : A -> M unit) : M unit :=
  match l with
  | [] => ret tt
  | x :: rest => body x ;;; for_each rest body
  end.

(** The part of [process.env] the code reads. *)
Record Env := {
  IPFS_PACK_DEBUG : option string;
  IPFS_PACK_URL_STYLE : option string;
  IPFS_URL_STYLE : option string
}.

(** [!!v] for an environment variable. *)
Definition truthy (v : option string) : bool :=
  match v with
  | Some s => negb (s =? "")
  | None => false
  end.

(** [a || b] for strings that may be undefined. *)
Definition or_else (a : option string) (b : option string) : option string :=
  if truthy a then a else b.

(** The size the debug output reports for an entry: a number, or a bigint
    that [normalize] turns into its decimal string. *)
Inductive size_value :=
| SizeNumber (n : N)
| SizeBigInt (n : N).

(** What the importer yields.  [size] is [entry.size ?? unixfs.fileSize ()]
    and [type] is [unixfs?.type]. *)
Record Entry := {
  path : option string;
  cid : string;
  size : option size_value;
  type : option string
}.

(** One run of [importer (files, blockstore, options)]: the entries it
    yields and the [blockstore.put] calls it makes, both in order. *)
Record Import := {
  yielded : list Entry;
  puts : list (string * string)
}.

Record PackResult := {
  rootCid : string;
  fileCids : JsObject.t;
  carPath : Fs.path;
  manifestPath : Fs.path
}.

Record ManifestResult := {
  m_rootCid : string;
  m_fileCids : JsObject.t;
  m_manifestPath : Fs.path
}.

Record Manifest := {
  root : string;
  files : JsObject.t
}.

Inductive UrlStyle := path_style | scheme_style | scheme_file_style.

Definition excludedAtRoot : list string :=
  ["bundle.car"; "ipfs-manifest.json"; "ipfs-debug.json"].

Definition has (s : string) (set : list string) : bool :=
  existsb (String.eqb s) set.

(** [walk] of [packDirectoryToCar], [computeDirectoryManifest] and
    [uploadDirectoryViaApi]: the files below the directory [dir], depth
    first, with their relative path and their bytes. *)
Fixpoint walk (dir : Fs.path) (n : Fs.node) {struct n}
  : list (string * string) :=
  match n with
  | Fs.File _ => []
  | Fs.Dir entries =>
      (fix each (entries : list (string * Fs.node)) : list (string * string) :=
         match entries with
         | [] => []
         | (name, child) :: rest =>
             let abs := (dir ++ [name])%list in
             let rel := Fs.rel abs in
             ((if Fs.is_dir child then walk abs child
               else if has rel excludedAtRoot then []
               else match child with
                    | Fs.File data => [(rel, data)]
                    | Fs.Dir _ => []
                    end) ++ each rest)%list
         end) entries
  end.

Section WithLibraries.

(** The libraries the module imports, as the functions they compute:
    [importer] of ipfs-unixfs-importer, called with [cidVersion: 1],
    [rawLeaves: true] and [wrapWithDirectory: true]; the byte stream
    [CarWriter] of @ipld/car produces for the roots given to [create] and
    the blocks given to [put]; and [JSON.parse] at the type the code gives
    its result, [None] when it throws. *)
Variable importer : list (string * string) -> Import.
Variable car_bytes : list string -> list (string * string) -> string.
Variable JSON_parse : string -> option Manifest.

(** [fs.readdirSync (outDir)] throws when [outDir] is not a directory. *)
Definition collect_files : M (list (string * string)) :=
  fun fs =>
    if Fs.is_dir fs then (fs, Returned (walk [] fs)) else (fs, Thrown FsError).

(** The body of [for await (const entry of importer (...))], on
    [rootCidStr] and [fileCids]. *)
Definition record_entry (acc : option string * JsObject.t) (entry : Entry)
  : option string * JsObject.t :=
  let (rootCidStr, fileCids) := acc in
  match path entry with
  | Some p =>
      if p =? "" then (Some (cid entry), fileCids)
      else (rootCidStr, JsObject.set p (cid entry) fileCids)
  | None => acc
  end.

Definition record_entries (entries : list Entry) : option string * JsObject.t :=
  fold_left record_entry entries (None, JsObject.empty).

Definition fill_blockstore (ps : list (string * string)) : MemoryBlockstore.t :=
  fold_left (fun m kv => MemoryBlockstore.put (fst kv) (snd kv) m) ps
    MemoryBlockstore.empty.

(** The chunks [CarWriter] produces in a run on the file set [files], all
    of which have been handed to the write stream when the run returns: the
    root given to [create], the blocks of the store given to [put]. *)
Definition car_of (files : list (string * string)) (rootCid : string) : string :=
  car_bytes [rootCid]
    (MemoryBlockstore.blocks (fill_blockstore (puts (importer files)))).

Definition optional (k : string) (v : option Json.value)
  : list (string * Json.value) :=
  match v with Some x => [(k, x)] | None => [] end.

Definition normalize (v : size_value) : Json.value :=
  match v with
  | SizeNumber n => Json.Num n
  | SizeBigInt n => Json.Str (Json.decimal n)
  end.

(** An element of [debugEntries]; [JSON.stringify] leaves out the
    properties that are [undefined]. *)
Definition debug_entry (entry : Entry) : Json.value :=
  Json.Obj (optional "path" (option_map Json.Str (path entry)) ++
            [("cidV1", Json.Str (cid entry)); ("cidRaw", Json.Str (cid entry))] ++
            optional "size" (option_map normalize (size entry)) ++
            optional "type" (option_map Json.Str (type entry)))%list.

Definition manifest_json (rootCidStr : string) (fileCids : JsObject.t) : string :=
  Json.stringify
    (Json.Obj [("root", Json.Str rootCidStr); ("files", Json.of_object fileCids)]).

Definition debugPath : Fs.path := ["ipfs-debug.json"].

(** [debugPayload] of [packDirectoryToCar]. *)
Definition pack_debugPayload (rootCidStr : string) (fileCids : JsObject.t)
  (numBlocksWritten : nat) (debugEntries : list Json.value) : Json.value :=
  Json.Obj [("root", Json.Str rootCidStr);
            ("files", Json.of_object fileCids);
            ("blocks", Json.Num (N.of_nat numBlocksWritten));
            ("entries", Json.Arr debugEntries)].

(** [debugPayload] of [computeDirectoryManifest]. *)
Definition manifest_debugPayload (rootCidStr : string) (fileCids : JsObject.t)
  (debugEntries : list Json.value) : Json.value :=
  Json.Obj [("root", Json.Str rootCidStr);
            ("files", Json.of_object fileCids);
            ("entries", Json.Arr debugEntries)].

Definition packDirectoryToCar (flushed : option nat) (env : Env)
  (carPath manifestPath : Fs.path) : M PackResult :=
  let debugEnabled := truthy (IPFS_PACK_DEBUG env) in
  files <- collect_files ;;
  let imported := importer files in
  let blockstore := fill_blockstore (puts imported) in
  let debugEntries :=
    if debugEnabled then map debug_entry (yielded imported) else [] in
  let (rootCidStr, fileCids) := record_entries (yielded imported) in
  match rootCidStr with
  | None => throw FailedToComputeRootCid
  | Some rootCidStr =>
      if rootCidStr =? "" then throw FailedToComputeRootCid else
      let blocks := MemoryBlockstore.blocks blockstore in
      let numBlocksWritten := List.length blocks in
      createWriteStream flushed carPath (car_bytes [rootCidStr] blocks) ;;;
      writeFileSync manifestPath (manifest_json rootCidStr fileCids) ;;;
      (if debugEnabled then
         writeFileSync debugPath
           (Json.stringify
              (pack_debugPayload rootCidStr fileCids numBlocksWritten
                 debugEntries))
       else ret tt) ;;;
      ret {| rootCid := rootCidStr; fileCids := fileCids;
             carPath := carPath; manifestPath := manifestPath |}
  end.

Definition computeDirectoryManifest (env : Env) (manifestPath : Fs.path)
  : M ManifestResult :=
  let debugEnabled := truthy (IPFS_PACK_DEBUG env) in
  files <- collect_files ;;
  let imported := importer files in
  let debugEntries :=
    if debugEnabled then map debug_entry (yielded imported) else [] in
  let (rootCidStr, fileCids) := record_entries (yielded imported) in
  match rootCidStr with
  | None => throw FailedToComputeRootCid
  | Some rootCidStr =>
      if rootCidStr =? "" then throw FailedToComputeRootCid else
      writeFileSync manifestPath (manifest_json rootCidStr fileCids) ;;;
      (if debugEnabled then
         writeFileSync debugPath
           (Json.stringify
              (manifest_debugPayload rootCidStr fileCids debugEntries))
       else ret tt) ;;;
      ret {| m_rootCid := rootCidStr; m_fileCids := fileCids;
             m_manifestPath := manifestPath |}
  end.

(** The default value of the parameter [manifestPath]. *)
Definition default_manifestPath : Fs.path := ["ipfs-manifest.json"].

Definition indexPath : Fs.path := ["index.html"].

Definition stamp_marker : string :=
  "name=" ++ Text.dq ++ "ipfs-root-cid" ++ Text.dq.

Definition stamp_tag (rootCid : string) : string :=
  "<meta name=" ++ Text.dq ++ "ipfs-root-cid" ++ Text.dq ++
  " content=" ++ Text.dq ++ rootCid ++ Text.dq ++ " />".

Definition stampIndexWithRootCID (rootCid : string) : M unit :=
  present <- existsSync indexPath ;;
  if negb present then ret tt else
  html <- readFileSync_utf8 indexPath ;;
  if Text.includes stamp_marker html then ret tt else
  let tag := stamp_tag rootCid in
  let updated := Text.replace "</head>" (tag ++ Text.nl ++ "</head>") html in
  writeFileSync indexPath updated.

(** [envStyle] of [writeIpfsAddressedHtml]. *)
Definition envStyle (env : Env) : UrlStyle :=
  let styleEnvRaw :=
    Text.to_lower
      (match or_else (or_else (IPFS_PACK_URL_STYLE env) (IPFS_URL_STYLE env))
               (Some "") with
       | Some s => s
       | None => ""
       end) in
  if styleEnvRaw =? "" then scheme_file_style
  else if (styleEnvRaw =? "scheme-file") || (styleEnvRaw =? "file")
  then scheme_file_style
  else if (styleEnvRaw =? "scheme") || (styleEnvRaw =? "ipfs")
  then scheme_style
  else path_style.

Definition ipfsPrefix_of (urlStyle : UrlStyle) (rootCid : string) : string :=
  match urlStyle with
  | scheme_style => "ipfs://" ++ rootCid ++ "/"
  | _ => "/ipfs/" ++ rootCid ++ "/"
  end.

(** [walk] of [writeIpfsAddressedHtml]: the files below [dir] whose
    lower-cased name ends in [.html], depth first. *)
Fixpoint walk_html (dir : Fs.path) (n : Fs.node) {struct n} : list Fs.path :=
  match n with
  | Fs.File _ => []
  | Fs.Dir entries =>
      (fix each (entries : list (string * Fs.node)) : list Fs.path :=
         match entries with
         | [] => []
         | (name, child) :: rest =>
             let abs := (dir ++ [name])%list in
             ((if Fs.is_dir child then walk_html abs child
               else if Text.ends_with ".html" (Text.to_lower name) then [abs]
               else []) ++ each rest)%list
         end) entries
  end.

Definition collect_html : M (list Fs.path) :=
  fun fs =>
    if Fs.is_dir fs then (fs, Returned (walk_html [] fs))
    else (fs, Thrown FsError).

Definition is_quote (c : ascii) : bool :=
  (c =? "'")%char || (c =? ascii_of_N 34)%char.

(** A match of [attr], the equals sign, a single or double quote, [cand] and
    the same quote again at the start of [s]: the attribute, the quote and
    the length of the match.  [escapeForRegex] makes every character of
    [cand] stand for itself. *)
Definition match_attr (attr cand s : string) : option (string * string * nat) :=
  if Text.starts_with (attr ++ "=") s then
    match Text.drop (length attr + 1) s with
    | String q rest =>
        if is_quote q && Text.starts_with (cand ++ String q "") rest
        then Some (attr, String q "", length attr + 1 + 1 + length cand + 1)
        else None
    | EmptyString => None
    end
  else None.

(** A match of the expression built for [cand] at the start of [s]: the
    alternative [src] is tried before [href]. *)
Definition match_binding (cand s : string) : option (string * string * nat) :=
  match match_attr "src" cand s with
  | Some m => Some m
  | None => match_attr "href" cand s
  end.

(** [s.replace (rx, fn)] for the global expression of [cand]: the text is
    scanned from the left, every match is replaced by what [fn] returns for
    its attribute and its quote, and the scan resumes after the match.
    [skip] counts the characters of the current match still to pass. *)
Fixpoint replace_bindings (cand : string) (fn : string -> string -> string)
  (skip : nat) (s : string) : string :=
  match s with
  | EmptyString => EmptyString
  | String c t =>
      match skip with
      | S k => replace_bindings cand fn k t
      | O =>
          match match_binding cand s with
          | Some (attr, quote, len) =>
              fn attr quote ++ replace_bindings cand fn (len - 1) t
          | None => String c (replace_bindings cand fn 0 t)
          end
      end
  end.

(** The callback given to [replace]. *)
Definition replacement (urlStyle : UrlStyle) (manifest : Manifest)
  (ipfsPrefix rel attr quote : string) : string :=
  match urlStyle with
  | scheme_file_style =>
      match JsObject.get rel (files manifest) with
      | Some fileCid =>
          if fileCid =? "" then attr ++ "=" ++ quote ++ ipfsPrefix ++ rel ++ quote
          else attr ++ "=" ++ quote ++ "ipfs://" ++ fileCid ++ quote
      | None => attr ++ "=" ++ quote ++ ipfsPrefix ++ rel ++ quote
      end
  | _ => attr ++ "=" ++ quote ++ ipfsPrefix ++ rel ++ quote
  end.

Definition candidates (rel : string) : list string :=
  [rel; "./" ++ rel; "/" ++ rel].

(** [updated] after the loop over [relPaths]. *)
Definition rewrite_html (urlStyle : UrlStyle) (manifest : Manifest)
  (ipfsPrefix html : string) : string :=
  fold_left
    (fun updated rel =>
       fold_left
         (fun updated cand =>
            replace_bindings cand
              (replacement urlStyle manifest ipfsPrefix rel) 0 updated)
         (candidates rel) updated)
    (JsObject.keys (files manifest)) html.

(** [htmlPath.replace (/\.html$/i, '.ipfs.html')] when [htmlPath] ends in
    [.html], [htmlPath + '.ipfs.html'] otherwise.  A suffix of five
    characters without a separator lies in the last component. *)
Definition out_name (name : string) : string :=
  if Text.ends_with ".html" name then Text.drop_last 5 name ++ ".ipfs.html"
  else name ++ ".ipfs.html".

Definition outPath_of (htmlPath : Fs.path) : Fs.path :=
  Fs.map_last out_name htmlPath.

Definition baseTag_of (ipfsPrefix : string) : string :=
  "<base href=" ++ Text.dq ++ ipfsPrefix ++ Text.dq ++ ">".

(** The body of [for (const htmlPath of htmlFiles)]. *)
Definition process_html (urlStyle : UrlStyle) (manifest : Manifest)
  (ipfsPrefix : string) (htmlPath : Fs.path) : M unit :=
  html <- readFileSync htmlPath ;;
  let updated := rewrite_html urlStyle manifest ipfsPrefix html in
  let outPath := outPath_of htmlPath in
  if negb (updated =? html) then writeFileSync outPath updated
  else
    match urlStyle with
    | scheme_file_style => writeFileSync outPath html
    | _ =>
        let baseTag := baseTag_of ipfsPrefix in
        let injected :=
          if Text.includes "<head" html
          then Text.replace "</head>" (baseTag ++ Text.nl ++ "</head>") html
          else baseTag ++ Text.nl ++ html in
        writeFileSync outPath injected
    end.

Definition writeIpfsAddressedHtml (env : Env) (manifestPath : option Fs.path)
  (options : option UrlStyle) : M unit :=
  let manifestAbs :=
    match manifestPath with Some p => p | None => default_manifestPath end in
  present <- existsSync manifestAbs ;;
  if negb present then ret tt else
  manifestRaw <- readFileSync manifestAbs ;;
  match JSON_parse manifestRaw with
  | None => ret tt
  | Some manifest =>
      let rootCid := root manifest in
      if rootCid =? "" then ret tt else
      let urlStyle :=
        match options with Some style => style | None => envStyle env end in
      let ipfsPrefix := ipfsPrefix_of urlStyle rootCid in
      htmlFiles <- collect_html ;;
      for_each htmlFiles (process_html urlStyle manifest ipfsPrefix)
  end.

End WithLibraries.

End Core.

(* ================================================================= *)
(** ** Stand-ins for the libraries *)

Module Reference.

Import Core.

Definition letter (n : N) : ascii := ascii_of_N (97 + n).

(** The bytes of [s], two letters for each. *)
Fixpoint letters (s : string) : string :=
  match s with
  | EmptyString => EmptyString
  | String c t =>
      let n := N_of_ascii c in
      String (letter (n / 16)) (String (letter (n mod 16)) (letters t))
  end.

Definition raw_cid (data : string) : string := "bafkrei" ++ letters data.

Definition node_cid (block : string) : string := "bafybei" ++ letters block.

(** The directories on the way to the file [s], the nearest to the root
    first; [seen] is the part of the path already read. *)
Fixpoint dirs_from (seen s : string) : list string :=
  match s with
  | EmptyString => []
  | String c t =>
      if (c =? "/")%char then seen :: dirs_from (seen ++ "/") t
      else dirs_from (seen ++ String c "") t
  end.

Fixpoint add_new (d : string) (l : list string) : list string :=
  match l with
  | [] => [d]
  | x :: rest => if x =? d then l else x :: add_new d rest
  end.

Definition directories (files : list (string * string)) : list string :=
  rev (fold_left (fun acc f => fold_left (fun a d => add_new d a)
                                 (dirs_from "" (fst f)) acc) files []).

(** The block of the directory [d]: the files below it with their CIDs. *)
Definition listing (d : string) (files : list (string * string)) : string :=
  concat ""
    (map (fun f => fst f ++ "=" ++ raw_cid (snd f) ++ ";")
       (filter (fun f => (d =? "") || Text.starts_with (d ++ "/") (fst f)) files)).

Definition file_entry (f : string * string) : Entry :=
  {| path := Some (fst f); cid := raw_cid (snd f);
     size := Some (SizeBigInt (N.of_nat (length (snd f)))); type := None |}.

Definition dir_entry (files : list (string * string)) (d : string) : Entry :=
  {| path := Some d; cid := node_cid (listing d files);
     size := Some (SizeBigInt (N.of_nat (length (listing d files))));
     type := Some "directory" |}.

(** Modelled from the spec: the UnixFS importer is the library
    ipfs-unixfs-importer, whose code is not part of the repository.  This
    stand-in keeps its contract (specification 4.C): one record and one raw
    block for each file, one record and one block for each directory below
    the root, and last the record of the wrapper directory, whose path is
    the empty string and which exists for an empty file set too.  Its CIDs
    spell out the bytes they address instead of hashing them. *)
Definition importer (files : list (string * string)) : Import :=
  let dirs := (directories files ++ [""])%list in
  {| yielded := (map file_entry files ++ map (dir_entry files) dirs)%list;
     puts := (map (fun f => (raw_cid (snd f), snd f)) files ++
              map (fun d => (node_cid (listing d files), listing d files)) dirs)%list |}.

(** Modelled from the spec: the CAR encoder is the library @ipld/car.  This
    stand-in keeps what the specification 4.D says of the stream: the roots
    of the header, then one section for each block in the order of the
    [put] calls. *)
Definition car_bytes (roots : list string) (blocks : list (string * string))
  : string :=
  "car1[" ++ concat "," roots ++ "]" ++
  concat "" (map (fun b => "(" ++ fst b ++ ":" ++ snd b ++ ")") blocks).

(** [JSON.parse] on the one text it is needed for: the manifest [m] as
    [manifest_json] prints it.  Any other text is refused. *)
Definition parse_only (m : Manifest) (raw : string) : option Manifest :=
  if raw =? manifest_json (root m) (files m) then Some m else None.

Definition no_env : Env :=
  {| IPFS_PACK_DEBUG := None; IPFS_PACK_URL_STYLE := None;
     IPFS_URL_STYLE := None |}.

Definition debug_env : Env :=
  {| IPFS_PACK_DEBUG := Some "1"; IPFS_PACK_URL_STYLE := None;
     IPFS_URL_STYLE := None |}.

Definition carPath : Fs.path := ["bundle.car"].

(** A run of the packer that returns before the stream has touched the
    path of the CAR. *)
Definition pack (env : Env) : M PackResult :=
  packDirectoryToCar importer car_bytes None env carPath default_manifestPath.

Definition compute (env : Env) : M ManifestResult :=
  computeDirectoryManifest importer env default_manifestPath.

(** What the bundler integrations run after a build, with the CAR enabled:
    pack, stamp, rewrite; [JSON.parse] is given the manifest just
    written. *)
Definition postbuild (env : Env) (options : option UrlStyle) : M string :=
  r <- pack env ;;
  stampIndexWithRootCID (rootCid r) ;;;
  writeIpfsAddressedHtml
    (parse_only {| root := rootCid r; files := fileCids r |})
    env (Some default_manifestPath) options ;;;
  ret (rootCid r).

(** A build output with a stale CAR at the root and a file of the same
    name in a subdirectory. *)
Definition site : Fs.node :=
  Fs.Dir [("index.html",
           Fs.File ("<html><head><title>t</title></head><body>" ++
                    "<script src=" ++ Text.dq ++ "app.js" ++ Text.dq ++
                    "></script><a href='./app.js'>a</a></body></html>"));
          ("app.js", Fs.File "run()");
          ("bundle.car", Fs.File "stale");
          ("sub", Fs.Dir [("bundle.car", Fs.File "x")])].

Definition one_file : Fs.node := Fs.Dir [("a.txt", Fs.File "hi")].

Definition empty_dir : Fs.node := Fs.Dir [].


Definition script_tag (src : string) : string :=
  "<script src=" ++ Text.dq ++ src ++ Text.dq ++ "></script>".

(** A manifest and a directory with a page that has a [header] element and
    no [head]. *)
Definition page_manifest : Manifest :=
  {| root := "bafyroot"; files := [("app.js", "bafkreiapp")] |}.

Definition fragment : string := "<header>news</header><p>text</p>".

Definition fragment_dir : Fs.node :=
  Fs.Dir [("news.html", Fs.File fragment);
          ("ipfs-manifest.json",
           Fs.File (manifest_json (root page_manifest) (files page_manifest)))].

(** A build output with a file named as the accessor of
    [Object.prototype]. *)
Definition proto_dir : Fs.node := Fs.Dir [("__proto__", Fs.File "p")].

(** A build output whose index is in Latin-1, with the byte 233 for an
    accented letter, and has no [head] element. *)
Definition latin1_index : string :=
  "<p>caf" ++ String (ascii_of_N 233) "</p>".

Definition latin1_dir : Fs.node := Fs.Dir [("index.html", Fs.File latin1_index)].


End Reference.

(* ================================================================= *)
(** ** Vocabulary of the specification *)

Module Spec.

Import Core.

(** The regular file with the bytes [data] lies at the path [p] below the
    directory [n]. *)
Fixpoint file_at (p : Fs.path) (data : string) (n : Fs.node) : Prop :=
  match p with
  | [] => n = Fs.File data
  | name :: rest =>
      match n with
      | Fs.File _ => False
      | Fs.Dir es => exists child, In (name, child) es /\ file_at rest data child
      end
  end.

(** The path [p] ends in [suffix]: its last component does, as [suffix]
    holds no separator. *)
Definition path_ends_with (suffix : string) (p : Fs.path) : bool :=
  Text.ends_with suffix (last p "").

(** [pat] occurs in [s] between [before] and [after], and nowhere further
    to the left. *)
Definition first_occurrence (pat s before after : string) : Prop :=
  s = before ++ pat ++ after /\
  forall before' after', s = before' ++ pat ++ after' ->
                         length before <= length before'.

Definition base32_char (c : ascii) : bool :=
  let n := N_of_ascii c in
  (((97 <=? n) && (n <=? 122)) || ((50 <=? n) && (n <=? 55)))%N.

Fixpoint all_chars (f : ascii -> bool) (s : string) : bool :=
  match s with
  | EmptyString => true
  | String c t => f c && all_chars f t
  end.

(** The string form of a CIDv1: the multibase prefix [b] and base32
    digits (specification 3, CID). *)
Definition cid_text (s : string) : bool :=
  match s with
  | String c t => (c =? "b")%char && all_chars base32_char t
  | EmptyString => false
  end.

(** No character of [s] is a dollar sign. *)
Definition no_dollar (s : string) : bool :=
  all_chars (fun c => negb (c =? "$")%char) s.

Definition is_root (e : Entry) : bool :=
  match path e with Some p => p =? "" | None => false end.

(** The CID of the last record the importer yielded with an empty path. *)
Definition last_root (entries : list Entry) : option string :=
  option_map cid (List.find is_root (rev entries)).

(** The CID of the last record the importer yielded with the path [p]. *)
Definition last_cid (p : string) (entries : list Entry) : option string :=
  option_map cid
    (List.find (fun e => match path e with Some q => q =? p | None => false end)
       (rev entries)).

(** The bytes of the last [blockstore.put] for the key [k]. *)
Definition last_put (k : string) (ps : list (string * string)) : option string :=
  option_map snd (List.find (fun kv => fst kv =? k) (rev ps)).

(** How many of the blocks carry the CID [k]. *)
Definition count_cid (k : string) (blocks : list (string * string)) : nat :=
  List.length (filter (fun b => fst b =? k) blocks).

(** What one entry of [readdirSync (dir)] adds to the file set. *)
Definition walk_entry (dir : Fs.path) (e : string * Fs.node)
  : list (string * string) :=
  let abs := (dir ++ [fst e])%list in
  match snd e with
  | Fs.Dir _ => walk abs (snd e)
  | Fs.File data =>
      if has (Fs.rel abs) excludedAtRoot then [] else [(Fs.rel abs, data)]
  end.

(** What one entry of [readdirSync (dir)] adds to [htmlFiles]. *)
Definition html_entry (dir : Fs.path) (e : string * Fs.node) : list Fs.path :=
  let abs := (dir ++ [fst e])%list in
  match snd e with
  | Fs.Dir _ => walk_html abs (snd e)
  | Fs.File _ =>
      if Text.ends_with ".html" (Text.to_lower (fst e)) then [abs] else []
  end.









Fixpoint has_slash (s : string) : bool :=
  match s with
  | EmptyString => false
  | String c t => (c =? "/")%char || has_slash t
  end.

(** Well-formed UTF-8: one well-formed byte sequence after the other. *)
Inductive well_formed : string -> Prop :=
| wf_end : well_formed ""
| wf_one b0 t :
    Text.classify b0 = Text.Single -> well_formed t ->
    well_formed (String b0 t)
| wf_two b0 b1 t :
    Text.classify b0 = Text.Lead2 -> Text.between 128 191 b1 = true ->
    well_formed t -> well_formed (String b0 (String b1 t))
| wf_three b0 b1 b2 lo hi t :
    Text.classify b0 = Text.Lead3 lo hi -> Text.between lo hi b1 = true ->
    Text.between 128 191 b2 = true ->
    well_formed t -> well_formed (String b0 (String b1 (String b2 t)))
| wf_four b0 b1 b2 b3 lo hi t :
    Text.classify b0 = Text.Lead4 lo hi -> Text.between lo hi b1 = true ->
    Text.between 128 191 b2 = true -> Text.between 128 191 b3 = true ->
    well_formed t ->
    well_formed (String b0 (String b1 (String b2 (String b3 t)))).

(** The text that tells a stamped index, as the specification writes it. *)
Definition meta_marker : string :=
  "name=" ++ Text.dq ++ "ipfs-root-cid" ++ Text.dq.

(** The meta tag of the stamper, as the specification writes it. *)
Definition meta_tag (rootCid : string) : string :=
  "<meta name=" ++ Text.dq ++ "ipfs-root-cid" ++ Text.dq ++
  " content=" ++ Text.dq ++ rootCid ++ Text.dq ++ " />".

(** A character that a JSON string holds as it is: no control character,
    no double quote, no backslash. *)
Definition plain_char (c : ascii) : bool :=
  let n := N_of_ascii c in
  ((32 <=? n) && negb (n =? 34) && negb (n =? 92))%N.

Definition plain (s : string) : bool := all_chars plain_char s.

(** The start of the manifest text: the root, and the opening of
    [files]. *)
Definition manifest_head (rootCid : string) : string :=
  "{" ++ Text.nl ++
  "  " ++ Text.dq ++ "root" ++ Text.dq ++ ": " ++ Json.quote rootCid ++ "," ++
  Text.nl ++
  "  " ++ Text.dq ++ "files" ++ Text.dq ++ ": {".

(** The line of [files] for the path [k] and the CID [v]. *)
Definition manifest_line (k v : string) : string :=
  "    " ++ Json.quote k ++ ": " ++ Json.quote v.

(** The manifest text: [{ root, files: { path: cid } }], two spaces for
    each level, the paths in the order of [Object.keys]. *)
Definition manifest_text (rootCid : string) (fileCids : JsObject.t) : string :=
  manifest_head rootCid ++
  match JsObject.keys fileCids with
  | [] => "}"
  | keys =>
      Text.nl ++
      concat ("," ++ Text.nl)
        (map (fun k => manifest_line k (JsObject.value_of fileCids k)) keys) ++
      Text.nl ++ "  }"
  end ++
  Text.nl ++ "}".

End Spec.

(* ================================================================= *)
(** ** The upload adapter and its report *)

Module Upload.

(** What [client.addAll] yields; [cid] is [String (result.cid)]. *)
Record AddResult := {
  path : option string;
  name : option string;
  cid : string
}.

Record Options := {
  apiUrl : option string;
  authHeader : option string;
  wrapWithDirectory : option bool
}.

Record Env := {
  IPFS_API_URL : option string;
  IPFS_API_AUTH : option string
}.

Record UploadResult := {
  rootCid : string;
  fileCids : JsObject.t
}.

(** What the function throws: its own error, or an exception of the client
    or of node:fs, kept as the text that describes it (its message, or the
    exception itself as a string when it has none). *)
Inductive failure :=
| NoDirectoryRootCid   (* 'IPFS upload did not return a directory root CID' *)
| Threw (message : string).

(** [client.addAll (sources, { wrapWithDirectory, ... })]: the results it
    yields, or the text of the exception it throws. *)
Definition Client := list (string * string) -> bool -> string + list AddResult.

Definition default_apiUrl : string := "http://127.0.0.1:5001".

(** [options?.apiUrl || process.env.IPFS_API_URL || 'http://127.0.0.1:5001']. *)
Definition apiUrl_of (env : Env) (options : option Options) : string :=
  match Core.or_else
          (Core.or_else (match options with Some o => apiUrl o | None => None end)
                        (IPFS_API_URL env))
          (Some default_apiUrl) with
  | Some s => s
  | None => ""
  end.

(** [options?.authHeader || process.env.IPFS_API_AUTH], as the header the
    client is created with: none when the value is empty. *)
Definition authHeader_of (env : Env) (options : option Options) : option string :=
  let v := Core.or_else (match options with Some o => authHeader o | None => None end)
                        (IPFS_API_AUTH env) in
  if Core.truthy v then v else None.

(** [options?.wrapWithDirectory ?? true]. *)
Definition wrap_of (options : option Options) : bool :=
  match options with
  | Some o => match wrapWithDirectory o with Some b => b | None => true end
  | None => true
  end.

(** The test that makes a result the directory root. *)
Definition is_root_result (wrap : bool) (result : AddResult) : bool :=
  match path result with
  | Some p => p =? ""
  | None => wrap && negb (Core.truthy (name result))
  end.

(** The body of [for await (const result of client.addAll (...))]. *)
Definition record_result (wrap : bool) (acc : option string * JsObject.t)
  (result : AddResult) : option string * JsObject.t :=
  let (rootCid, fileCids) := acc in
  let cidStr := cid result in
  if is_root_result wrap result then (Some cidStr, fileCids)
  else match path result with
       | Some p =>
           if (0 <? length p)%nat then (rootCid, JsObject.set p cidStr fileCids)
           else acc
       | None => acc
       end.

(** What follows the loop: the fallback on [fileCids['']], the throw, the
    return. *)
Definition conclude (acc : option string * JsObject.t) : failure + UploadResult :=
  let (rootCid, fileCids) := acc in
  let rootCid :=
    if Core.truthy rootCid then rootCid
    else let rootCandidate := JsObject.get "" fileCids in
         if Core.truthy rootCandidate then rootCandidate else rootCid in
  match rootCid with
  | Some r =>
      if r =? "" then inl NoDirectoryRootCid
      else inr {| rootCid := r; fileCids := fileCids |}
  | None => inl NoDirectoryRootCid
  end.

Section WithClient.

(** [create] of ipfs-http-client, reached through a dynamic import, for an
    API URL and an authorization header: the client, or the message of the
    exception; and the message of the exception [readdirSync] throws. *)
Variable create : string -> option string -> string + Client.
Variable fs_message : string.

Definition uploadDirectoryViaApi (env : Env) (options : option Options)
  (fs : Fs.node) : failure + UploadResult :=
  let apiUrl := apiUrl_of env options in
  let authHeader := authHeader_of env options in
  let wrapWithDirectory := wrap_of options in
  match create apiUrl authHeader with
  | inl message => inl (Threw message)
  | inr client =>
      if Fs.is_dir fs then
        let sources := Core.walk [] fs in
        match client sources wrapWithDirectory with
        | inl message => inl (Threw message)
        | inr results =>
            conclude (fold_left (record_result wrapWithDirectory) results
                        (None, JsObject.empty))
        end
      else inl (Threw fs_message)
  end.

End WithClient.

Section WithCollation.

(** The sign of [a.localeCompare (b)]. *)
Variable localeCompare : string -> string -> comparison.

Fixpoint insert (x : string) (sorted : list string) : list string :=
  match sorted with
  | [] => [x]
  | y :: rest =>
      match localeCompare x y with
      | Lt => x :: sorted
      | _ => y :: insert x rest
      end
  end.

(** [keys.sort ((a, b) => a.localeCompare (b))]: the sort is stable, so for
    a comparison that orders the keys its result is the one of inserting
    each key in turn behind the keys that do not come after it. *)
Definition sort (keys : list string) : list string :=
  fold_left (fun sorted k => insert k sorted) keys [].

Definition href_of (urlStyle rootCid cid k : string) : string :=
  if urlStyle =? "scheme-file" then "ipfs://" ++ cid
  else if urlStyle =? "scheme" then "ipfs://" ++ rootCid ++ "/" ++ k
  else "/ipfs/" ++ rootCid ++ "/" ++ k.

Definition file_line (urlStyle rootCid : string) (fileCids : JsObject.t)
  (k : string) : string :=
  "  - " ++ k ++ " -> " ++ href_of urlStyle rootCid (JsObject.value_of fileCids k) k.

Definition report_lines (rootCid : string) (fileCids : JsObject.t)
  (urlStyle : option string) : list string :=
  let urlStyle := match urlStyle with Some s => s | None => "scheme-file" end in
  let keys := sort (JsObject.keys fileCids) in
  let header :=
    ["Uploaded to IPFS:";
     "- root: " ++ rootCid;
     "- files (" ++ Json.decimal (N.of_nat (List.length keys)) ++ "):"] in
  (header ++ map (file_line urlStyle rootCid fileCids) keys)%list.

Definition formatUploadReport (rootCid : string) (fileCids : JsObject.t)
  (urlStyle : option string) : string :=
  concat Text.nl (report_lines rootCid fileCids urlStyle).

End WithCollation.

End Upload.

(* ================================================================= *)
(** ** The bundler integrations *)

Module Plugin.

Import Core.

Record Env := {
  core : Core.Env;
  upload : Upload.Env;
  IPFS_PACK_SKIP_CAR : option string;
  IPFS_UPLOAD : option string
}.

(** [v === '1' || v === 'true' || v === 'yes']. *)
Definition is_on (v : string) : bool :=
  (v =? "1") || (v =? "true") || (v =? "yes").

(** [String (process.env.IPFS_PACK_SKIP_CAR ?? 'true').toLowerCase ()] is
    one of the three. *)
Definition shouldSkipCar (env : Env) : bool :=
  is_on (Text.to_lower
           (match IPFS_PACK_SKIP_CAR env with Some s => s | None => "true" end)).

Definition doUpload (env : Env) : bool :=
  is_on (Text.to_lower
           (match IPFS_UPLOAD env with Some s => s | None => "false" end)).

(** The [urlStyle] the integrations give to [formatUploadReport]. *)
Definition report_urlStyle (env : Env) : string :=
  let urlStyleEnv :=
    Text.to_lower
      (match or_else (or_else (IPFS_PACK_URL_STYLE (core env))
                              (IPFS_URL_STYLE (core env)))
               (Some "") with
       | Some s => s
       | None => ""
       end) in
  if urlStyleEnv =? "" then "scheme-file" else urlStyleEnv.

Definition carPath : Fs.path := ["bundle.car"].
Definition manifestPath : Fs.path := ["ipfs-manifest.json"].

Section WithLibraries.

Variable importer : list (string * string) -> Import.
Variable car_bytes : list string -> list (string * string) -> string.
Variable JSON_parse : string -> option Manifest.
Variable create : string -> option string -> string + Upload.Client.
Variable fs_message : string.
Variable localeCompare : string -> string -> comparison.

(** The part of the CAR stream carried out when [packDirectoryToCar]
    returns to the hook. *)
Variable flushed : option nat.

(** The manifest, with the CAR unless it is skipped; the root CID. *)
Definition pack_or_compute (env : Env) : M string :=
  if shouldSkipCar env then
    res <- computeDirectoryManifest importer (core env) manifestPath ;;
    ret (m_rootCid res)
  else
    res <- packDirectoryToCar importer car_bytes flushed (core env) carPath
             manifestPath ;;
    ret (rootCid res).

(** The part the three integrations share: manifest, stamp, siblings. *)
Definition pack_stamp_rewrite (env : Env) : M string :=
  rootCid <- pack_or_compute env ;;
  stampIndexWithRootCID rootCid ;;;
  writeIpfsAddressedHtml JSON_parse (core env) (Some manifestPath) None ;;;
  ret rootCid.

(** [e && e.message ? e.message : String (e)]: the text [Upload.failure]
    keeps of the exception. *)
Definition failure_text (e : Upload.failure) : string :=
  match e with
  | Upload.NoDirectoryRootCid => "IPFS upload did not return a directory root CID"
  | Upload.Threw message => message
  end.

(** The [try] and [catch] around the upload: the report, or the message
    that the upload failed. *)
Definition upload_message (env : Env) : M (list string) :=
  fun fs =>
    if doUpload env then
      match Upload.uploadDirectoryViaApi create fs_message (upload env)
              (Some {| Upload.apiUrl := Upload.IPFS_API_URL (upload env);
                       Upload.authHeader := Upload.IPFS_API_AUTH (upload env);
                       Upload.wrapWithDirectory := Some true |}) fs with
      | inr uploadResult =>
          (fs, Returned
                 [Upload.formatUploadReport localeCompare
                    (Upload.rootCid uploadResult) (Upload.fileCids uploadResult)
                    (Some (report_urlStyle env))])
      | inl e => (fs, Returned ["IPFS upload failed: " ++ failure_text e])
      end
    else (fs, Returned []).

(** [closeBundle] of the Vite plugin and the [afterEmit] hook of the webpack
    plugin: the warnings they add, in order. *)
Definition closeBundle (env : Env) : M (list string) :=
  rootCid <- pack_stamp_rewrite env ;;
  messages <- upload_message env ;;
  let last := "IPFS root CID: " ++ rootCid in
  ret (messages ++ [last])%list.

(** The postbuild script of the Next.js integration: what it prints, in
    order. *)
Definition postbuild (env : Env) : M (list string) :=
  rootCid <- pack_stamp_rewrite env ;;
  messages <- upload_message env ;;
  ret (("IPFS root CID: " ++ rootCid)%string :: messages).

End WithLibraries.

End Plugin.

(* ================================================================= *)
(** ** Directories as a file system gives them *)

Module Tree.

Definition name_char_ok (c : ascii) : bool :=
  negb (c =? "/")%char && negb (c =? Fs.backslash)%char.

(** A name of a directory entry: not empty, without a separator of either
    kind. *)
Definition name_ok (name : string) : Prop :=
  name <> "" /\ Spec.all_chars name_char_ok name = true.

(** No two entries of a directory share a name, and every name is one a
    file system can hold. *)
Inductive well_formed : Fs.node -> Prop :=
| wf_file data : well_formed (Fs.File data)
| wf_dir es :
    NoDup (map fst es) ->
    (forall name child, In (name, child) es -> name_ok name /\ well_formed child) ->
    well_formed (Fs.Dir es).

End Tree.

(* ================================================================= *)
(** ** Vocabulary for the adapter and the integrations *)

Module Terms.

Import Core.

(** The CID of the last result the client yielded that marks the root. *)
Definition last_root_result (wrap : bool) (results : list Upload.AddResult)
  : option string :=
  option_map Upload.cid
    (List.find (Upload.is_root_result wrap) (rev results)).

(** The CID of the last result the client yielded with the path [p]. *)
Definition last_cid_result (p : string) (results : list Upload.AddResult)
  : option string :=
  option_map Upload.cid
    (List.find (fun r => match Upload.path r with
                         | Some q => q =? p
                         | None => false
                         end)
       (rev results)).

(** The computation [m] leaves the path [q] as it finds it, whether it
    returns or throws. *)
Definition preserves {A : Type} (q : Fs.path) (m : M A) : Prop :=
  forall fs, Fs.read q (fst (m fs)) = Fs.read q fs.

(** The value of the URL style in the environment, lower-cased: the first
    of [IPFS_PACK_URL_STYLE] and [IPFS_URL_STYLE] that is not empty. *)
Definition style_value (env : Core.Env) : string :=
  Text.to_lower
    (match or_else (or_else (IPFS_PACK_URL_STYLE env) (IPFS_URL_STYLE env))
             (Some "") with
     | Some s => s
     | None => ""
     end).


Definition no_backslash (s : string) : bool :=
  Spec.all_chars (fun c => negb (c =? Fs.backslash)%char) s.

(** The collation by bytes, to run the report with. *)
Definition byte_order (a b : string) : comparison := String.compare a b.

(** A client that yields one result for each source and the root last. *)
Definition echo_client : Upload.Client :=
  fun sources wrap =>
    inr (map (fun f => {| Upload.path := Some (fst f); Upload.name := None;
                          Upload.cid := Reference.raw_cid (snd f) |}) sources ++
         [{| Upload.path := Some ""; Upload.name := None;
             Upload.cid := Reference.node_cid (Reference.listing "" sources) |}])%list.

(** A client that yields the files and no root. *)
Definition rootless_client : Upload.Client :=
  fun sources wrap =>
    inr (map (fun f => {| Upload.path := Some (fst f); Upload.name := None;
                          Upload.cid := Reference.raw_cid (snd f) |}) sources).

Definition no_upload_env : Upload.Env :=
  {| Upload.IPFS_API_URL := None; Upload.IPFS_API_AUTH := None |}.

Definition default_env : Plugin.Env :=
  {| Plugin.core := Reference.no_env; Plugin.upload := no_upload_env;
     Plugin.IPFS_PACK_SKIP_CAR := None; Plugin.IPFS_UPLOAD := None |}.

(** The style asked for by the alias [file], in capitals. *)
Definition file_style_env : Plugin.Env :=
  {| Plugin.core := {| IPFS_PACK_DEBUG := None;
                       IPFS_PACK_URL_STYLE := Some "FILE";
                       IPFS_URL_STYLE := Some "path" |};
     Plugin.upload := no_upload_env;
     Plugin.IPFS_PACK_SKIP_CAR := None; Plugin.IPFS_UPLOAD := Some "1" |}.

Definition two_files : JsObject.t :=
  [("b.js", "bafkreib"); ("a.css", "bafkreia")].

Definition upload_env : Plugin.Env :=
  {| Plugin.core := Reference.no_env; Plugin.upload := no_upload_env;
     Plugin.IPFS_PACK_SKIP_CAR := Some "no"; Plugin.IPFS_UPLOAD := Some "YES" |}.

(** [JSON.parse] for the manifest of [Reference.site]. *)
Definition site_parse : string -> option Manifest :=
  let entries := yielded (Reference.importer (walk [] Reference.site)) in
  Reference.parse_only
    {| root := match fst (record_entries entries) with
               | Some r => r
               | None => ""
               end;
       files := snd (record_entries entries) |}.

End Terms.

(* ================================================================= *)
(** * Properties *)

(** ** Strings *)

Unset Implicit Arguments.
Arguments Text.starts_with : simpl never.

Lemma append_nil_r (s : string) : s ++ "" = s.
Proof. induction s; simpl; congruence. Qed.

Lemma append_assoc (a b c : string) : (a ++ b) ++ c = a ++ b ++ c.
Proof. induction a; simpl; congruence. Qed.

Lemma length_append (a b : string) : length (a ++ b) = length a + length b.
Proof. induction a; simpl; auto. Qed.

Lemma starts_with_app (p s : string) : Text.starts_with p (p ++ s) = true.
Proof.
  unfold Text.starts_with. induction p as [|c p IH]; simpl.
  - destruct s; reflexivity.
  - destruct (ascii_dec c c); [exact IH | congruence].
Qed.

Lemma starts_with_inv (p s : string) :
  Text.starts_with p s = true -> s = p ++ Text.drop (length p) s.
Proof.
  unfold Text.starts_with. revert s. induction p as [|c p IH]; intros s H.
  - reflexivity.
  - destruct s as [|d s]; simpl in H; [discriminate|].
    destruct (ascii_dec c d); [subst|discriminate].
    simpl. f_equal. apply IH. exact H.
Qed.

Lemma drop_app (a b : string) : Text.drop (length a) (a ++ b) = b.
Proof. induction a; simpl; auto. Qed.

Lemma includes_here (pat s : string) :
  Text.starts_with pat s = true -> Text.includes pat s = true.
Proof. destruct s; simpl; intros ->; reflexivity. Qed.

Lemma drop_nil (n : nat) : Text.drop n "" = "".
Proof. destruct n; reflexivity. Qed.

Lemma includes_app (a pat b : string) : Text.includes pat (a ++ pat ++ b) = true.
Proof.
  induction a as [|c a IH]; simpl.
  - apply includes_here, starts_with_app.
  - rewrite IH. apply orb_true_r.
Qed.

Lemma split_first_sound (pat s before after : string) :
  Text.split_first pat s = Some (before, after) -> s = before ++ pat ++ after.
Proof.
  revert before after. induction s as [|c s IH]; intros before after H.
  - simpl in H. destruct (Text.starts_with pat "") eqn:E; [|discriminate].
    inversion H; subst. simpl. apply starts_with_inv in E. exact E.
  - simpl in H. destruct (Text.starts_with pat (String c s)) eqn:E.
    + inversion H; subst. simpl. apply starts_with_inv in E. exact E.
    + destruct (Text.split_first pat s) as [[b a]|] eqn:E2; [|discriminate].
      inversion H; subst. simpl. f_equal. apply IH. reflexivity.
Qed.

Lemma split_first_none (pat s : string) :
  Text.split_first pat s = None <-> Text.includes pat s = false.
Proof.
  induction s as [|c s IH]; simpl.
  - destruct (Text.starts_with pat ""); simpl; split; congruence.
  - destruct (Text.starts_with pat (String c s)); simpl.
    + split; congruence.
    + destruct (Text.split_first pat s) as [[b a]|] eqn:E.
      * split; [congruence|]. intro H. apply IH in H. congruence.
      * split; [intros _; apply IH; reflexivity | reflexivity].
Qed.

Lemma split_first_least (pat s before after : string) :
  Text.split_first pat s = Some (before, after) ->
  forall before' after', s = before' ++ pat ++ after' ->
                         length before <= length before'.
Proof.
  revert before after. induction s as [|c s IH]; intros before after H b' a' E.
  - simpl in H. destruct (Text.starts_with pat ""); [|discriminate].
    inversion H; subst. simpl. lia.
  - simpl in H. destruct (Text.starts_with pat (String c s)) eqn:E1.
    + inversion H; subst. simpl. lia.
    + destruct (Text.split_first pat s) as [[b a]|] eqn:E2; [|discriminate].
      inversion H; subst. destruct b' as [|d b'].
      * simpl in E. rewrite E, starts_with_app in E1. discriminate.
      * simpl in E. inversion E; subst. simpl.
        apply le_n_S. eapply IH; reflexivity.
Qed.

Lemma first_occurrence_split (pat s before after : string) :
  Spec.first_occurrence pat s before after ->
  Text.split_first pat s = Some (before, after).
Proof.
  intros [E Hmin].
  destruct (Text.split_first pat s) as [[b a]|] eqn:H.
  - pose proof (split_first_sound _ _ _ _ H) as E'.
    pose proof (split_first_least _ _ _ _ H _ _ E) as L1.
    pose proof (Hmin _ _ E') as L2.
    assert (L : length b = length before) by lia.
    clear L1 L2 Hmin H. subst s.
    revert before L E'. induction b as [|c b IH]; intros [|d before] L E';
      simpl in L; try discriminate.
    + simpl in E'. apply (f_equal (Text.drop (length pat))) in E'.
      rewrite !drop_app in E'. subst. reflexivity.
    + simpl in E'. inversion E'; subst.
      specialize (IH before ltac:(lia) H1). inversion IH; subst. reflexivity.
  - apply split_first_none in H. rewrite E, includes_app in H. discriminate.
Qed.

(** ** Decoding UTF-8 *)

Arguments Text.classify : simpl never.
Arguments Text.between : simpl never.

(** Well-formed bytes at the front are read as they are. *)
Lemma utf8_keeps_well_formed (a x : string) :
  Spec.well_formed a -> Text.utf8 (a ++ x) = a ++ Text.utf8 x.
Proof.
  induction 1 as [|b0 t C _ IH|b0 b1 t C B1 _ IH|b0 b1 b2 lo hi t C B1 B2 _ IH
                  |b0 b1 b2 b3 lo hi t C B1 B2 B3 _ IH];
    cbn [append Text.utf8];
    rewrite ?C, ?B1, ?B2, ?B3, ?IH; reflexivity.
Qed.

Lemma utf8_well_formed (s : string) : Spec.well_formed s -> Text.utf8 s = s.
Proof.
  intros H. rewrite <- (append_nil_r s) at 1.
  rewrite (utf8_keeps_well_formed _ _ H). apply append_nil_r.
Qed.

Lemma replacement_well_formed (t : string) :
  Spec.well_formed t -> Spec.well_formed (Text.replacement_character ++ t).
Proof.
  intros H. apply (@Spec.wf_three _ _ _ 128%N 191%N); try reflexivity. exact H.
Qed.

(** What the decoder gives is well-formed. *)
Lemma utf8_is_well_formed (s : string) : Spec.well_formed (Text.utf8 s).
Proof.
  assert (G : forall n s, length s <= n -> Spec.well_formed (Text.utf8 s)).
  { induction n as [|n IH]; intros s0 L.
    - destruct s0; [constructor | simpl in L; lia].
    - destruct s0 as [|b0 t]; [constructor|]. simpl in L.
      assert (Lt : length t <= n) by lia.
      pose proof (replacement_well_formed "" Spec.wf_end) as R0.
      rewrite append_nil_r in R0.
      cbn [Text.utf8]. destruct (Text.classify b0) as [| |lo hi|lo hi|] eqn:C.
      + apply Spec.wf_one; auto.
      + destruct t as [|b1 t1]; [exact R0|]. simpl in Lt.
        destruct (Text.between 128 191 b1) eqn:B1.
        * apply Spec.wf_two; auto. apply IH. lia.
        * apply replacement_well_formed. apply IH. simpl. lia.
      + destruct t as [|b1 t1]; [exact R0|]. simpl in Lt.
        destruct (Text.between lo hi b1) eqn:B1;
          [|apply replacement_well_formed; apply IH; simpl; lia].
        destruct t1 as [|b2 t2]; [exact R0|]. simpl in Lt.
        destruct (Text.between 128 191 b2) eqn:B2.
        * apply (@Spec.wf_three _ _ _ lo hi); auto. apply IH. lia.
        * apply replacement_well_formed. apply IH. simpl. lia.
      + destruct t as [|b1 t1]; [exact R0|]. simpl in Lt.
        destruct (Text.between lo hi b1) eqn:B1;
          [|apply replacement_well_formed; apply IH; simpl; lia].
        destruct t1 as [|b2 t2]; [exact R0|]. simpl in Lt.
        destruct (Text.between 128 191 b2) eqn:B2;
          [|apply replacement_well_formed; apply IH; simpl; lia].
        destruct t2 as [|b3 t3]; [exact R0|]. simpl in Lt.
        destruct (Text.between 128 191 b3) eqn:B3.
        * apply (@Spec.wf_four _ _ _ _ lo hi); auto. apply IH. lia.
        * apply replacement_well_formed. apply IH. simpl. lia.
      + apply replacement_well_formed. apply IH. lia. }
  apply (G (length s)). lia.
Qed.

Lemma utf8_idempotent (s : string) : Text.utf8 (Text.utf8 s) = Text.utf8 s.
Proof. apply utf8_well_formed, utf8_is_well_formed. Qed.

Lemma single_below_lead (c : ascii) lo hi :
  Text.classify c = Text.Single -> Text.between lo hi c = true ->
  (128 <= lo)%N -> False.
Proof.
  unfold Text.classify, Text.between. intros C B L.
  destruct (N_of_ascii c <? 128)%N eqn:E.
  - apply N.ltb_lt in E. apply andb_true_iff in B. destruct B as [B _].
    apply N.leb_le in B. lia.
  - destruct ((194 <=? N_of_ascii c) && (N_of_ascii c <=? 223))%N; [discriminate|].
    destruct ((224 <=? N_of_ascii c) && (N_of_ascii c <=? 239))%N; [discriminate|].
    destruct ((240 <=? N_of_ascii c) && (N_of_ascii c <=? 244))%N; discriminate.
Qed.

Lemma lead_bound (c : ascii) :
  match Text.classify c with
  | Text.Lead3 lo _ | Text.Lead4 lo _ => (128 <= lo)%N
  | _ => True
  end.
Proof.
  unfold Text.classify.
  destruct (N_of_ascii c <? 128)%N; [exact I|].
  destruct ((194 <=? N_of_ascii c) && (N_of_ascii c <=? 223))%N; [exact I|].
  destruct ((224 <=? N_of_ascii c) && (N_of_ascii c <=? 239))%N.
  - destruct (N_of_ascii c =? 224)%N; lia.
  - destruct ((240 <=? N_of_ascii c) && (N_of_ascii c <=? 244))%N; [|exact I].
    destruct (N_of_ascii c =? 240)%N; lia.
Qed.

(** A well-formed text cut before a byte below 128: the part before the cut
    is well-formed. *)
Lemma well_formed_before (a : string) (c : ascii) (b : string) :
  Text.classify c = Text.Single ->
  Spec.well_formed (a ++ String c b) -> Spec.well_formed a.
Proof.
  intros Hc H. remember (a ++ String c b) as s eqn:E. revert a E.
  assert (No : forall lo hi, Text.between lo hi c = true -> (128 <= lo)%N -> False)
    by (intros lo hi; apply single_below_lead; exact Hc).
  induction H as [|b0 t C _ IH|b0 b1 t C B1 _ IH|b0 b1 b2 lo hi t C B1 B2 _ IH
                  |b0 b1 b2 b3 lo hi t C B1 B2 B3 _ IH]; intros a E.
  - destruct a; discriminate.
  - destruct a as [|a0 a]; [constructor|]. inversion E; subst.
    apply Spec.wf_one; auto.
  - destruct a as [|a0 [|a1 a]]; [constructor| |]; inversion E; subst.
    + exfalso. apply (No _ _ B1). lia.
    + apply Spec.wf_two; auto.
  - pose proof (lead_bound b0) as Lb. rewrite C in Lb.
    destruct a as [|a0 [|a1 [|a2 a]]]; [constructor| | |]; inversion E; subst.
    + exfalso. apply (No _ _ B1). exact Lb.
    + exfalso. apply (No _ _ B2). lia.
    + apply (@Spec.wf_three _ _ _ lo hi); auto.
  - pose proof (lead_bound b0) as Lb. rewrite C in Lb.
    destruct a as [|a0 [|a1 [|a2 [|a3 a]]]]; [constructor| | | |]; inversion E; subst.
    + exfalso. apply (No _ _ B1). exact Lb.
    + exfalso. apply (No _ _ B2). lia.
    + exfalso. apply (No _ _ B3). lia.
    + apply (@Spec.wf_four _ _ _ _ lo hi); auto.
Qed.

(** ** The directory tree *)

Lemma find_put_same (name : string) (c : Fs.node) es :
  Fs.find name (Fs.put name c es) = Some c.
Proof.
  induction es as [|[n c0] es IH]; simpl.
  - rewrite String.eqb_refl. reflexivity.
  - destruct (n =? name) eqn:E; simpl; rewrite E; auto.
Qed.

Lemma find_put_other (name n : string) (c : Fs.node) es :
  n <> name -> Fs.find n (Fs.put name c es) = Fs.find n es.
Proof.
  intros Hn. induction es as [|[m c0] es IH]; simpl.
  - destruct (name =? n) eqn:E; [apply String.eqb_eq in E; congruence | reflexivity].
  - destruct (m =? name) eqn:E; simpl.
    + apply String.eqb_eq in E. subst m.
      destruct (name =? n) eqn:E2; [apply String.eqb_eq in E2; congruence | reflexivity].
    + rewrite IH. reflexivity.
Qed.

Lemma put_same (name : string) (c : Fs.node) es :
  Fs.find name es = Some c -> Fs.put name c es = es.
Proof.
  induction es as [|[n c0] es IH]; simpl; intros H; [discriminate|].
  destruct (n =? name) eqn:E.
  - inversion H; subst. reflexivity.
  - f_equal. auto.
Qed.

Lemma read_cons (name : string) (q : Fs.path) es :
  Fs.read (name :: q) (Fs.Dir es) =
  match Fs.find name es with Some c => Fs.read q c | None => None end.
Proof. unfold Fs.read. simpl. destruct (Fs.find name es); reflexivity. Qed.

Lemma read_file_cons (name : string) (q : Fs.path) (d : string) :
  Fs.read (name :: q) (Fs.File d) = None.
Proof. reflexivity. Qed.

Lemma write_read_same (p : Fs.path) (d : string) :
  forall fs fs', Fs.write p d fs = Some fs' -> Fs.read p fs' = Some d.
Proof.
  induction p as [|name rest IH]; intros fs fs' H.
  - destruct fs; simpl in H; inversion H. reflexivity.
  - destruct fs as [|es]; simpl in H; [discriminate|].
    destruct (Fs.find name es) as [child|] eqn:E.
    + destruct (Fs.write rest d child) as [child'|] eqn:W; inversion H; subst.
      rewrite read_cons, find_put_same. eauto.
    + destruct rest; inversion H; subst.
      rewrite read_cons, find_put_same. reflexivity.
Qed.

Lemma write_read_other (p : Fs.path) (d : string) :
  forall q fs fs', Fs.write p d fs = Some fs' -> q <> p ->
                   Fs.read q fs' = Fs.read q fs.
Proof.
  induction p as [|name rest IH]; intros q fs fs' H Hq.
  - destruct fs; simpl in H; inversion H; subst.
    destruct q; [congruence | reflexivity].
  - destruct fs as [|es]; simpl in H; [discriminate|].
    destruct q as [|n qr]; [destruct (Fs.find name es) as [child|];
      [destruct (Fs.write rest d child) | destruct rest]; inversion H; reflexivity|].
    rewrite (read_cons n qr es).
    destruct (string_dec n name) as [->|Hn].
    + destruct (Fs.find name es) as [child|] eqn:E.
      * destruct (Fs.write rest d child) as [child'|] eqn:W; inversion H; subst.
        rewrite read_cons, find_put_same. eapply IH; eauto. congruence.
      * destruct rest; inversion H; subst.
        rewrite read_cons, find_put_same.
        destruct qr; [congruence | reflexivity].
    + assert (F : forall c, Fs.find n (Fs.put name c es) = Fs.find n es)
        by (intros; apply find_put_other; exact Hn).
      destruct (Fs.find name es) as [child|] eqn:E.
      * destruct (Fs.write rest d child) as [child'|] eqn:W; inversion H; subst.
        rewrite read_cons, F. reflexivity.
      * destruct rest; inversion H; subst. rewrite read_cons, F. reflexivity.
Qed.

Lemma write_same (p : Fs.path) (d : string) :
  forall fs, Fs.read p fs = Some d -> Fs.write p d fs = Some fs.
Proof.
  induction p as [|name rest IH]; intros fs H.
  - destruct fs; unfold Fs.read in H; simpl in H; inversion H. reflexivity.
  - destruct fs as [|es]; [discriminate|].
    rewrite read_cons in H. simpl.
    destruct (Fs.find name es) as [child|] eqn:E; [|discriminate].
    rewrite (IH _ H), (put_same _ _ _ E). reflexivity.
Qed.

Lemma write_is_dir (p : Fs.path) (d : string) fs fs' :
  Fs.write p d fs = Some fs' -> Fs.is_dir fs' = Fs.is_dir fs.
Proof.
  destruct p as [|name rest]; destruct fs as [|es]; simpl; try discriminate.
  - intros H; inversion H; reflexivity.
  - destruct (Fs.find name es) as [child|].
    + destruct (Fs.write rest d child); intros H; inversion H; reflexivity.
    + destruct rest; intros H; inversion H; reflexivity.
Qed.

(** Induction on a directory tree: a property of the children gives the
    property of the directory. *)
Lemma node_induction (P : Fs.node -> Prop) :
  (forall d, P (Fs.File d)) ->
  (forall es, (forall name child, In (name, child) es -> P child) -> P (Fs.Dir es)) ->
  forall n, P n.
Proof.
  intros HF HD. fix IH 1. intros [d|es].
  - apply HF.
  - apply HD. induction es as [|[n0 c0] es IHes]; intros name child H.
    + destruct H.
    + pose proof (IH c0) as Hc. destruct H as [H|H].
      * inversion H; subst. exact Hc.
      * eapply IHes; eauto.
Qed.

(** ** The walker *)

Arguments Core.has : simpl never.
Arguments Fs.rel : simpl never.

Lemma walk_dir_eq (dir : Fs.path) es :
  Core.walk dir (Fs.Dir es) = flat_map (Spec.walk_entry dir) es.
Proof.
  simpl. induction es as [|[name child] es IH]; [reflexivity|].
  simpl. rewrite IH. f_equal.
  unfold Spec.walk_entry. simpl. destruct child; simpl; [|reflexivity].
  destruct (Core.has _ _); reflexivity.
Qed.

Lemma walk_sound :
  forall n dir r data,
    In (r, data) (Core.walk dir n) ->
    Core.has r Core.excludedAtRoot = false /\
    exists p, p <> [] /\ Spec.file_at p data n /\ r = Fs.rel (dir ++ p)%list.
Proof.
  intros n. induction n as [d|es IH] using node_induction; intros dir r data H.
  - destruct H.
  - rewrite walk_dir_eq in H. apply in_flat_map in H.
    destruct H as [[name child] [Hin H]].
    unfold Spec.walk_entry in H. simpl in H. destruct child as [d|sub].
    + destruct (Core.has (Fs.rel (dir ++ [name])%list) Core.excludedAtRoot) eqn:E;
        [destruct H|].
      destruct H as [H|[]]. inversion H; subst. split; [exact E|].
      exists [name]. split; [discriminate|]. split; [|reflexivity].
      simpl. exists (Fs.File data). auto.
    + destruct (IH _ _ Hin _ _ _ H) as [E [p [Hp [Hf Hr]]]].
      split; [exact E|]. exists (name :: p). split; [discriminate|].
      split; [simpl; eauto|]. rewrite Hr, <- app_assoc. reflexivity.
Qed.

Lemma walk_complete :
  forall p data n dir,
    p <> [] -> Spec.file_at p data n ->
    Core.has (Fs.rel (dir ++ p)%list) Core.excludedAtRoot = false ->
    In (Fs.rel (dir ++ p)%list, data) (Core.walk dir n).
Proof.
  induction p as [|name rest IH]; intros data n dir Hp Hf Hx; [congruence|].
  destruct n as [d|es]; [destruct Hf|].
  destruct Hf as [child [Hin Hf]].
  rewrite walk_dir_eq. apply in_flat_map. exists (name, child).
  split; [exact Hin|]. unfold Spec.walk_entry. simpl.
  destruct rest as [|n2 rest].
  - simpl in Hf. subst child. rewrite Hx. left. reflexivity.
  - destruct child as [d|sub]; [destruct Hf|].
    replace (dir ++ name :: n2 :: rest)%list
      with ((dir ++ [name]) ++ n2 :: rest)%list in * by (rewrite <- app_assoc; reflexivity).
    apply IH; [discriminate | exact Hf | exact Hx].
Qed.

Lemma slashes_no_slash (a : string) :
  Spec.has_slash (Fs.slashes a) = false -> Fs.slashes a = a.
Proof.
  induction a as [|c a IH]; simpl; [reflexivity|].
  destruct (c =? Fs.backslash)%char eqn:E; simpl; [discriminate|].
  intros H. apply orb_false_iff in H. destruct H as [_ H]. rewrite IH; auto.
Qed.

Lemma has_slash_slashes_sep (a b : string) :
  Spec.has_slash (Fs.slashes (a ++ String "/" b)) = true.
Proof.
  induction a as [|c a IH]; simpl; [reflexivity|].
  rewrite IH. apply orb_true_r.
Qed.

Lemma excluded_no_slash (r : string) :
  Core.has r Core.excludedAtRoot = true ->
  In r Core.excludedAtRoot /\ Spec.has_slash r = false.
Proof.
  unfold Core.has. simpl. intros H.
  repeat (apply orb_true_iff in H; destruct H as [H|H]);
    try discriminate; apply String.eqb_eq in H; subst r; simpl; auto.
Qed.

Lemma excluded_iff_root_artifact (p : Fs.path) :
  Core.has (Fs.rel p) Core.excludedAtRoot = true <->
  exists name, p = [name] /\ In name Core.excludedAtRoot.
Proof.
  split.
  - intros H. apply excluded_no_slash in H. destruct H as [Hin Hs].
    destruct p as [|name [|n2 rest]].
    + simpl in Hin. repeat (destruct Hin as [Hin|Hin]; try discriminate). destruct Hin.
    + exists name. split; [reflexivity|].
      unfold Fs.rel in *. simpl in *. rewrite slashes_no_slash in Hin; auto.
    + unfold Fs.rel in Hs.
      change (concat "/" (name :: n2 :: rest))
        with (name ++ String "/" (concat "/" (n2 :: rest))) in Hs.
      rewrite has_slash_slashes_sep in Hs. discriminate.
  - intros [name [-> Hin]]. simpl in Hin.
    repeat (destruct Hin as [Hin|Hin]; [subst name; reflexivity|]). destruct Hin.
Qed.

(** ** Objects *)

Lemma update_get_same (k v : string) :
  forall o o', JsObject.update k v o = Some o' -> JsObject.get k o' = Some v.
Proof.
  induction o as [|[k0 v0] o IH]; simpl; intros o' H; [discriminate|].
  destruct (k0 =? k) eqn:E.
  - inversion H; subst. simpl. rewrite E. reflexivity.
  - destruct (JsObject.update k v o) eqn:U; inversion H; subst.
    simpl. rewrite E. eauto.
Qed.

Lemma update_get_other (k v k' : string) :
  k' <> k ->
  forall o o', JsObject.update k v o = Some o' ->
               JsObject.get k' o' = JsObject.get k' o.
Proof.
  intros Hk. induction o as [|[k0 v0] o IH]; simpl; intros o' H; [discriminate|].
  destruct (k0 =? k) eqn:E.
  - inversion H; subst. simpl. apply String.eqb_eq in E. subst k0.
    destruct (k =? k') eqn:E2; [apply String.eqb_eq in E2; congruence | reflexivity].
  - destruct (JsObject.update k v o) eqn:U; inversion H; subst.
    simpl. destruct (k0 =? k'); eauto.
Qed.

Lemma get_app_new (k v k' : string) (o : JsObject.t) :
  JsObject.get k' (o ++ [(k, v)])%list =
  match JsObject.get k' o with
  | Some x => Some x
  | None => if k =? k' then Some v else None
  end.
Proof.
  induction o as [|[k0 v0] o IH]; simpl; [reflexivity|].
  destruct (k0 =? k'); auto.
Qed.

Lemma update_none (k v : string) :
  forall o, JsObject.update k v o = None -> JsObject.get k o = None.
Proof.
  induction o as [|[k0 v0] o IH]; simpl; intros H; [reflexivity|].
  destruct (k0 =? k); [discriminate|].
  destruct (JsObject.update k v o); [discriminate | auto].
Qed.

Lemma get_set_same (k v : string) (o : JsObject.t) :
  k <> "__proto__" -> JsObject.get k (JsObject.set k v o) = Some v.
Proof.
  intros Hk. unfold JsObject.set.
  destruct (k =? "__proto__") eqn:E; [apply String.eqb_eq in E; congruence|].
  destruct (JsObject.update k v o) eqn:U.
  - eapply update_get_same; eauto.
  - rewrite get_app_new, (update_none _ _ _ U), String.eqb_refl. reflexivity.
Qed.

Lemma get_set_other (k v k' : string) (o : JsObject.t) :
  k' <> k -> JsObject.get k' (JsObject.set k v o) = JsObject.get k' o.
Proof.
  intros Hk. unfold JsObject.set.
  destruct (k =? "__proto__"); [reflexivity|].
  destruct (JsObject.update k v o) eqn:U.
  - eapply update_get_other; eauto.
  - rewrite get_app_new. destruct (JsObject.get k' o); [reflexivity|].
    destruct (k =? k') eqn:E; [apply String.eqb_eq in E; congruence | reflexivity].
Qed.

Lemma get_some_iff_key (k : string) (o : JsObject.t) :
  JsObject.get k o <> None <-> In k (map fst o).
Proof.
  induction o as [|[k0 v0] o IH]; simpl; [tauto|].
  destruct (k0 =? k) eqn:E.
  - apply String.eqb_eq in E. split; [auto | discriminate].
  - apply String.eqb_neq in E. rewrite IH. tauto.
Qed.

Lemma in_insert_index (x : N * string) (n : N) (k : string) l :
  In x (JsObject.insert_index n k l) <-> x = (n, k) \/ In x l.
Proof.
  induction l as [|[m k'] l IH]; simpl; [intuition congruence|].
  destruct (n <=? m)%N; simpl; [intuition congruence|].
  rewrite IH. intuition congruence.
Qed.

Lemma in_index_keys (k : string) (o : JsObject.t) :
  In k (map snd (JsObject.index_keys o)) <->
  In k (map fst o) /\ JsObject.array_index k <> None.
Proof.
  induction o as [|[k0 v0] o IH]; simpl; [tauto|].
  destruct (JsObject.array_index k0) as [n|] eqn:E.
  - rewrite in_map_iff. split.
    + intros [[m x] [Hx Hin]]. simpl in Hx. subst x.
      apply in_insert_index in Hin. destruct Hin as [Hin|Hin].
      * inversion Hin; subst. split; [auto | congruence].
      * assert (H : In k (map snd (JsObject.index_keys o)))
          by (apply in_map_iff; exists (m, k); auto).
        apply IH in H. tauto.
    + intros [[->|Hin] Hk].
      * exists (n, k). split; [reflexivity|]. apply in_insert_index. auto.
      * assert (H : In k (map snd (JsObject.index_keys o))) by (apply IH; auto).
        apply in_map_iff in H. destruct H as [[m x] [Hx H]]. simpl in Hx. subst x.
        exists (m, k). split; [reflexivity|]. apply in_insert_index. auto.
  - rewrite IH. split; [tauto|]. intros [[->|Hin] Hk]; [congruence | tauto].
Qed.

Lemma in_name_keys (k : string) (o : JsObject.t) :
  In k (JsObject.name_keys o) <->
  In k (map fst o) /\ JsObject.array_index k = None.
Proof.
  induction o as [|[k0 v0] o IH]; simpl; [tauto|].
  destruct (JsObject.array_index k0) as [n|] eqn:E; simpl; rewrite IH.
  - split; [tauto|]. intros [[->|Hin] Hk]; [congruence | tauto].
  - split; [intros [->|H]; tauto | tauto].
Qed.

(** [Object.keys] lists the own properties, each of them. *)
Lemma in_keys_iff (k : string) (o : JsObject.t) :
  In k (JsObject.keys o) <-> JsObject.get k o <> None.
Proof.
  unfold JsObject.keys. rewrite in_app_iff, in_index_keys, in_name_keys,
    get_some_iff_key.
  destruct (JsObject.array_index k); intuition congruence.
Qed.

(** ** The manifest text *)

Lemma escape_plain (s : string) : Spec.plain s = true -> Json.escape s = s.
Proof.
  unfold Spec.plain. induction s as [|c s IH]; simpl; [reflexivity|].
  intros H. apply andb_true_iff in H. destruct H as [Hc Hs].
  rewrite (IH Hs). unfold Json.escape_char, Spec.plain_char in *.
  apply andb_true_iff in Hc. destruct Hc as [Hc H92].
  apply andb_true_iff in Hc. destruct Hc as [H32 H34].
  apply negb_true_iff in H34, H92. apply N.leb_le in H32.
  rewrite H34, H92.
  repeat match goal with
         | |- context [(N_of_ascii c =? ?k)%N] =>
             let Q := fresh "Q" in
             destruct (N_of_ascii c =? k)%N eqn:Q;
             [apply N.eqb_eq in Q; lia | clear Q]
         end.
  destruct (N_of_ascii c <? 32)%N eqn:E; [apply N.ltb_lt in E; lia|].
  reflexivity.
Qed.

(** A string without a character to escape is written between two double
    quotes as it is. *)
Lemma quote_plain (s : string) :
  Spec.plain s = true -> Json.quote s = Text.dq ++ s ++ Text.dq.
Proof. intros H. unfold Json.quote, Json.dquote. rewrite escape_plain; auto. Qed.

Lemma concat_holds (sep x : string) (l : list string) :
  In x l -> exists a b, concat sep l = a ++ x ++ b.
Proof.
  induction l as [|y l IH]; intros H; [destruct H|].
  destruct H as [->|H].
  - destruct l as [|z l].
    + exists "", "". simpl. rewrite append_nil_r. reflexivity.
    + exists "", (sep ++ concat sep (z :: l)). reflexivity.
  - destruct (IH H) as (a & b & E). destruct l as [|z l]; [destruct H|].
    exists (y ++ sep ++ a), b.
    change (concat sep (y :: z :: l)) with (y ++ sep ++ concat sep (z :: l)).
    rewrite E, !append_assoc. reflexivity.
Qed.

Lemma stringify_object (indent : string) (p : string * Json.value) ps :
  Json.stringify_at indent (Json.Obj (p :: ps)) =
  "{" ++ Text.nl ++
  concat ("," ++ Text.nl)
    (map (fun kv => (indent ++ "  ") ++ Json.quote (fst kv) ++ ": " ++
                    Json.stringify_at (indent ++ "  ") (snd kv)) (p :: ps)) ++
  Text.nl ++ indent ++ "}".
Proof.
  cbn [Json.stringify_at]. unfold Json.newline. do 2 f_equal.
  f_equal. f_equal. apply map_ext. intros [k x]. reflexivity.
Qed.

Ltac flatten :=
  unfold Text.dq, Text.nl;
  repeat first [rewrite append_assoc | progress cbn [append]].

Lemma stringify_files (indent : string) (o : JsObject.t) :
  Json.stringify_at indent (Json.of_object o) =
  match JsObject.keys o with
  | [] => "{}"
  | keys =>
      "{" ++ Text.nl ++
      concat ("," ++ Text.nl)
        (map (fun k => (indent ++ "  ") ++ Json.quote k ++ ": " ++
                       Json.quote (JsObject.value_of o k)) keys) ++
      Text.nl ++ indent ++ "}"
  end.
Proof.
  unfold Json.of_object, JsObject.entries.
  destruct (JsObject.keys o) as [|k ks]; [reflexivity|].
  cbn [map]. rewrite stringify_object.
  cbn [map fst snd Json.stringify_at]. rewrite !map_map.
  do 2 apply (f_equal (append _)). apply (f_equal (fun l => _ l ++ _)).
  apply (f_equal (cons _)). apply map_ext. intros x. reflexivity.
Qed.

(** What [JSON.stringify (manifest, null, 2)] gives is the manifest text of
    the specification. *)
Lemma manifest_json_text (rootCid : string) (fileCids : JsObject.t) :
  Core.manifest_json rootCid fileCids = Spec.manifest_text rootCid fileCids.
Proof.
  assert (Two : forall sep a b : string, concat sep [a; b] = a ++ sep ++ b)
    by reflexivity.
  unfold Core.manifest_json, Json.stringify. rewrite stringify_object.
  cbn [map fst snd]. rewrite Two, stringify_files. clear Two.
  change (Json.quote "root") with (Text.dq ++ "root" ++ Text.dq).
  change (Json.quote "files") with (Text.dq ++ "files" ++ Text.dq).
  change (Json.stringify_at ("" ++ "  ") (Json.Str rootCid)) with (Json.quote rootCid).
  unfold Spec.manifest_text, Spec.manifest_head.
  destruct (JsObject.keys fileCids) as [|k ks].
  - flatten. reflexivity.
  - change (fun k0 : string =>
              (("" ++ "  ") ++ "  ") ++ Json.quote k0 ++ ": " ++
              Json.quote (JsObject.value_of fileCids k0))
      with (fun k0 => Spec.manifest_line k0 (JsObject.value_of fileCids k0)).
    cbn [map].
    match goal with
    | |- context [concat ?sep ?l] => set (lines := concat sep l)
    end.
    clearbody lines.
    flatten. reflexivity.
Qed.

Lemma manifest_text_head (rootCid : string) (fileCids : JsObject.t) :
  Text.starts_with (Spec.manifest_head rootCid)
    (Spec.manifest_text rootCid fileCids) = true.
Proof. apply starts_with_app. Qed.

Lemma manifest_text_line (rootCid k : string) (fileCids : JsObject.t) :
  In k (JsObject.keys fileCids) ->
  Text.includes (Spec.manifest_line k (JsObject.value_of fileCids k))
    (Spec.manifest_text rootCid fileCids) = true.
Proof.
  intros H. unfold Spec.manifest_text.
  destruct (JsObject.keys fileCids) as [|k0 ks] eqn:K; [destruct H|].
  destruct (concat_holds ("," ++ Text.nl)
              (Spec.manifest_line k (JsObject.value_of fileCids k))
              (map (fun k => Spec.manifest_line k (JsObject.value_of fileCids k))
                 (k0 :: ks)))
    as (a & b & E).
  { apply in_map_iff. exists k. auto. }
  rewrite E.
  replace (Spec.manifest_head rootCid ++
           (Text.nl ++ (a ++ _ ++ b) ++ Text.nl ++ "  }") ++ Text.nl ++ "}")
    with ((Spec.manifest_head rootCid ++ Text.nl ++ a) ++
          Spec.manifest_line k (JsObject.value_of fileCids k) ++
          (b ++ Text.nl ++ "  }" ++ Text.nl ++ "}"))
    by (rewrite !append_assoc; reflexivity).
  apply includes_app.
Qed.

(** The head and a line of the manifest, letter by letter, for a root, a
    path and a CID without a character to escape. *)
Lemma manifest_letters (rootCid k v : string) :
  (Spec.plain rootCid = true ->
   Spec.manifest_head rootCid =
   "{" ++ Text.nl ++ "  " ++ Text.dq ++ "root" ++ Text.dq ++ ": " ++
   Text.dq ++ rootCid ++ Text.dq ++ "," ++ Text.nl ++
   "  " ++ Text.dq ++ "files" ++ Text.dq ++ ": {") /\
  (Spec.plain k = true -> Spec.plain v = true ->
   Spec.manifest_line k v =
   "    " ++ Text.dq ++ k ++ Text.dq ++ ": " ++ Text.dq ++ v ++ Text.dq).
Proof.
  split.
  - intros H. unfold Spec.manifest_head. rewrite (quote_plain _ H).
    rewrite !append_assoc. reflexivity.
  - intros Hk Hv. unfold Spec.manifest_line.
    rewrite (quote_plain _ Hk), (quote_plain _ Hv), !append_assoc. reflexivity.
Qed.

(** ** The loop over the importer's records *)

Lemma find_app_last {A : Type} (f : A -> bool) (l : list A) (x : A) :
  List.find f (l ++ [x]) =
  match List.find f l with
  | Some y => Some y
  | None => if f x then Some x else None
  end.
Proof.
  induction l as [|y l IH]; simpl; [reflexivity|].
  destruct (f y); auto.
Qed.

Lemma last_root_cons (e : Core.Entry) es :
  Spec.last_root (e :: es) =
  match Spec.last_root es with
  | Some c => Some c
  | None => if Spec.is_root e then Some (Core.cid e) else None
  end.
Proof.
  unfold Spec.last_root. simpl. rewrite find_app_last.
  destruct (List.find Spec.is_root (rev es)); simpl; [reflexivity|].
  destruct (Spec.is_root e); reflexivity.
Qed.

Lemma last_cid_cons (p : string) (e : Core.Entry) es :
  Spec.last_cid p (e :: es) =
  match Spec.last_cid p es with
  | Some c => Some c
  | None =>
      match Core.path e with
      | Some q => if q =? p then Some (Core.cid e) else None
      | None => None
      end
  end.
Proof.
  unfold Spec.last_cid. simpl. rewrite find_app_last.
  destruct (List.find _ (rev es)); simpl; [reflexivity|].
  destruct (Core.path e) as [q|]; [destruct (q =? p)|]; reflexivity.
Qed.

Lemma record_fold_root es :
  forall acc,
    fst (fold_left Core.record_entry es acc) =
    match Spec.last_root es with Some c => Some c | None => fst acc end.
Proof.
  induction es as [|e es IH]; intros acc; [reflexivity|].
  simpl fold_left. rewrite IH, last_root_cons.
  destruct (Spec.last_root es); [reflexivity|].
  unfold Core.record_entry, Spec.is_root. destruct acc as [r f].
  destruct (Core.path e) as [q|]; [destruct (q =? "")|]; reflexivity.
Qed.

Lemma record_fold_get (p : string) es :
  p <> "" -> p <> "__proto__" ->
  forall acc,
    JsObject.get p (snd (fold_left Core.record_entry es acc)) =
    match Spec.last_cid p es with
    | Some c => Some c
    | None => JsObject.get p (snd acc)
    end.
Proof.
  intros Hp Hq. induction es as [|e es IH]; intros acc; [reflexivity|].
  simpl fold_left. rewrite IH, last_cid_cons.
  destruct (Spec.last_cid p es); [reflexivity|].
  unfold Core.record_entry. destruct acc as [r f].
  destruct (Core.path e) as [q|]; [|reflexivity].
  destruct (q =? "") eqn:E0.
  - apply String.eqb_eq in E0. subst q.
    destruct ("" =? p) eqn:E; [apply String.eqb_eq in E; congruence | reflexivity].
  - simpl. destruct (q =? p) eqn:E.
    + apply String.eqb_eq in E. subst q. apply get_set_same. exact Hq.
    + apply String.eqb_neq in E. apply get_set_other. congruence.
Qed.

Lemma record_entries_root es :
  fst (Core.record_entries es) = Spec.last_root es.
Proof.
  unfold Core.record_entries. rewrite record_fold_root.
  destruct (Spec.last_root es); reflexivity.
Qed.

Lemma record_entries_get (p : string) es :
  p <> "" -> p <> "__proto__" ->
  JsObject.get p (snd (Core.record_entries es)) = Spec.last_cid p es.
Proof.
  intros Hp Hq. unfold Core.record_entries. rewrite record_fold_get by assumption.
  destruct (Spec.last_cid p es); reflexivity.
Qed.

Lemma last_cid_some_of_yielded (p : string) es :
  (exists e, In e es /\ Core.path e = Some p) ->
  exists c, Spec.last_cid p es = Some c.
Proof.
  intros [e [Hin Hp]]. unfold Spec.last_cid.
  destruct (List.find _ (rev es)) as [x|] eqn:F; [simpl; eauto|].
  assert (Hr : In e (rev es)) by (apply in_rev; rewrite rev_involutive; exact Hin).
  pose proof (find_none _ _ F e Hr) as H. simpl in H.
  rewrite Hp, String.eqb_refl in H. discriminate.
Qed.

(** ** What a run of the packer does *)

Arguments Fs.write : simpl never.
Arguments Fs.read : simpl never.

(** The write stream: it returns, it touches its own path only, and once
    finished it has left its data there, when the path can be written. *)
Lemma substring_all (s : string) : substring 0 (length s) s = s.
Proof. induction s as [|c s IH]; simpl; [reflexivity | rewrite IH; reflexivity]. Qed.

Lemma stream_returns flushed (p : Fs.path) (d : string) fs :
  Core.createWriteStream flushed p d fs =
  (fst (Core.createWriteStream flushed p d fs), Core.Returned tt).
Proof.
  unfold Core.createWriteStream. destruct flushed as [n|]; [|reflexivity].
  destruct (Fs.write p (substring 0 n d) fs); reflexivity.
Qed.

Lemma stream_read_other flushed (p : Fs.path) (d : string) (q : Fs.path) fs :
  q <> p -> Fs.read q (fst (Core.createWriteStream flushed p d fs)) = Fs.read q fs.
Proof.
  intros N. unfold Core.createWriteStream. destruct flushed as [n|]; [|reflexivity].
  destruct (Fs.write p (substring 0 n d) fs) eqn:W; [|reflexivity].
  apply (write_read_other _ _ q _ _ W N).
Qed.

Lemma stream_is_dir flushed (p : Fs.path) (d : string) fs :
  Fs.is_dir (fst (Core.createWriteStream flushed p d fs)) = Fs.is_dir fs.
Proof.
  unfold Core.createWriteStream. destruct flushed as [n|]; [|reflexivity].
  destruct (Fs.write p (substring 0 n d) fs) eqn:W; [|reflexivity].
  apply (write_is_dir _ _ _ _ W).
Qed.

Lemma stream_read_same (n : nat) (p : Fs.path) (d : string) fs fs1 :
  Fs.write p (substring 0 n d) fs = Some fs1 ->
  Fs.read p (fst (Core.createWriteStream (Some n) p d fs)) =
  Some (substring 0 n d).
Proof.
  intros W. unfold Core.createWriteStream. rewrite W.
  apply (write_read_same _ _ _ _ W).
Qed.

Lemma stream_finished_read (p : Fs.path) (d : string) fs fs1 :
  Fs.write p d fs = Some fs1 -> Fs.read p (Core.stream_finished p d fs) = Some d.
Proof.
  intros W. unfold Core.stream_finished.
  rewrite <- (substring_all d) in W.
  rewrite (stream_read_same _ _ _ _ _ W). rewrite substring_all. reflexivity.
Qed.

Lemma stream_finished_other (p : Fs.path) (d : string) (q : Fs.path) fs :
  q <> p -> Fs.read q (Core.stream_finished p d fs) = Fs.read q fs.
Proof. apply stream_read_other. Qed.

Section Packing.

Import Core.

Variable importer : list (string * string) -> Import.
Variable car_bytes : list string -> list (string * string) -> string.

Let pack := packDirectoryToCar importer car_bytes.
Let compute := computeDirectoryManifest importer.

Lemma pack_returned flushed env cp mp fs fs' r :
  pack flushed env cp mp fs = (fs', Returned r) ->
  let imp := importer (walk [] fs) in
  Fs.is_dir fs = true /\
  Spec.last_root (yielded imp) = Some (rootCid r) /\
  rootCid r <> "" /\
  fileCids r = snd (record_entries (yielded imp)) /\
  carPath r = cp /\ manifestPath r = mp /\
  exists fs1 fs2,
    fs1 = fst (createWriteStream flushed cp
                 (car_of importer car_bytes (walk [] fs) (rootCid r)) fs) /\
    Fs.write mp (manifest_json (rootCid r) (fileCids r)) fs1 = Some fs2 /\
    if truthy (IPFS_PACK_DEBUG env)
    then Fs.write debugPath
           (Json.stringify
              (pack_debugPayload (rootCid r) (fileCids r)
                 (List.length (MemoryBlockstore.blocks (fill_blockstore (puts imp))))
                 (map debug_entry (yielded imp)))) fs2 = Some fs'
    else fs' = fs2.
Proof.
  intros H imp.
  unfold pack, packDirectoryToCar, bind, collect_files in H. unfold car_of.
  destruct (Fs.is_dir fs) eqn:D; [|discriminate].
  fold imp in H |- *. rewrite <- record_entries_root.
  destruct (record_entries (yielded imp)) as [[rootStr|] files]; [|discriminate].
  destruct (rootStr =? "") eqn:E; [discriminate|]. apply String.eqb_neq in E.
  rewrite stream_returns in H.
  unfold writeFileSync, ret in H.
  destruct (Fs.write mp _ _) as [fs2|] eqn:W2; [|discriminate].
  destruct (truthy (IPFS_PACK_DEBUG env)) eqn:Dbg.
  - destruct (Fs.write debugPath _ fs2) as [fs3|] eqn:W3; [|discriminate].
    inversion H; subst; simpl. repeat split; auto.
    eexists. exists fs2. repeat split; eauto.
  - inversion H; subst; simpl. repeat split; auto.
    eexists. exists fs'. repeat split; eauto.
Qed.

Lemma has_iff_in (r : string) (set : list string) :
  has r set = true <-> In r set.
Proof.
  unfold has. rewrite existsb_exists. split.
  - intros [x [Hin E]]. apply String.eqb_eq in E. subst. exact Hin.
  - intros Hin. exists r. split; [exact Hin | apply String.eqb_refl].
Qed.

Lemma nested_rel_has_slash (p : Fs.path) :
  2 <= List.length p -> Spec.has_slash (Fs.rel p) = true.
Proof.
  destruct p as [|n1 [|n2 rest]]; simpl; try lia. intros _.
  unfold Fs.rel.
  change (concat "/" (n1 :: n2 :: rest))
    with (n1 ++ String "/" (concat "/" (n2 :: rest))).
  apply has_slash_slashes_sep.
Qed.

Lemma manifest_after_pack flushed env cp mp fs fs' r :
  pack flushed env cp mp fs = (fs', Returned r) ->
  (truthy (IPFS_PACK_DEBUG env) = true -> mp <> debugPath) ->
  Fs.read mp fs' = Some (Spec.manifest_text (rootCid r) (fileCids r)).
Proof.
  intros H Hd. apply pack_returned in H. cbv zeta in H.
  destruct H as (_ & _ & _ & _ & _ & _ & f1 & f2 & _ & W2 & W3).
  rewrite <- manifest_json_text.
  pose proof (write_read_same _ _ _ _ W2) as R2.
  destruct (truthy (IPFS_PACK_DEBUG env)); [|subst; exact R2].
  rewrite (write_read_other _ _ mp _ _ W3 (Hd eq_refl)). exact R2.
Qed.

(** C3.  Root-only exclusion.  A regular file below the output directory
    is left out of the file set exactly when its relative path is one of
    [bundle.car], [ipfs-manifest.json] and [ipfs-debug.json], which is the
    case exactly when it lies at the root under one of these names.  A file
    inside a subdirectory is therefore always in the file set, whatever its
    name; and when the importer yields a record for it, its path is a key of
    the [fileCids] the run returns, with the CID of its last record, and the
    manifest the run has written holds the line of that path and that CID,
    which reads [    "path": "cid"] when neither needs an escape. *)
Theorem walker_excludes_exactly_root_artifacts :
  forall fs p data,
    Fs.is_dir fs = true ->
    Spec.file_at p data fs ->
    (In (Fs.rel p, data) (walk [] fs) <-> ~ In (Fs.rel p) excludedAtRoot) /\
    (In (Fs.rel p) excludedAtRoot <->
     exists name, p = [name] /\ In name excludedAtRoot) /\
    (2 <= List.length p -> In (Fs.rel p, data) (walk [] fs)) /\
    (forall flushed env cp mp fs' r,
        2 <= List.length p ->
        pack flushed env cp mp fs = (fs', Returned r) ->
        (exists e, In e (yielded (importer (walk [] fs))) /\
                   path e = Some (Fs.rel p)) ->
        exists c,
          Spec.last_cid (Fs.rel p) (yielded (importer (walk [] fs))) = Some c /\
          In (Fs.rel p) (JsObject.keys (fileCids r)) /\
          JsObject.get (Fs.rel p) (fileCids r) = Some c /\
          ((truthy (IPFS_PACK_DEBUG env) = true -> mp <> debugPath) ->
           Fs.read mp fs' = Some (Spec.manifest_text (rootCid r) (fileCids r)) /\
           Text.includes (Spec.manifest_line (Fs.rel p) c)
             (Spec.manifest_text (rootCid r) (fileCids r)) = true) /\
          (Spec.plain (Fs.rel p) = true -> Spec.plain c = true ->
           Spec.manifest_line (Fs.rel p) c =
           "    " ++ Text.dq ++ Fs.rel p ++ Text.dq ++ ": " ++
           Text.dq ++ c ++ Text.dq)).
Proof.
  intros fs p data Hd Hf.
  assert (Hp : p <> []).
  { intros ->. simpl in Hf. subst fs. discriminate. }
  assert (Iff : In (Fs.rel p, data) (walk [] fs) <-> ~ In (Fs.rel p) excludedAtRoot).
  { rewrite <- has_iff_in. split.
    - intros H C. apply walk_sound in H. destruct H as [E _].
      rewrite E in C. discriminate.
    - intros H. apply (walk_complete p data fs []); auto. simpl.
      destruct (has (Fs.rel p) excludedAtRoot); [exfalso; apply H|]; reflexivity. }
  assert (Root : In (Fs.rel p) excludedAtRoot <->
                 exists name, p = [name] /\ In name excludedAtRoot).
  { rewrite <- has_iff_in. apply excluded_iff_root_artifact. }
  assert (Nested : 2 <= List.length p -> In (Fs.rel p, data) (walk [] fs)).
  { intros L. apply Iff. intros H. apply Root in H.
    destruct H as [name [-> _]]. simpl in L. lia. }
  split; [exact Iff|]. split; [exact Root|]. split; [exact Nested|].
  intros flushed env cp mp fs' r L H [e [Hin He]].
  pose proof (nested_rel_has_slash p L) as S.
  assert (N1 : Fs.rel p <> "") by (intros E; rewrite E in S; discriminate).
  assert (N2 : Fs.rel p <> "__proto__") by (intros E; rewrite E in S; discriminate).
  destruct (last_cid_some_of_yielded (Fs.rel p) _ (ex_intro _ e (conj Hin He)))
    as [c Hc].
  pose proof H as H0. apply pack_returned in H0. cbv zeta in H0.
  destruct H0 as (_ & _ & _ & Hfiles & _).
  assert (G : JsObject.get (Fs.rel p) (fileCids r) = Some c).
  { rewrite Hfiles, record_entries_get by assumption. exact Hc. }
  exists c. split; [exact Hc|]. split; [apply in_keys_iff; congruence|].
  split; [exact G|]. split.
  - intros Hdbg. split; [apply (manifest_after_pack _ _ _ _ _ _ _ H Hdbg)|].
    replace c with (JsObject.value_of (fileCids r) (Fs.rel p))
      by (unfold JsObject.value_of; rewrite G; reflexivity).
    apply manifest_text_line. apply in_keys_iff. congruence.
  - intros Pk Pc. apply (proj2 (manifest_letters "" _ _) Pk Pc).
Qed.

Lemma store_get_put (k v k' : string) (m : MemoryBlockstore.t) :
  MemoryBlockstore.get k' (MemoryBlockstore.put k v m) =
  if k =? k' then Some v else MemoryBlockstore.get k' m.
Proof.
  induction m as [|[k0 v0] m IH]; simpl; [reflexivity|].
  destruct (k0 =? k) eqn:E; simpl.
  - apply String.eqb_eq in E. subst k0. destruct (k =? k'); reflexivity.
  - rewrite IH. destruct (k0 =? k') eqn:E2; [|reflexivity].
    apply String.eqb_eq in E2. subst k0. rewrite String.eqb_sym, E. reflexivity.
Qed.

Lemma store_key_iff (k : string) (m : MemoryBlockstore.t) :
  In k (map fst m) <-> MemoryBlockstore.get k m <> None.
Proof. symmetry. apply (get_some_iff_key k m). Qed.

Lemma store_put_keys (k v : string) (m : MemoryBlockstore.t) :
  NoDup (map fst m) -> NoDup (map fst (MemoryBlockstore.put k v m)).
Proof.
  induction m as [|[k0 v0] m IH]; simpl; intros H.
  - constructor; [intros [] | constructor].
  - inversion H as [|? ? Hn Hd]; subst.
    destruct (k0 =? k) eqn:E; simpl; constructor; auto.
    rewrite store_key_iff, store_get_put.
    rewrite String.eqb_sym, E. rewrite <- store_key_iff. exact Hn.
Qed.

Lemma store_in_iff (k v : string) (m : MemoryBlockstore.t) :
  NoDup (map fst m) ->
  (In (k, v) m <-> MemoryBlockstore.get k m = Some v).
Proof.
  induction m as [|[k0 v0] m IH]; simpl; intros H.
  - split; [intros [] | discriminate].
  - inversion H as [|? ? Hn Hd]; subst.
    destruct (k0 =? k) eqn:E.
    + apply String.eqb_eq in E. subst k0. split.
      * intros [Heq|Hin]; [congruence|].
        exfalso. apply Hn. apply in_map_iff. exists (k, v). auto.
      * intros Heq. left. congruence.
    + apply String.eqb_neq in E. rewrite <- (IH Hd). split.
      * intros [Heq|Hin]; [congruence | exact Hin].
      * auto.
Qed.

Lemma store_count (k : string) (m : MemoryBlockstore.t) :
  NoDup (map fst m) ->
  Spec.count_cid k m = if MemoryBlockstore.has k m then 1 else 0.
Proof.
  unfold Spec.count_cid, MemoryBlockstore.has.
  induction m as [|[k0 v0] m IH]; simpl; intros H; [reflexivity|].
  inversion H as [|? ? Hn Hd]; subst.
  destruct (k0 =? k) eqn:E; simpl.
  - apply String.eqb_eq in E. subst k0. rewrite (IH Hd).
    destruct (MemoryBlockstore.get k m) eqn:G; [|reflexivity].
    exfalso. apply Hn. apply store_key_iff. congruence.
  - auto.
Qed.

Lemma fill_from_keys ps :
  forall m, NoDup (map fst m) ->
    NoDup (map fst (fold_left
                      (fun m kv => MemoryBlockstore.put (fst kv) (snd kv) m) ps m)).
Proof.
  induction ps as [|[k v] ps IH]; intros m H; simpl; [exact H|].
  apply IH. apply store_put_keys. exact H.
Qed.

Lemma fill_from_get (k : string) ps :
  forall m,
    MemoryBlockstore.get k
      (fold_left (fun m kv => MemoryBlockstore.put (fst kv) (snd kv) m) ps m) =
    match Spec.last_put k ps with
    | Some v => Some v
    | None => MemoryBlockstore.get k m
    end.
Proof.
  induction ps as [|[k0 v0] ps IH]; intros m; [reflexivity|].
  simpl fold_left. rewrite IH. unfold Spec.last_put. simpl rev.
  rewrite find_app_last.
  destruct (List.find _ (rev ps)); simpl; [reflexivity|].
  rewrite store_get_put. destruct (k0 =? k); reflexivity.
Qed.

Lemma fill_blockstore_keys ps : NoDup (map fst (fill_blockstore ps)).
Proof. apply fill_from_keys. constructor. Qed.

Lemma fill_blockstore_get (k : string) ps :
  MemoryBlockstore.get k (fill_blockstore ps) = Spec.last_put k ps.
Proof.
  unfold fill_blockstore. rewrite fill_from_get.
  destruct (Spec.last_put k ps); reflexivity.
Qed.

Lemma last_put_some (k : string) ps :
  In k (map fst ps) -> Spec.last_put k ps <> None.
Proof.
  intros H. apply in_map_iff in H. destruct H as [[k0 v] [E Hin]]. simpl in E. subst k0.
  unfold Spec.last_put.
  destruct (List.find _ (rev ps)) as [x|] eqn:F; [discriminate|].
  assert (Hr : In (k, v) (rev ps)) by (apply in_rev; rewrite rev_involutive; exact Hin).
  pose proof (find_none _ _ F _ Hr) as C. simpl in C.
  rewrite String.eqb_refl in C. discriminate.
Qed.

(** C9.  CAR writer block accounting.  In a run that returns, the chunks
    handed to the write stream of [carPath] are the ones [CarWriter] produced
    for one root, the root CID the run returns (the CID of the wrapper
    record), and for the blocks of the store.  The run does not wait for the
    stream: at its return the path holds the part of these bytes the stream
    has carried out, or is as it was when the stream has done nothing yet or
    cannot write; once the stream has finished on a path it can write, the
    path holds all of them.  Every CID of the store is carried by exactly one
    block, with the bytes the store holds for it, no other CID by any, and
    every CID the importer put is in the store. *)
Theorem car_holds_each_block_once :
  forall flushed env cp mp fs fs' r,
    pack flushed env cp mp fs = (fs', Returned r) ->
    let imp := importer (walk [] fs) in
    let store := fill_blockstore (puts imp) in
    let blocks := MemoryBlockstore.blocks store in
    let car := car_bytes [rootCid r] blocks in
    (cp <> mp ->
     (truthy (IPFS_PACK_DEBUG env) = true -> cp <> debugPath) ->
     Fs.read cp fs' = Fs.read cp (fst (createWriteStream flushed cp car fs)) /\
     (forall n fs1, flushed = Some n ->
                    Fs.write cp (substring 0 n car) fs = Some fs1 ->
                    Fs.read cp fs' = Some (substring 0 n car)) /\
     (flushed = None -> Fs.read cp fs' = Fs.read cp fs) /\
     (forall fs1, Fs.write cp car fs' = Some fs1 ->
                  Fs.read cp (stream_finished cp car fs') = Some car)) /\
    Spec.last_root (yielded imp) = Some (rootCid r) /\
    (forall k, Spec.count_cid k blocks =
               if MemoryBlockstore.has k store then 1 else 0) /\
    (forall k v, In (k, v) blocks <-> MemoryBlockstore.get k store = Some v) /\
    (forall k, MemoryBlockstore.get k store = Spec.last_put k (puts imp)) /\
    (forall k, In k (map fst (puts imp)) -> MemoryBlockstore.has k store = true).
Proof.
  intros flushed env cp mp fs fs' r H imp store blocks car.
  apply pack_returned in H. cbv zeta in H.
  destruct H as (_ & Hroot & _ & _ & _ & _ & fs1 & fs2 & S1 & W2 & W3).
  split; [|split; [exact Hroot|]].
  - intros Hmp Hdbg.
    assert (R : Fs.read cp fs' = Fs.read cp fs1).
    { transitivity (Fs.read cp fs2).
      - destruct (truthy (IPFS_PACK_DEBUG env)); [|subst fs'; reflexivity].
        apply (write_read_other _ _ cp _ _ W3 (Hdbg eq_refl)).
      - apply (write_read_other _ _ cp _ _ W2 Hmp). }
    unfold car_of in S1. fold imp store blocks car in S1.
    split; [rewrite R, S1; reflexivity|]. split; [|split].
    + intros n f1 -> W. rewrite R, S1. apply (stream_read_same _ _ _ _ _ W).
    + intros ->. rewrite R, S1. reflexivity.
    + intros f1 W. apply (stream_finished_read _ _ _ _ W).
  - repeat split.
    + intros k. apply store_count. apply fill_blockstore_keys.
    + apply store_in_iff. apply fill_blockstore_keys.
    + apply store_in_iff. apply fill_blockstore_keys.
    + intros k. apply fill_blockstore_get.
    + intros k Hin. unfold MemoryBlockstore.has. unfold store.
      rewrite fill_blockstore_get.
      pose proof (last_put_some k _ Hin) as N.
      destruct (Spec.last_put k (puts imp)); [reflexivity | congruence].
Qed.

Lemma compute_returned env mp fs fs' r :
  compute env mp fs = (fs', Returned r) ->
  let imp := importer (walk [] fs) in
  Fs.is_dir fs = true /\
  Spec.last_root (yielded imp) = Some (m_rootCid r) /\
  m_rootCid r <> "" /\
  m_fileCids r = snd (record_entries (yielded imp)) /\
  m_manifestPath r = mp /\
  exists fs2,
    Fs.write mp (manifest_json (m_rootCid r) (m_fileCids r)) fs = Some fs2 /\
    if truthy (IPFS_PACK_DEBUG env)
    then Fs.write debugPath
           (Json.stringify
              (manifest_debugPayload (m_rootCid r) (m_fileCids r)
                 (map debug_entry (yielded imp)))) fs2 = Some fs'
    else fs' = fs2.
Proof.
  intros H imp.
  unfold compute, computeDirectoryManifest, bind, collect_files in H.
  destruct (Fs.is_dir fs) eqn:D; [|discriminate].
  fold imp in H |- *. rewrite <- record_entries_root.
  destruct (record_entries (yielded imp)) as [[rootStr|] files]; [|discriminate].
  destruct (rootStr =? "") eqn:E; [discriminate|]. apply String.eqb_neq in E.
  unfold writeFileSync, ret in H.
  destruct (Fs.write mp _ fs) as [fs2|] eqn:W2; [|discriminate].
  destruct (truthy (IPFS_PACK_DEBUG env)) eqn:Dbg.
  - destruct (Fs.write debugPath _ fs2) as [fs3|] eqn:W3; [|discriminate].
    inversion H; subst; simpl. repeat split; auto.
    exists fs2. repeat split; auto.
  - inversion H; subst; simpl. repeat split; auto.
    exists fs'. repeat split; auto.
Qed.

(** Both functions throw 'Failed to compute root CID' in the same case:
    the directory can be listed and the loop over the records leaves
    [rootCidStr] null or empty.  Nothing has been written then. *)
Lemma pack_throws_iff flushed env cp mp fs :
  snd (pack flushed env cp mp fs) = Thrown FailedToComputeRootCid <->
  Fs.is_dir fs = true /\
  (Spec.last_root (yielded (importer (walk [] fs))) = None \/
   Spec.last_root (yielded (importer (walk [] fs))) = Some "").
Proof.
  unfold pack, packDirectoryToCar, bind, collect_files.
  destruct (Fs.is_dir fs) eqn:D; simpl;
    [|split; [discriminate | intros [? _]; discriminate]].
  rewrite <- record_entries_root.
  destruct (record_entries (yielded (importer (walk [] fs)))) as [[rootStr|] files];
    simpl; [|split; auto].
  destruct (rootStr =? "") eqn:E; simpl.
  - apply String.eqb_eq in E. subst. split; auto.
  - apply String.eqb_neq in E. rewrite stream_returns. unfold writeFileSync, ret.
    split; [|intros [_ [?|?]]; congruence].
    destruct (Fs.write mp _ _) as [fs2|]; simpl; [|discriminate].
    destruct (truthy (IPFS_PACK_DEBUG env)); simpl; [|discriminate].
    destruct (Fs.write debugPath _ fs2); simpl; discriminate.
Qed.

Lemma compute_throws_iff env mp fs :
  snd (compute env mp fs) = Thrown FailedToComputeRootCid <->
  Fs.is_dir fs = true /\
  (Spec.last_root (yielded (importer (walk [] fs))) = None \/
   Spec.last_root (yielded (importer (walk [] fs))) = Some "").
Proof.
  unfold compute, computeDirectoryManifest, bind, collect_files.
  destruct (Fs.is_dir fs) eqn:D; simpl;
    [|split; [discriminate | intros [? _]; discriminate]].
  rewrite <- record_entries_root.
  destruct (record_entries (yielded (importer (walk [] fs)))) as [[rootStr|] files];
    simpl; [|split; auto].
  destruct (rootStr =? "") eqn:E; simpl.
  - apply String.eqb_eq in E. subst. split; auto.
  - apply String.eqb_neq in E. unfold writeFileSync, ret.
    split; [|intros [_ [?|?]]; congruence].
    destruct (Fs.write mp _ fs) as [fs2|]; simpl; [|discriminate].
    destruct (truthy (IPFS_PACK_DEBUG env)); simpl; [|discriminate].
    destruct (Fs.write debugPath _ fs2); simpl; discriminate.
Qed.

(** C8, as the code has it.  The run throws 'Failed to compute root CID'
    exactly when the output directory can be listed and the importer yields
    no record with an empty path, or the last such record has an empty CID;
    nothing has been written then.  The number of files the walker found
    plays no part: on an empty file set for which the importer still yields
    the wrapper record, the run does not throw that error. *)
Theorem pack_fails_exactly_without_root :
  forall flushed env cp mp fs,
    (snd (pack flushed env cp mp fs) = Thrown FailedToComputeRootCid <->
     Fs.is_dir fs = true /\
     (Spec.last_root (yielded (importer (walk [] fs))) = None \/
      Spec.last_root (yielded (importer (walk [] fs))) = Some "")) /\
    (snd (pack flushed env cp mp fs) = Thrown FailedToComputeRootCid ->
     fst (pack flushed env cp mp fs) = fs) /\
    (forall c, walk [] fs = [] ->
               Spec.last_root (yielded (importer [])) = Some c -> c <> "" ->
               snd (pack flushed env cp mp fs) <> Thrown FailedToComputeRootCid).
Proof.
  intros flushed env cp mp fs. split; [apply pack_throws_iff|]. split.
  - unfold pack, packDirectoryToCar, bind, collect_files.
    destruct (Fs.is_dir fs); simpl; [|reflexivity].
    destruct (record_entries (yielded (importer (walk [] fs)))) as [[rootStr|] files];
      simpl; [|reflexivity].
    destruct (rootStr =? ""); simpl; [reflexivity|].
    rewrite stream_returns. unfold writeFileSync, ret.
    destruct (Fs.write mp _ _) as [fs2|]; simpl; [|discriminate].
    destruct (truthy (IPFS_PACK_DEBUG env)); simpl; [|discriminate].
    destruct (Fs.write debugPath _ fs2); simpl; discriminate.
  - intros c Hw Hr Hc H. apply pack_throws_iff in H.
    rewrite Hw, Hr in H. destruct H as [_ [H|H]]; congruence.
Qed.

(** X16.  The two functions side by side.  On the same directory they throw
    'Failed to compute root CID' in the same case, and when both return they
    return the same root CID, the same [fileCids] and the same manifest
    path, and they leave the same data at every path other than the path of
    the CAR and, when debugging is on, [ipfs-debug.json]; the manifest path
    holds the same manifest text after both, when it is none of these
    paths. *)
Lemma compute_agrees_with_pack :
  forall flushed env cp mp fs,
    (snd (compute env mp fs) = Thrown FailedToComputeRootCid <->
     snd (pack flushed env cp mp fs) = Thrown FailedToComputeRootCid) /\
    (forall fsc rc fsp rp,
        compute env mp fs = (fsc, Returned rc) ->
        pack flushed env cp mp fs = (fsp, Returned rp) ->
        m_rootCid rc = rootCid rp /\
        m_fileCids rc = fileCids rp /\
        m_manifestPath rc = manifestPath rp /\
        (forall q, q <> cp ->
                   (truthy (IPFS_PACK_DEBUG env) = true -> q <> debugPath) ->
                   Fs.read q fsp = Fs.read q fsc) /\
        (mp <> cp ->
         (truthy (IPFS_PACK_DEBUG env) = true -> mp <> debugPath) ->
         Fs.read mp fsp = Some (manifest_json (rootCid rp) (fileCids rp)) /\
         Fs.read mp fsc = Some (manifest_json (rootCid rp) (fileCids rp)))).
Proof.
  intros flushed env cp mp fs. split.
  - rewrite pack_throws_iff, compute_throws_iff. tauto.
  - intros fsc rc fsp rp Hc Hp.
    apply compute_returned in Hc. apply pack_returned in Hp. cbv zeta in Hc, Hp.
    destruct Hc as (_ & Rc & _ & Fc & Mc & fc2 & Wc2 & Wc3).
    destruct Hp as (_ & Rp & _ & Fp & _ & Mp & fs1 & fs2 & S1 & W2 & W3).
    assert (Eroot : m_rootCid rc = rootCid rp) by congruence.
    assert (Efiles : m_fileCids rc = fileCids rp) by congruence.
    rewrite Eroot, Efiles in *.
    assert (Frame : forall q, q <> cp -> Fs.read q fs2 = Fs.read q fc2).
    { intros q Hq. destruct (list_eq_dec string_dec q mp) as [->|Hm].
      - rewrite (write_read_same _ _ _ _ W2), (write_read_same _ _ _ _ Wc2).
        reflexivity.
      - rewrite (write_read_other _ _ q _ _ W2 Hm), S1,
          (stream_read_other _ _ _ q _ Hq),
          (write_read_other _ _ q _ _ Wc2 Hm). reflexivity. }
    assert (All : forall q, q <> cp ->
                   (truthy (IPFS_PACK_DEBUG env) = true -> q <> debugPath) ->
                   Fs.read q fsp = Fs.read q fsc).
    { intros q Hq Hd. destruct (truthy (IPFS_PACK_DEBUG env)).
      - rewrite (write_read_other _ _ q _ _ W3 (Hd eq_refl)),
          (write_read_other _ _ q _ _ Wc3 (Hd eq_refl)). auto.
      - subst fsp fsc. auto. }
    repeat split; auto; try congruence.
    + rewrite (All mp H H0). destruct (truthy (IPFS_PACK_DEBUG env)).
      * rewrite (write_read_other _ _ mp _ _ Wc3 (H0 eq_refl)).
        apply (write_read_same _ _ _ _ Wc2).
      * subst fsc. apply (write_read_same _ _ _ _ Wc2).
    + destruct (truthy (IPFS_PACK_DEBUG env)).
      * rewrite (write_read_other _ _ mp _ _ Wc3 (H0 eq_refl)).
        apply (write_read_same _ _ _ _ Wc2).
      * subst fsc. apply (write_read_same _ _ _ _ Wc2).
Qed.

Lemma write_root_file (name d : string) fs fs' :
  Fs.write [name] d fs = Some fs' ->
  exists es, fs = Fs.Dir es /\ fs' = Fs.Dir (Fs.put name (Fs.File d) es) /\
             (Fs.find name es = None \/ exists d0, Fs.find name es = Some (Fs.File d0)).
Proof.
  unfold Fs.write. destruct fs as [|es]; [discriminate|].
  destruct (Fs.find name es) as [[d0|sub]|] eqn:F; intros H; inversion H; subst.
  - exists es. repeat split; eauto.
  - exists es. repeat split; eauto.
Qed.

Lemma walk_put_root_artifact (name d : string) es :
  In name excludedAtRoot ->
  (Fs.find name es = None \/ exists d0, Fs.find name es = Some (Fs.File d0)) ->
  walk [] (Fs.Dir (Fs.put name (Fs.File d) es)) = walk [] (Fs.Dir es).
Proof.
  intros Hin. rewrite !walk_dir_eq.
  assert (X : has (Fs.rel [name]) excludedAtRoot = true).
  { apply excluded_iff_root_artifact. eauto. }
  induction es as [|[n c] es IH]; intros Hf; simpl.
  - unfold Spec.walk_entry. simpl. rewrite X. reflexivity.
  - simpl in Hf. destruct (n =? name) eqn:E; simpl.
    + apply String.eqb_eq in E. subst n.
      destruct Hf as [Hf|[d0 Hf]]; [discriminate|]. inversion Hf; subst.
      unfold Spec.walk_entry. simpl. rewrite X. reflexivity.
    + rewrite IH; auto.
Qed.

Lemma walk_write_root_artifact (name d : string) fs fs' :
  In name excludedAtRoot ->
  Fs.write [name] d fs = Some fs' -> walk [] fs' = walk [] fs.
Proof.
  intros Hin W. apply write_root_file in W.
  destruct W as (es & -> & -> & Hf). apply walk_put_root_artifact; auto.
Qed.

Lemma walk_stream_root_artifact flushed (name d : string) fs :
  In name excludedAtRoot ->
  walk [] (fst (createWriteStream flushed [name] d fs)) = walk [] fs.
Proof.
  intros Hin. unfold createWriteStream. destruct flushed as [n|]; [|reflexivity].
  destruct (Fs.write [name] (substring 0 n d) fs) eqn:W; [|reflexivity].
  apply (walk_write_root_artifact _ _ _ _ Hin W).
Qed.

Lemma pack_intro flushed env cp mp fs root files f2 f3 :
  Fs.is_dir fs = true ->
  record_entries (yielded (importer (walk [] fs))) = (Some root, files) ->
  root <> "" ->
  Fs.write mp (manifest_json root files)
    (fst (createWriteStream flushed cp
            (car_of importer car_bytes (walk [] fs) root) fs)) = Some f2 ->
  (if truthy (IPFS_PACK_DEBUG env)
   then Fs.write debugPath
          (Json.stringify
             (pack_debugPayload root files
                (List.length (MemoryBlockstore.blocks
                                (fill_blockstore (puts (importer (walk [] fs))))))
                (map debug_entry (yielded (importer (walk [] fs)))))) f2 = Some f3
   else f3 = f2) ->
  pack flushed env cp mp fs =
  (f3, Returned {| rootCid := root; fileCids := files;
                   carPath := cp; manifestPath := mp |}).
Proof.
  intros D R Hr W2 W3.
  unfold pack, packDirectoryToCar, bind, collect_files. rewrite D, R.
  apply String.eqb_neq in Hr. rewrite Hr.
  rewrite stream_returns.
  unfold writeFileSync, ret. unfold car_of in W2. rewrite W2.
  destruct (truthy (IPFS_PACK_DEBUG env)).
  - rewrite W3. reflexivity.
  - subst f3. reflexivity.
Qed.

Lemma pack_result_eta (r : PackResult) :
  {| rootCid := rootCid r; fileCids := fileCids r;
     carPath := carPath r; manifestPath := manifestPath r |} = r.
Proof. destruct r; reflexivity. Qed.

(** C1.  Determinism of packing.  With the output paths every caller
    passes, [bundle.car] and [ipfs-manifest.json] in the output directory,
    a run that returns has written the manifest it computed and has handed
    the CAR it computed to the write stream of [bundle.car], which has
    reached the file as far as the stream got.  Running again on the
    directory it left returns the same result, hands the same bytes to the
    stream and changes nothing else: the manifest is byte for byte the same.
    Any run on a directory with the same file set returns the same result,
    writes the same manifest and hands the same bytes to its stream, so that
    [bundle.car] holds the same bytes after both once the streams have
    finished. *)
Theorem pack_twice_is_byte_identical :
  forall flushed env fs fs1 r,
    pack flushed env ["bundle.car"] default_manifestPath fs = (fs1, Returned r) ->
    let car := car_of importer car_bytes (walk [] fs) (rootCid r) in
    Fs.read default_manifestPath fs1 =
      Some (manifest_json (rootCid r) (fileCids r)) /\
    Fs.read ["bundle.car"] fs1 =
      Fs.read ["bundle.car"] (fst (createWriteStream flushed ["bundle.car"] car fs)) /\
    (forall flushed',
        pack flushed' env ["bundle.car"] default_manifestPath fs1 =
        (fst (createWriteStream flushed' ["bundle.car"] car fs1), Returned r)) /\
    (forall flushed' env' fs' fs1' r',
        walk [] fs' = walk [] fs ->
        pack flushed' env' ["bundle.car"] default_manifestPath fs' =
          (fs1', Returned r') ->
        r' = r /\
        car_of importer car_bytes (walk [] fs') (rootCid r') = car /\
        Fs.read default_manifestPath fs1' = Fs.read default_manifestPath fs1 /\
        (forall f f',
            Fs.write ["bundle.car"] car fs1 = Some f ->
            Fs.write ["bundle.car"] car fs1' = Some f' ->
            Fs.read ["bundle.car"] (stream_finished ["bundle.car"] car fs1) =
              Some car /\
            Fs.read ["bundle.car"] (stream_finished ["bundle.car"] car fs1') =
              Some car)).
Proof.
  assert (Reads : forall flushed env fs fs1 r,
    pack flushed env ["bundle.car"] default_manifestPath fs = (fs1, Returned r) ->
    Fs.read ["bundle.car"] fs1 =
      Fs.read ["bundle.car"]
        (fst (createWriteStream flushed ["bundle.car"]
                (car_of importer car_bytes (walk [] fs) (rootCid r)) fs)) /\
    Fs.read default_manifestPath fs1 =
      Some (manifest_json (rootCid r) (fileCids r))).
  { intros flushed env fs fs1 r H. apply pack_returned in H. cbv zeta in H.
    destruct H as (_ & _ & _ & _ & _ & _ & f1 & f2 & S1 & W2 & W3).
    assert (R1 : Fs.read ["bundle.car"] f2 = Fs.read ["bundle.car"] f1).
    { apply (write_read_other _ _ ["bundle.car"] _ _ W2). discriminate. }
    pose proof (write_read_same _ _ _ _ W2) as R2.
    rewrite <- S1.
    destruct (truthy (IPFS_PACK_DEBUG env)).
    - rewrite !(write_read_other _ _ _ _ _ W3) by discriminate. auto.
    - subst fs1. auto. }
  intros flushed env fs fs1 r H car. destruct (Reads _ _ _ _ _ H) as [Rcar Rman].
  split; [exact Rman|]. split; [exact Rcar|]. split.
  - intros flushed'.
    pose proof H as H0. apply pack_returned in H0. cbv zeta in H0.
    destruct H0 as (D & Rroot & Hne & Hfiles & Hcp & Hmp & f1 & f2 & S1 & W2 & W3).
    assert (Hwalk : walk [] fs1 = walk [] fs).
    { transitivity (walk [] f2).
      - destruct (truthy (IPFS_PACK_DEBUG env)); [|subst; reflexivity].
        apply (walk_write_root_artifact _ _ _ _ (or_intror (or_intror (or_introl eq_refl))) W3).
      - transitivity (walk [] f1).
        + apply (walk_write_root_artifact _ _ _ _ (or_intror (or_introl eq_refl)) W2).
        + rewrite S1. apply walk_stream_root_artifact. left. reflexivity. }
    assert (D1 : Fs.is_dir fs1 = true).
    { rewrite <- D. transitivity (Fs.is_dir f2).
      - destruct (truthy (IPFS_PACK_DEBUG env)); [|subst; reflexivity].
        apply (write_is_dir _ _ _ _ W3).
      - rewrite (write_is_dir _ _ _ _ W2), S1. apply stream_is_dir. }
    set (g := fst (createWriteStream flushed' ["bundle.car"] car fs1)).
    rewrite <- (pack_result_eta r). rewrite Hcp, Hmp.
    apply pack_intro with (f2 := g); rewrite ?Hwalk; auto.
    + rewrite <- Rroot, <- record_entries_root, Hfiles.
      destruct (record_entries (yielded (importer (walk [] fs)))); reflexivity.
    + apply write_same. fold car. fold g. unfold g.
      rewrite stream_read_other by discriminate. exact Rman.
    + destruct (truthy (IPFS_PACK_DEBUG env)); [|reflexivity].
      apply write_same. unfold g. rewrite stream_read_other by discriminate.
      apply (write_read_same _ _ _ _ W3).
  - intros flushed' env' fs' fs1' r' Hw H'.
    destruct (Reads _ _ _ _ _ H') as [Rcar' Rman'].
    apply pack_returned in H, H'. cbv zeta in H, H'. rewrite Hw in *.
    destruct H as (_ & Rroot & _ & Hfiles & Hcp & Hmp & _).
    destruct H' as (_ & Rroot' & _ & Hfiles' & Hcp' & Hmp' & _).
    assert (E : r' = r).
    { rewrite <- (pack_result_eta r), <- (pack_result_eta r').
      congruence. }
    subst r'. split; [reflexivity|]. split; [reflexivity|].
    split; [congruence|].
    intros f f' W W'. split.
    + apply (stream_finished_read _ _ _ _ W).
    + apply (stream_finished_read _ _ _ _ W').
Qed.

(** X17.  What a run that returns hands back: the CID of the last record with an
    empty path as the root, and under every other path, [__proto__] apart,
    the CID of the last record with that path; a record whose path is
    [__proto__] never becomes a property of [fileCids]. *)
Lemma pack_returns_root_and_file_cids :
  forall flushed env cp mp fs fs' r,
    pack flushed env cp mp fs = (fs', Returned r) ->
    let entries := yielded (importer (walk [] fs)) in
    Spec.last_root entries = Some (rootCid r) /\
    carPath r = cp /\ manifestPath r = mp /\
    (forall p, p <> "" -> p <> "__proto__" ->
               JsObject.get p (fileCids r) = Spec.last_cid p entries) /\
    JsObject.get "__proto__" (fileCids r) = None.
Proof.
  intros flushed env cp mp fs fs' r H entries. apply pack_returned in H.
  cbv zeta in H.
  destruct H as (_ & Rroot & _ & Hfiles & Hcp & Hmp & _).
  repeat split; auto.
  - intros p Hp Hq. rewrite Hfiles. apply record_entries_get; auto.
  - rewrite Hfiles. unfold record_entries. fold entries.
    assert (G : forall es acc, JsObject.get "__proto__" (snd acc) = None ->
              JsObject.get "__proto__" (snd (fold_left record_entry es acc)) = None).
    { induction es as [|e es IH]; intros acc Ha; [exact Ha|].
      simpl. apply IH. unfold record_entry. destruct acc as [a f].
      destruct (path e) as [q|]; [|exact Ha].
      destruct (q =? ""); [exact Ha|]. simpl.
      destruct (string_dec q "__proto__") as [->|Hq]; [exact Ha|].
      rewrite get_set_other; auto. }
    apply G. reflexivity.
Qed.

End Packing.

(** ** The packer on concrete directories *)

Lemma pack_twice_witness :
  exists fs1 r,
    Core.packDirectoryToCar Reference.importer Reference.car_bytes (Some 7)
      Reference.no_env ["bundle.car"] Core.default_manifestPath Reference.site =
      (fs1, Core.Returned r) /\
    Fs.read ["bundle.car"] fs1 = Some "car1[ba" /\
    Core.packDirectoryToCar Reference.importer Reference.car_bytes None
      Reference.no_env ["bundle.car"] Core.default_manifestPath fs1 =
      (fs1, Core.Returned r) /\
    Fs.read Core.default_manifestPath fs1 =
      Some (Core.manifest_json (Core.rootCid r) (Core.fileCids r)).
Proof.
  destruct (Core.packDirectoryToCar Reference.importer Reference.car_bytes (Some 7)
              Reference.no_env ["bundle.car"] Core.default_manifestPath
              Reference.site) as [fs1 [r|e]] eqn:H.
  - exists fs1, r. split; [reflexivity|].
    destruct (pack_twice_is_byte_identical _ _ _ _ _ _ _ H) as (Rman & Rcar & Again & _).
    split; [|split; [exact (Again None) | exact Rman]].
    rewrite Rcar. clear - H. vm_compute in H. inversion H.
    vm_compute. reflexivity.
  - vm_compute in H. discriminate.
Defined.

Lemma nested_bundle_car_witness :
  In ("sub/bundle.car", "x") (Core.walk [] Reference.site) /\
  ~ In ("bundle.car", "stale") (Core.walk [] Reference.site) /\
  exists text,
    Fs.read Core.default_manifestPath
      (fst (Reference.pack Reference.no_env Reference.site)) = Some text /\
    Text.includes
      ("    " ++ Text.dq ++ "sub/bundle.car" ++ Text.dq ++ ": " ++
       Text.dq ++ Reference.raw_cid "x" ++ Text.dq) text = true.
Proof.
  assert (Fn : Spec.file_at ["sub"; "bundle.car"] "x" Reference.site).
  { simpl. eexists. split; [do 3 right; left; reflexivity|].
    eexists. split; [left; reflexivity | reflexivity]. }
  split; [|split].
  - apply (walker_excludes_exactly_root_artifacts Reference.importer
             Reference.car_bytes Reference.site ["sub"; "bundle.car"] "x");
      [reflexivity | exact Fn | simpl; lia].
  - assert (F : Spec.file_at ["bundle.car"] "stale" Reference.site).
    { simpl. eexists. split; [do 2 right; left; reflexivity | reflexivity]. }
    intros H.
    apply (walker_excludes_exactly_root_artifacts Reference.importer
             Reference.car_bytes Reference.site ["bundle.car"] "stale" eq_refl F) in H.
    apply H. left. reflexivity.
  - destruct (Reference.pack Reference.no_env Reference.site) as [fs' [r|e]] eqn:H;
      [|vm_compute in H; discriminate].
    unfold Reference.pack in H.
    destruct (proj2 (proj2 (proj2
               (walker_excludes_exactly_root_artifacts Reference.importer
                  Reference.car_bytes Reference.site ["sub"; "bundle.car"] "x"
                  eq_refl Fn)))
               None Reference.no_env Reference.carPath Core.default_manifestPath
               fs' r ltac:(simpl; lia) H)
      as (c & Hc & _ & _ & Hman & Hline).
    { eexists. split; [right; right; left; reflexivity | reflexivity]. }
    assert (Ec : c = Reference.raw_cid "x").
    { vm_compute in Hc. inversion Hc. reflexivity. }
    subst c.
    destruct (Hman ltac:(discriminate)) as [Rm Inc].
    exists (Spec.manifest_text (Core.rootCid r) (Core.fileCids r)).
    split; [exact Rm|].
    pose proof (Hline eq_refl eq_refl) as E.
    match goal with
    | |- Text.includes ?x _ = _ =>
        replace x with (Spec.manifest_line (Fs.rel ["sub"; "bundle.car"])
                          (Reference.raw_cid "x"))
          by (rewrite E; reflexivity)
    end.
    exact Inc.
Defined.

Lemma car_blocks_witness :
  Spec.count_cid (Reference.raw_cid "hi")
    (MemoryBlockstore.blocks
       (Core.fill_blockstore
          (Core.puts (Reference.importer (Core.walk [] Reference.one_file))))) = 1 /\
  Spec.count_cid "bafkreiabsent"
    (MemoryBlockstore.blocks
       (Core.fill_blockstore
          (Core.puts (Reference.importer (Core.walk [] Reference.one_file))))) = 0 /\
  Fs.read ["bundle.car"]
    (fst (Core.packDirectoryToCar Reference.importer Reference.car_bytes (Some 5)
            Reference.no_env ["bundle.car"] Core.default_manifestPath
            Reference.one_file)) = Some "car1[".
Proof.
  destruct (Core.packDirectoryToCar Reference.importer Reference.car_bytes (Some 5)
              Reference.no_env ["bundle.car"] Core.default_manifestPath
              Reference.one_file) as [fs1 [r|e]] eqn:H.
  - pose proof (car_holds_each_block_once _ _ _ _ _ _ _ _ _ H) as C.
    cbv zeta in C. destruct C as (Hcar & _ & Cnt & _).
    split; [exact (Cnt (Reference.raw_cid "hi"))|].
    split; [exact (Cnt "bafkreiabsent")|].
    destruct (Hcar ltac:(discriminate) ltac:(discriminate)) as (Rc & _).
    simpl fst. rewrite Rc. clear - H. vm_compute in H. inversion H.
    vm_compute. reflexivity.
  - vm_compute in H. discriminate.
Defined.

(** C8, on the code.  An empty output directory: the walker finds no file,
    the importer yields the record of the wrapper directory alone, and the
    run returns the CID of that empty directory after writing the
    manifest. *)
Lemma empty_directory_is_packed :
  Core.walk [] Reference.empty_dir = [] /\
  exists fs' r,
    Reference.pack Reference.no_env Reference.empty_dir = (fs', Core.Returned r) /\
    Core.rootCid r = Reference.node_cid "" /\
    Fs.read Core.default_manifestPath fs' =
      Some (Core.manifest_json (Reference.node_cid "") JsObject.empty).
Proof.
  split; [reflexivity|]. do 2 eexists.
  split; [vm_compute; reflexivity|]. split; vm_compute; reflexivity.
Qed.

(** C10, on the code.  With [IPFS_PACK_DEBUG] set, both functions return on
    a directory with one file, with the same root CID and the same
    [fileCids], and the [ipfs-debug.json] they leave differs: the one of
    [packDirectoryToCar] counts the blocks, the one of
    [computeDirectoryManifest] does not. *)
Theorem debug_output_differs :
  exists fsp rp fsc rc,
    Reference.pack Reference.debug_env Reference.one_file = (fsp, Core.Returned rp) /\
    Reference.compute Reference.debug_env Reference.one_file = (fsc, Core.Returned rc) /\
    Core.m_rootCid rc = Core.rootCid rp /\
    Core.m_fileCids rc = Core.fileCids rp /\
    Core.debugPath <> Reference.carPath /\
    Fs.read Core.debugPath fsp <> Fs.read Core.debugPath fsc.
Proof.
  do 4 eexists. split; [vm_compute; reflexivity|].
  split; [vm_compute; reflexivity|].
  split; [reflexivity|]. split; [reflexivity|].
  split; [discriminate|]. vm_compute. discriminate.
Qed.

(** C2, on the code.  A directory whose one file is named [__proto__]: the
    importer yields a record for the path [__proto__], the run returns, and
    neither the [fileCids] it returns nor the manifest it writes has an
    entry for that path. *)
Theorem proto_file_is_dropped_from_file_cids :
  (exists e, In e (Core.yielded (Reference.importer
                                  (Core.walk [] Reference.proto_dir))) /\
             Core.path e = Some "__proto__" /\
             Core.cid e = Reference.raw_cid "p") /\
  exists fs' r,
    Reference.pack Reference.no_env Reference.proto_dir = (fs', Core.Returned r) /\
    Core.fileCids r = JsObject.empty /\
    JsObject.get "__proto__" (Core.fileCids r) = None /\
    Fs.read Core.default_manifestPath fs' =
      Some (Core.manifest_json (Core.rootCid r) JsObject.empty).
Proof.
  split.
  - eexists. split; [left; reflexivity|]. split; reflexivity.
  - do 2 eexists. split; [vm_compute; reflexivity|].
    repeat split; vm_compute; reflexivity.
Qed.

(** ** The index stamper *)

Lemma all_chars_app (f : ascii -> bool) (a b : string) :
  Spec.all_chars f (a ++ b) = Spec.all_chars f a && Spec.all_chars f b.
Proof.
  induction a as [|c a IH]; simpl; [reflexivity|].
  rewrite IH. apply andb_assoc.
Qed.

Lemma all_chars_weaken (f g : ascii -> bool) (s : string) :
  (forall c, f c = true -> g c = true) ->
  Spec.all_chars f s = true -> Spec.all_chars g s = true.
Proof.
  intros Hfg. induction s as [|c s IH]; simpl; [reflexivity|].
  intros H. apply andb_true_iff in H. destruct H as [Hc Hs].
  rewrite (Hfg _ Hc), (IH Hs). reflexivity.
Qed.

Lemma base32_char_not_dollar (c : ascii) :
  Spec.base32_char c = true -> negb (c =? "$")%char = true.
Proof.
  intros H. destruct (c =? "$")%char eqn:E; [|reflexivity].
  apply Ascii.eqb_eq in E. subst c. vm_compute in H. discriminate.
Qed.

Lemma cid_text_no_dollar (s : string) :
  Spec.cid_text s = true -> Spec.no_dollar s = true.
Proof.
  destruct s as [|c s]; simpl; [discriminate|]. intros H.
  apply andb_true_iff in H. destruct H as [Hc Hs].
  apply Ascii.eqb_eq in Hc. subst c. simpl.
  apply (all_chars_weaken _ _ _ base32_char_not_dollar Hs).
Qed.

Lemma get_substitution_literal (matched before after repl : string) :
  Spec.no_dollar repl = true ->
  Text.get_substitution matched before after repl = repl.
Proof.
  induction repl as [|c t IH]; [reflexivity|].
  unfold Spec.no_dollar. simpl. intros H.
  apply andb_true_iff in H. destruct H as [Hc Ht].
  destruct (c =? "$")%char; [discriminate|].
  f_equal. apply IH. exact Ht.
Qed.

Lemma replace_first_occurrence (pat repl s before after : string) :
  Spec.no_dollar repl = true ->
  Text.split_first pat s = Some (before, after) ->
  Text.replace pat repl s = before ++ repl ++ after.
Proof.
  intros Hd Hs. unfold Text.replace. rewrite Hs, get_substitution_literal; auto.
Qed.

Lemma replace_absent (pat repl s : string) :
  Text.includes pat s = false -> Text.replace pat repl s = s.
Proof.
  intros H. apply split_first_none in H. unfold Text.replace. rewrite H. reflexivity.
Qed.

Lemma write_succeeds (p : Fs.path) (d d0 : string) :
  forall fs, Fs.read p fs = Some d0 -> exists fs', Fs.write p d fs = Some fs'.
Proof.
  induction p as [|name rest IH]; intros fs H.
  - destruct fs; [eexists; reflexivity | discriminate].
  - destruct fs as [|es]; [discriminate|].
    rewrite read_cons in H. unfold Fs.write. fold Fs.write.
    destruct (Fs.find name es) as [child|]; [|discriminate].
    destruct (IH _ H) as [child' ->]. eexists. reflexivity.
Qed.

Lemma stamp_tag_no_dollar (rootCid : string) :
  Spec.cid_text rootCid = true ->
  Spec.no_dollar (Core.stamp_tag rootCid ++ Text.nl ++ "</head>") = true.
Proof.
  intros H. apply cid_text_no_dollar in H.
  unfold Core.stamp_tag, Spec.no_dollar in *.
  rewrite !all_chars_app, H. reflexivity.
Qed.

(** The text the stamper writes carries the marker, whatever the CID. *)
Lemma stamped_text_has_marker (rootCid before after : string) :
  Text.includes Core.stamp_marker
    (before ++
     Text.get_substitution "</head>" before after
       (Core.stamp_tag rootCid ++ Text.nl ++ "</head>") ++ after) = true.
Proof.
  unfold Core.stamp_tag. cbn [append Text.get_substitution Ascii.eqb Bool.eqb Text.dq].
  set (rest := Text.get_substitution _ _ _ _).
  change (before ++ _) with
    (before ++ "<meta " ++ Core.stamp_marker ++ (" content=" ++ Text.dq ++ rest ++ after)).
  rewrite <- (append_assoc before "<meta ").
  apply includes_app.
Qed.

(** The text the stamper writes is read back with the marker, whatever
    the CID. *)
Lemma stamped_text_keeps_marker (rootCid before after : string) :
  Spec.well_formed before ->
  Text.includes Core.stamp_marker
    (Text.utf8
       (before ++
        Text.get_substitution "</head>" before after
          (Core.stamp_tag rootCid ++ Text.nl ++ "</head>") ++ after)) = true.
Proof.
  intros W. rewrite (utf8_keeps_well_formed _ _ W).
  unfold Core.stamp_tag. cbn [append Text.get_substitution Ascii.eqb Bool.eqb Text.dq].
  set (rest := Text.get_substitution _ _ _ _).
  change (Text.utf8 _) with
    (Text.utf8 (("<meta " ++ Core.stamp_marker) ++
                (" content=" ++ Text.dq ++ rest ++ after))).
  rewrite utf8_keeps_well_formed
    by (repeat (apply Spec.wf_one; [reflexivity|]); apply Spec.wf_end).
  rewrite append_assoc, <- (append_assoc before "<meta ").
  apply includes_app.
Qed.

(** What the stamper leaves in the directory. *)
Lemma stamp_cases (rootCid : string) fs :
  fst (Core.stampIndexWithRootCID rootCid fs) =
  match Fs.read Core.indexPath fs with
  | Some raw =>
      if Text.includes Core.stamp_marker (Text.utf8 raw) then fs
      else match Fs.write Core.indexPath
                   (Text.replace "</head>"
                      (Core.stamp_tag rootCid ++ Text.nl ++ "</head>")
                      (Text.utf8 raw)) fs with
           | Some fs' => fs'
           | None => fs
           end
  | None => fs
  end.
Proof.
  unfold Core.stampIndexWithRootCID, Core.bind, Core.existsSync,
    Core.readFileSync_utf8, Core.writeFileSync, Core.ret, Fs.exists_.
  unfold Fs.read.
  destruct (Fs.lookup Core.indexPath fs) as [[d|es]|] eqn:L;
    cbn beta iota delta [negb]; rewrite ?L; try reflexivity.
  destruct (Text.includes Core.stamp_marker (Text.utf8 d)); [reflexivity|].
  destruct (Fs.write _ _ fs); reflexivity.
Qed.

(** C6, as the code has it.  The stamper reads [index.html] as text: its
    bytes decoded as UTF-8.  When the file exists and its text has no marker
    and a [</head>], the text is written back with the meta tag of the root
    CID and a line break before the first [</head>].  When the file is
    missing or its text has the marker, the directory is left as it is.
    When the text has neither the marker nor a [</head>], the text is
    written back as it was read: the file keeps its bytes when they are
    well-formed UTF-8, and has every ill-formed part replaced by U+FFFD
    otherwise.  No other path is touched, and running the stamper again on
    what it left, with any CID, changes nothing. *)
Theorem stamper_inserts_once :
  forall rootCid fs,
    let fs' := fst (Core.stampIndexWithRootCID rootCid fs) in
    (Spec.cid_text rootCid = true ->
     forall raw before after,
       Fs.read Core.indexPath fs = Some raw ->
       Text.includes Spec.meta_marker (Text.utf8 raw) = false ->
       Spec.first_occurrence "</head>" (Text.utf8 raw) before after ->
       Fs.read Core.indexPath fs' =
       Some (before ++ Spec.meta_tag rootCid ++ Text.nl ++ "</head>" ++ after)) /\
    ((forall raw, Fs.read Core.indexPath fs = Some raw ->
                  Text.includes Spec.meta_marker (Text.utf8 raw) = true) ->
     fs' = fs) /\
    (forall raw,
        Fs.read Core.indexPath fs = Some raw ->
        Text.includes Spec.meta_marker (Text.utf8 raw) = false ->
        Text.includes "</head>" (Text.utf8 raw) = false ->
        Fs.read Core.indexPath fs' = Some (Text.utf8 raw) /\
        (Spec.well_formed raw -> fs' = fs)) /\
    (forall q, q <> Core.indexPath -> Fs.read q fs' = Fs.read q fs) /\
    (forall rootCid', fst (Core.stampIndexWithRootCID rootCid' fs') = fs').
Proof.
  intros rootCid fs fs'. subst fs'.
  change Spec.meta_marker with Core.stamp_marker.
  change (Spec.meta_tag rootCid) with (Core.stamp_tag rootCid).
  split; [|split; [|split; [|split]]].
  - intros Hcid raw before after Hr Hm Ho.
    rewrite stamp_cases, Hr, Hm.
    apply first_occurrence_split in Ho.
    rewrite (replace_first_occurrence _ _ _ _ _ (stamp_tag_no_dollar _ Hcid) Ho).
    destruct (write_succeeds Core.indexPath
                (before ++ (Core.stamp_tag rootCid ++ Text.nl ++ "</head>") ++ after)
                raw fs Hr) as [fs2 W].
    rewrite W, (write_read_same _ _ _ _ W), !append_assoc. reflexivity.
  - intros H. rewrite stamp_cases.
    destruct (Fs.read Core.indexPath fs) as [raw|] eqn:Hr; [|reflexivity].
    rewrite (H raw eq_refl). reflexivity.
  - intros raw Hr Hm Hh. rewrite stamp_cases, Hr, Hm, (replace_absent _ _ _ Hh).
    destruct (write_succeeds Core.indexPath (Text.utf8 raw) raw fs Hr) as [fs2 W].
    rewrite W. split; [apply (write_read_same _ _ _ _ W)|].
    intros Wf. rewrite (utf8_well_formed _ Wf) in W.
    rewrite (write_same _ _ _ Hr) in W. congruence.
  - intros q N. rewrite stamp_cases.
    destruct (Fs.read Core.indexPath fs) as [raw|]; [|reflexivity].
    destruct (Text.includes Core.stamp_marker (Text.utf8 raw)); [reflexivity|].
    destruct (Fs.write Core.indexPath _ fs) eqn:W; [|reflexivity].
    apply (write_read_other _ _ q _ _ W N).
  - intros rootCid'. rewrite (stamp_cases rootCid fs).
    destruct (Fs.read Core.indexPath fs) as [raw|] eqn:Hr;
      [|rewrite stamp_cases, Hr; reflexivity].
    destruct (Text.includes Core.stamp_marker (Text.utf8 raw)) eqn:Hm;
      [rewrite stamp_cases, Hr, Hm; reflexivity|].
    destruct (Text.includes "</head>" (Text.utf8 raw)) eqn:Hh.
    + destruct (Text.split_first "</head>" (Text.utf8 raw)) as [[b a]|] eqn:Hs;
        [|apply split_first_none in Hs; congruence].
      assert (Wb : Spec.well_formed b).
      { pose proof (utf8_is_well_formed raw) as Wt.
        rewrite (split_first_sound _ _ _ _ Hs) in Wt.
        apply (well_formed_before b "<" ("/head>" ++ a)); [reflexivity | exact Wt]. }
      unfold Text.replace. rewrite Hs.
      match goal with
      | |- context [Fs.write Core.indexPath ?u fs] =>
          destruct (write_succeeds Core.indexPath u raw fs Hr) as [fs2 W];
          rewrite W; rewrite stamp_cases, (write_read_same _ _ _ _ W)
      end.
      rewrite (stamped_text_keeps_marker _ _ _ Wb). reflexivity.
    + rewrite (replace_absent _ _ _ Hh).
      destruct (write_succeeds Core.indexPath (Text.utf8 raw) raw fs Hr) as [fs2 W].
      rewrite W. rewrite stamp_cases, (write_read_same _ _ _ _ W), utf8_idempotent.
      rewrite Hm, (replace_absent _ _ _ Hh).
      rewrite (write_same _ _ _ (write_read_same _ _ _ _ W)). reflexivity.
Qed.

Lemma stamper_witness :
  Fs.read Core.indexPath
    (fst (Core.stampIndexWithRootCID "bafybeiroot" Reference.site)) =
  Some ("<html><head><title>t</title>" ++
        "<meta name=" ++ Text.dq ++ "ipfs-root-cid" ++ Text.dq ++
        " content=" ++ Text.dq ++ "bafybeiroot" ++ Text.dq ++ " />" ++ Text.nl ++
        "</head>" ++ "<body><script src=" ++ Text.dq ++ "app.js" ++ Text.dq ++
        "></script><a href='./app.js'>a</a></body></html>").
Proof.
  apply (proj1 (stamper_inserts_once "bafybeiroot" Reference.site) eq_refl
           ("<html><head><title>t</title></head><body>" ++
            "<script src=" ++ Text.dq ++ "app.js" ++ Text.dq ++
            "></script><a href='./app.js'>a</a></body></html>")
           "<html><head><title>t</title>"
           ("<body><script src=" ++ Text.dq ++ "app.js" ++ Text.dq ++
            "></script><a href='./app.js'>a</a></body></html>")).
  - reflexivity.
  - vm_compute. reflexivity.
  - split; [vm_compute; reflexivity|]. intros before' after' E.
    refine (split_first_least "</head>" _ "<html><head><title>t</title>" _ _ _ _ E).
    vm_compute. reflexivity.
Defined.

(** C6, on the code.  An index in Latin-1 without a [head] element: the
    stamper finds no [</head>], inserts nothing, and writes the file back
    with the byte of the accented letter replaced by the three bytes of
    U+FFFD. *)
Lemma latin1_index_is_rewritten :
  Fs.read Core.indexPath Reference.latin1_dir = Some Reference.latin1_index /\
  Text.includes "</head>" (Text.utf8 Reference.latin1_index) = false /\
  Text.includes Spec.meta_marker (Text.utf8 Reference.latin1_index) = false /\
  Fs.read Core.indexPath
    (fst (Core.stampIndexWithRootCID "bafybeiroot" Reference.latin1_dir)) =
    Some ("<p>caf" ++ Text.replacement_character ++ "</p>") /\
  fst (Core.stampIndexWithRootCID "bafybeiroot" Reference.latin1_dir) <>
    Reference.latin1_dir.
Proof.
  split; [reflexivity|]. split; [vm_compute; reflexivity|].
  split; [vm_compute; reflexivity|]. split; [vm_compute; reflexivity|].
  vm_compute. discriminate.
Qed.

(** ** The HTML rewriter: what it writes *)

Arguments Text.ends_with : simpl never.
Arguments Text.to_lower : simpl never.

Lemma ends_with_self (s : string) : Text.ends_with s s = true.
Proof. destruct s; unfold Text.ends_with; rewrite String.eqb_refl; reflexivity. Qed.

Lemma ends_with_tail (suffix : string) (c : ascii) (s : string) :
  Text.ends_with suffix s = true -> Text.ends_with suffix (String c s) = true.
Proof.
  intros H. unfold Text.ends_with. fold Text.ends_with. rewrite H.
  apply orb_true_r.
Qed.

Lemma ends_with_app (a suffix : string) : Text.ends_with suffix (a ++ suffix) = true.
Proof.
  induction a as [|c a IH]; simpl; [apply ends_with_self | apply ends_with_tail, IH].
Qed.

Lemma out_name_suffix (name : string) :
  Text.ends_with ".ipfs.html" (Core.out_name name) = true.
Proof.
  unfold Core.out_name. destruct (Text.ends_with ".html" name); apply ends_with_app.
Qed.

Lemma out_name_longer (name : string) :
  length name < length (Core.out_name name).
Proof.
  unfold Core.out_name, Text.drop_last.
  destruct (Text.ends_with ".html" name) eqn:E; rewrite length_append; simpl; [|lia].
  assert (L : forall n s, length (substring 0 n s) = Nat.min n (length s)).
  { induction n as [|n IH]; intros [|c s]; simpl; auto. }
  rewrite L. lia.
Qed.

Lemma last_map_last (f : string -> string) (p : Fs.path) :
  p <> [] -> last (Fs.map_last f p) "" = f (last p "").
Proof.
  induction p as [|x [|y rest] IH]; intros H; [congruence | reflexivity|].
  change (Fs.map_last f (x :: y :: rest)) with (x :: Fs.map_last f (y :: rest)).
  change (last (x :: y :: rest) "") with (last (y :: rest) "").
  rewrite <- IH by discriminate.
  destruct rest; reflexivity.
Qed.

Lemma outPath_suffix (p : Fs.path) :
  p <> [] -> Spec.path_ends_with ".ipfs.html" (Core.outPath_of p) = true.
Proof.
  intros H. unfold Spec.path_ends_with, Core.outPath_of.
  rewrite last_map_last by exact H. apply out_name_suffix.
Qed.

Lemma outPath_differs (p : Fs.path) : p <> [] -> Core.outPath_of p <> p.
Proof.
  intros H E. apply (f_equal (fun q => length (last q ""))) in E.
  unfold Core.outPath_of in E. rewrite last_map_last in E by exact H.
  pose proof (out_name_longer (last p "")). lia.
Qed.

Lemma walk_html_dir_eq (dir : Fs.path) es :
  Core.walk_html dir (Fs.Dir es) = flat_map (Spec.html_entry dir) es.
Proof.
  simpl. induction es as [|[name child] es IH]; [reflexivity|].
  simpl. rewrite IH. f_equal.
  unfold Spec.html_entry. simpl. destruct child; reflexivity.
Qed.

Lemma walk_html_names :
  forall n dir p,
    In p (Core.walk_html dir n) ->
    exists d name, p = (d ++ [name])%list /\
                   Text.ends_with ".html" (Text.to_lower name) = true.
Proof.
  intros n. induction n as [d|es IH] using node_induction; intros dir p H.
  - destruct H.
  - rewrite walk_html_dir_eq in H. apply in_flat_map in H.
    destruct H as [[name child] [Hin H]].
    unfold Spec.html_entry in H. simpl in H. destruct child as [d|sub].
    + destruct (Text.ends_with ".html" (Text.to_lower name)) eqn:E; [|destruct H].
      destruct H as [<-|[]]. eauto.
    + eapply IH; eauto.
Qed.

Section Rewriter.

Import Core.

Variable JSON_parse : string -> option Manifest.

Lemma process_html_frame urlStyle manifest ipfsPrefix p fs q :
  p <> [] ->
  Spec.path_ends_with ".ipfs.html" q = false ->
  Fs.read q (fst (process_html urlStyle manifest ipfsPrefix p fs)) = Fs.read q fs.
Proof.
  intros Hp Hq.
  assert (N : q <> outPath_of p).
  { intros ->. rewrite outPath_suffix in Hq by exact Hp. discriminate. }
  assert (W : forall d, Fs.read q (fst (writeFileSync (outPath_of p) d fs)) = Fs.read q fs).
  { intros d. unfold writeFileSync.
    destruct (Fs.write (outPath_of p) d fs) eqn:E; simpl; [|reflexivity].
    apply (write_read_other _ _ q _ _ E N). }
  unfold process_html, bind, readFileSync.
  destruct (Fs.read p fs) as [html|]; [|reflexivity].
  destruct (negb _); [apply W|].
  destruct urlStyle; apply W.
Qed.

Lemma for_each_frame urlStyle manifest ipfsPrefix q l :
  (forall p, In p l -> p <> []) ->
  Spec.path_ends_with ".ipfs.html" q = false ->
  forall fs,
    Fs.read q (fst (for_each l (process_html urlStyle manifest ipfsPrefix) fs)) =
    Fs.read q fs.
Proof.
  intros Hl Hq. induction l as [|p l IH]; intros fs; [reflexivity|].
  simpl. unfold bind.
  pose proof (process_html_frame urlStyle manifest ipfsPrefix p fs q
                (Hl p (or_introl eq_refl)) Hq) as F.
  destruct (process_html urlStyle manifest ipfsPrefix p fs) as [fs1 [[]|e]];
    simpl in F |- *; [|exact F].
  rewrite IH; [exact F|]. intros p' Hin. apply Hl. right. exact Hin.
Qed.




End Rewriter.


(** ** The HTML rewriter: how it rewrites *)






















(** C5, on the code.  A page with a [header] element and no [head], no
    binding of a manifest path, the path style: the page has [<head] and no
    [</head>], so the base tag is neither put before a [</head>] nor at the
    front; the sibling is the page itself, without any base tag. *)
Theorem page_with_header_gets_no_base :
  Text.includes "</head>" Reference.fragment = false /\
  Core.rewrite_html Core.path_style Reference.page_manifest
    (Core.ipfsPrefix_of Core.path_style (Core.root Reference.page_manifest))
    Reference.fragment = Reference.fragment /\
  exists fs',
    Core.writeIpfsAddressedHtml (Reference.parse_only Reference.page_manifest)
      Reference.no_env None (Some Core.path_style) Reference.fragment_dir =
    (fs', Core.Returned tt) /\
    Fs.read ["news.ipfs.html"] fs' = Some Reference.fragment /\
    Text.includes "<base" Reference.fragment = false /\
    Reference.fragment <>
    Core.baseTag_of (Core.ipfsPrefix_of Core.path_style
                       (Core.root Reference.page_manifest)) ++
    Text.nl ++ Reference.fragment.
Proof.
  split; [reflexivity|]. split; [vm_compute; reflexivity|].
  eexists. split; [vm_compute; reflexivity|].
  split; [vm_compute; reflexivity|]. split; [reflexivity|].
  vm_compute. discriminate.
Qed.

(** ** The scenarios of the specification *)

(** S1: one file; the manifest maps it to the CID of its raw leaf, and the
    CAR holds two blocks, the leaf and the directory. *)
Example scenario_one_file :
  exists fs' r,
    Reference.pack Reference.no_env Reference.one_file = (fs', Core.Returned r) /\
    Core.fileCids r = [("a.txt", Reference.raw_cid "hi")] /\
    List.length
      (MemoryBlockstore.blocks
         (Core.fill_blockstore
            (Core.puts (Reference.importer (Core.walk [] Reference.one_file))))) = 2.
Proof.
  do 2 eexists. split; [vm_compute; reflexivity|]. split; reflexivity.
Qed.

(** S2: the index gains the meta tag, and its sibling refers to the script
    by the CID of the script under the default style. *)
Example scenario_stamp_and_rewrite :
  exists fs' rootCid,
    Reference.postbuild Reference.no_env None Reference.site =
      (fs', Core.Returned rootCid) /\
    (exists html, Fs.read ["index.html"] fs' = Some html /\
                  Text.includes (Core.stamp_tag rootCid) html = true) /\
    (exists html, Fs.read ["index.ipfs.html"] fs' = Some html /\
                  Text.includes
                    (Reference.script_tag ("ipfs://" ++ Reference.raw_cid "run()"))
                    html = true).
Proof.
  do 2 eexists. split; [vm_compute; reflexivity|].
  split; eexists; (split; [vm_compute; reflexivity|]); vm_compute; reflexivity.
Qed.

(** S3: the same under the path style. *)
Example scenario_path_style :
  exists fs' rootCid,
    Reference.postbuild Reference.no_env (Some Core.path_style) Reference.site =
      (fs', Core.Returned rootCid) /\
    exists html, Fs.read ["index.ipfs.html"] fs' = Some html /\
                 Text.includes
                   (Reference.script_tag ("/ipfs/" ++ rootCid ++ "/app.js"))
                   html = true.
Proof.
  do 2 eexists. split; [vm_compute; reflexivity|].
  eexists. split; [vm_compute; reflexivity|]. vm_compute. reflexivity.
Qed.

(** S5 and S6: a stamped index is left alone by the stamper, and a page
    without bindings is copied to its sibling under the default style. *)
Example scenario_second_build :
  exists fs1 rootCid,
    Reference.postbuild Reference.no_env None Reference.site =
      (fs1, Core.Returned rootCid) /\
    fst (Core.stampIndexWithRootCID rootCid fs1) = fs1 /\
    Fs.read ["news.ipfs.html"]
      (fst (Core.writeIpfsAddressedHtml
              (Reference.parse_only Reference.page_manifest)
              Reference.no_env None None Reference.fragment_dir)) =
    Some Reference.fragment.
Proof.
  do 2 eexists. split; [vm_compute; reflexivity|].
  split; vm_compute; reflexivity.
Qed.

(* ================================================================= *)
(** * Further properties of the code *)

(** ** The block store *)

Lemma store_put_order (k v : string) (m : MemoryBlockstore.t) :
  map fst (MemoryBlockstore.put k v m) =
  if MemoryBlockstore.has k m then map fst m else (map fst m ++ [k])%list.
Proof.
  unfold MemoryBlockstore.has.
  induction m as [|[k0 v0] m IH]; simpl; [reflexivity|].
  destruct (k0 =? k) eqn:E; simpl; [reflexivity|].
  rewrite IH. destruct (MemoryBlockstore.get k m); reflexivity.
Qed.

(** X1.  [put] then [get]: the key put holds the bytes put, every other key
    holds what it held, so [get] throws exactly for a key never put.  A key
    put again keeps its place in the iteration and a new key goes last;
    the store never holds a key twice. *)
Theorem blockstore_put_then_get :
  forall (m : MemoryBlockstore.t) (k v : string),
    (forall k', MemoryBlockstore.get k' (MemoryBlockstore.put k v m) =
                if k =? k' then Some v else MemoryBlockstore.get k' m) /\
    MemoryBlockstore.has k (MemoryBlockstore.put k v m) = true /\
    map fst (MemoryBlockstore.blocks (MemoryBlockstore.put k v m)) =
      (if MemoryBlockstore.has k m
       then map fst (MemoryBlockstore.blocks m)
       else (map fst (MemoryBlockstore.blocks m) ++ [k])%list) /\
    (NoDup (map fst (MemoryBlockstore.blocks m)) ->
     NoDup (map fst (MemoryBlockstore.blocks (MemoryBlockstore.put k v m)))).
Proof.
  intros m k v. split; [intros k'; apply store_get_put|].
  split; [unfold MemoryBlockstore.has; rewrite store_get_put, String.eqb_refl;
          reflexivity|].
  split; [apply store_put_order | apply store_put_keys].
Qed.

(** ** What the packer and the stamper leave alone *)

Lemma write_file_frame (p : Fs.path) (d : string) (q : Fs.path) fs :
  q <> p -> Fs.read q (fst (Core.writeFileSync p d fs)) = Fs.read q fs.
Proof.
  intros N. unfold Core.writeFileSync.
  destruct (Fs.write p d fs) eqn:E; simpl; [|reflexivity].
  apply (write_read_other _ _ q _ _ E N).
Qed.

Lemma preserves_ret {A : Type} (q : Fs.path) (a : A) :
  Terms.preserves q (Core.ret a).
Proof. intros fs. reflexivity. Qed.

Lemma preserves_throw {A : Type} (q : Fs.path) (e : Core.error) :
  Terms.preserves q (@Core.throw A e).
Proof. intros fs. reflexivity. Qed.

Lemma preserves_bind {A B : Type} (q : Fs.path) (m : Core.M A) (k : A -> Core.M B) :
  Terms.preserves q m -> (forall a, Terms.preserves q (k a)) ->
  Terms.preserves q (Core.bind m k).
Proof.
  intros Hm Hk fs. unfold Core.bind. specialize (Hm fs).
  destruct (m fs) as [fs1 [a|e]]; simpl in Hm |- *; [|exact Hm].
  rewrite Hk. exact Hm.
Qed.

Lemma preserves_write (q p : Fs.path) (d : string) :
  q <> p -> Terms.preserves q (Core.writeFileSync p d).
Proof. intros N fs. apply write_file_frame. exact N. Qed.

Section Frames.

Import Core.

Variable importer : list (string * string) -> Import.
Variable car_bytes : list string -> list (string * string) -> string.

Lemma pack_preserves flushed env cp mp q :
  q <> cp -> q <> mp -> q <> debugPath ->
  Terms.preserves q (packDirectoryToCar importer car_bytes flushed env cp mp).
Proof.
  intros Nc Nm Nd. unfold packDirectoryToCar.
  apply preserves_bind.
  - intros fs. unfold collect_files. destruct (Fs.is_dir fs); reflexivity.
  - intros files.
    destruct (record_entries (yielded (importer files))) as [[r|] f];
      [|apply preserves_throw].
    destruct (r =? ""); [apply preserves_throw|].
    apply preserves_bind;
      [intros fs; apply stream_read_other; exact Nc|]. intros _.
    apply preserves_bind; [apply preserves_write; exact Nm|]. intros _.
    apply preserves_bind; [|intros _; apply preserves_ret].
    destruct (truthy (IPFS_PACK_DEBUG env));
      [apply preserves_write; exact Nd | apply preserves_ret].
Qed.

Lemma compute_preserves env mp q :
  q <> mp -> q <> debugPath ->
  Terms.preserves q (computeDirectoryManifest importer env mp).
Proof.
  intros Nm Nd. unfold computeDirectoryManifest.
  apply preserves_bind.
  - intros fs. unfold collect_files. destruct (Fs.is_dir fs); reflexivity.
  - intros files.
    destruct (record_entries (yielded (importer files))) as [[r|] f];
      [|apply preserves_throw].
    destruct (r =? ""); [apply preserves_throw|].
    apply preserves_bind; [apply preserves_write; exact Nm|]. intros _.
    apply preserves_bind; [|intros _; apply preserves_ret].
    destruct (truthy (IPFS_PACK_DEBUG env));
      [apply preserves_write; exact Nd | apply preserves_ret].
Qed.

(** X3.  Whether they return or throw, [packDirectoryToCar] and
    [computeDirectoryManifest] leave every path of the output directory as
    they found it, except the paths of the manifest, of [ipfs-debug.json]
    and, for the first, of the CAR: no input file is changed, created or
    replaced. *)
Theorem packing_writes_only_its_outputs :
  forall flushed env cp mp fs q,
    q <> mp -> q <> debugPath ->
    Fs.read q (fst (computeDirectoryManifest importer env mp fs)) = Fs.read q fs /\
    (q <> cp ->
     Fs.read q (fst (packDirectoryToCar importer car_bytes flushed env cp mp fs)) =
     Fs.read q fs).
Proof.
  intros flushed env cp mp fs q Nm Nd. split.
  - apply compute_preserves; assumption.
  - intros Nc. apply pack_preserves; assumption.
Qed.

End Frames.

Lemma stamp_preserves (rootCid : string) (q : Fs.path) :
  q <> Core.indexPath -> Terms.preserves q (Core.stampIndexWithRootCID rootCid).
Proof.
  intros N fs. rewrite stamp_cases.
  destruct (Fs.read Core.indexPath fs) as [html|]; [|reflexivity].
  destruct (Text.includes Core.stamp_marker (Text.utf8 html)); [reflexivity|].
  destruct (Fs.write Core.indexPath _ fs) eqn:W; [|reflexivity].
  apply (write_read_other _ _ q _ _ W N).
Qed.

(** X14.  The stamper touches [index.html] and nothing else, and it never
    creates the file: without an [index.html] that can be read the directory
    is left exactly as it is. *)
Theorem stamper_touches_only_the_index :
  forall rootCid fs,
    (forall q, q <> Core.indexPath ->
               Fs.read q (fst (Core.stampIndexWithRootCID rootCid fs)) =
               Fs.read q fs) /\
    (Fs.read Core.indexPath fs = None ->
     fst (Core.stampIndexWithRootCID rootCid fs) = fs) /\
    (Fs.exists_ Core.indexPath fs = false ->
     Core.stampIndexWithRootCID rootCid fs = (fs, Core.Returned tt)).
Proof.
  intros rootCid fs. split; [|split].
  - intros q N. apply stamp_preserves. exact N.
  - intros H. rewrite stamp_cases, H. reflexivity.
  - intros H. unfold Core.stampIndexWithRootCID, Core.bind, Core.existsSync.
    rewrite H. reflexivity.
Qed.

Lemma packing_frame_witness :
  Fs.read ["app.js"]
    (fst (Reference.compute Reference.debug_env Reference.site)) =
  Fs.read ["app.js"] Reference.site /\
  Fs.read ["app.js"] (fst (Reference.pack Reference.debug_env Reference.site)) =
  Fs.read ["app.js"] Reference.site.
Proof.
  assert (N1 : ["app.js"] <> Core.default_manifestPath) by discriminate.
  assert (N2 : ["app.js"] <> Core.debugPath) by discriminate.
  assert (N3 : ["app.js"] <> Reference.carPath) by discriminate.
  pose proof (packing_writes_only_its_outputs Reference.importer
                Reference.car_bytes None Reference.debug_env Reference.carPath
                Core.default_manifestPath Reference.site ["app.js"] N1 N2) as [H1 H2].
  split; [exact H1 | exact (H2 N3)].
Defined.

(** ** The paths the walker yields *)

Lemma slashes_app (a b : string) :
  Fs.slashes (a ++ b) = Fs.slashes a ++ Fs.slashes b.
Proof. induction a as [|c a IH]; simpl; [reflexivity | rewrite IH; reflexivity]. Qed.

Lemma slashes_no_backslash (s : string) :
  Terms.no_backslash (Fs.slashes s) = true.
Proof.
  unfold Terms.no_backslash. induction s as [|c s IH]; simpl; [reflexivity|].
  rewrite IH. destruct (c =? Fs.backslash)%char eqn:E; [reflexivity|].
  rewrite E. reflexivity.
Qed.

Lemma slashes_name (s : string) :
  Spec.all_chars Tree.name_char_ok s = true -> Fs.slashes s = s.
Proof.
  induction s as [|c s IH]; simpl; [reflexivity|]. intros H.
  apply andb_true_iff in H. destruct H as [Hc Hs].
  unfold Tree.name_char_ok in Hc. apply andb_true_iff in Hc. destruct Hc as [_ Hb].
  destruct (c =? Fs.backslash)%char; [discriminate|]. rewrite IH; auto.
Qed.

Lemma slashes_concat (p : list string) :
  Forall Tree.name_ok p -> Fs.slashes (concat "/" p) = concat "/" p.
Proof.
  induction 1 as [|x p [_ Hx] Hp IH]; [reflexivity|].
  destruct p as [|y p]; [apply slashes_name; exact Hx|].
  change (concat "/" (x :: y :: p)) with (x ++ "/" ++ concat "/" (y :: p)).
  rewrite !slashes_app, IH, (slashes_name _ Hx). reflexivity.
Qed.

Lemma concat_below (dir : list string) :
  exists pre, forall p, p <> [] -> concat "/" (dir ++ p)%list = pre ++ concat "/" p.
Proof.
  induction dir as [|x dir [pre IH]].
  - exists "". intros p _. reflexivity.
  - exists (x ++ "/" ++ pre). intros p Hp.
    assert (N : (dir ++ p)%list <> []) by (destruct dir; [exact Hp | discriminate]).
    simpl app. destruct (dir ++ p)%list as [|y rest] eqn:E; [congruence|].
    change (concat "/" (x :: y :: rest)) with (x ++ "/" ++ concat "/" (y :: rest)).
    rewrite <- E, (IH p Hp), !append_assoc. reflexivity.
Qed.

Lemma rel_below (dir : list string) :
  exists pre, forall p, p <> [] -> Forall Tree.name_ok p ->
                        Fs.rel (dir ++ p)%list = pre ++ concat "/" p.
Proof.
  destruct (concat_below dir) as [pre H]. exists (Fs.slashes pre).
  intros p Hp Hok. unfold Fs.rel.
  rewrite (H p Hp), slashes_app, (slashes_concat p Hok). reflexivity.
Qed.

Lemma append_cancel_l (pre a b : string) : pre ++ a = pre ++ b -> a = b.
Proof.
  induction pre as [|c pre IH]; simpl; intros H; [exact H|].
  inversion H. auto.
Qed.

Lemma name_before_separator (a b ta tb : string) :
  Spec.all_chars Tree.name_char_ok a = true ->
  Spec.all_chars Tree.name_char_ok b = true ->
  (ta = "" \/ exists u, ta = String "/" u) ->
  (tb = "" \/ exists u, tb = String "/" u) ->
  a ++ ta = b ++ tb -> a = b.
Proof.
  assert (Sep : forall c s u, Spec.all_chars Tree.name_char_ok (String c s) = true ->
                              String "/" u <> String c (s ++ tb) /\
                              String "/" u <> String c (s ++ ta)).
  { intros c s u H. simpl in H. apply andb_true_iff in H. destruct H as [Hc _].
    unfold Tree.name_char_ok in Hc. apply andb_true_iff in Hc. destruct Hc as [Hc _].
    split; intros E; inversion E; subst; discriminate. }
  revert b. induction a as [|c a IH]; intros [|c' b] Ha Hb Hta Htb E;
    simpl in E.
  - reflexivity.
  - exfalso. destruct Hta as [->|[u ->]]; [discriminate|].
    apply (proj1 (Sep c' b u Hb)). exact E.
  - exfalso. destruct Htb as [->|[u ->]]; [discriminate|].
    apply (proj2 (Sep c a u Ha)). symmetry. exact E.
  - inversion E; subst. f_equal.
    simpl in Ha, Hb. apply andb_true_iff in Ha, Hb.
    apply IH; tauto.
Qed.

Lemma concat_first (x : string) (q : list string) :
  exists t, concat "/" (x :: q) = x ++ t /\ (t = "" \/ exists u, t = String "/" u).
Proof.
  destruct q as [|y q].
  - exists "". split; [simpl; rewrite append_nil_r; reflexivity | left; reflexivity].
  - exists ("/" ++ concat "/" (y :: q)).
    split; [reflexivity | right; exists (concat "/" (y :: q)); reflexivity].
Qed.

Lemma rel_first_component (dir : list string) (a b : string) (q q' : list string) :
  Forall Tree.name_ok (a :: q) -> Forall Tree.name_ok (b :: q') ->
  Fs.rel (dir ++ a :: q)%list = Fs.rel (dir ++ b :: q')%list -> a = b.
Proof.
  intros Ha Hb E. destruct (rel_below dir) as [pre H].
  rewrite (H (a :: q)), (H (b :: q')) in E by (auto; discriminate).
  apply append_cancel_l in E.
  destruct (concat_first a q) as (ta & Ea & Hta).
  destruct (concat_first b q') as (tb & Eb & Htb).
  rewrite Ea, Eb in E.
  inversion Ha as [|? ? [_ Oa] _]; inversion Hb as [|? ? [_ Ob] _]; subst.
  exact (name_before_separator a b ta tb Oa Ob Hta Htb E).
Qed.

Lemma walk_named_paths :
  forall n, Tree.well_formed n ->
  forall dir r d, In (r, d) (Core.walk dir n) ->
    exists p, p <> [] /\ Forall Tree.name_ok p /\ r = Fs.rel (dir ++ p)%list.
Proof.
  intros n. induction n as [d0|es IH] using node_induction; intros W dir r d H.
  - destruct H.
  - inversion W as [|? Hnd Hes]; subst.
    rewrite walk_dir_eq in H. apply in_flat_map in H.
    destruct H as [[name child] [Hin H]].
    destruct (Hes _ _ Hin) as [Hname Hchild].
    unfold Spec.walk_entry in H. simpl in H. destruct child as [d1|sub].
    + destruct (Core.has _ _); [destruct H|]. destruct H as [H|[]].
      inversion H; subst. exists [name]. repeat split; [discriminate | auto].
    + destruct (IH _ _ Hin Hchild _ _ _ H) as (p & Hp & Hok & ->).
      exists (name :: p). split; [discriminate|]. split; [auto|].
      rewrite <- app_assoc. reflexivity.
Qed.

Lemma walk_entry_paths (dir : list string) (name : string) (child : Fs.node) r d :
  Tree.name_ok name -> Tree.well_formed child ->
  In (r, d) (Spec.walk_entry dir (name, child)) ->
  exists q, Forall Tree.name_ok (name :: q) /\ r = Fs.rel (dir ++ name :: q)%list.
Proof.
  intros Hname Hchild H. unfold Spec.walk_entry in H. simpl in H.
  destruct child as [d1|sub].
  - destruct (Core.has _ _); [destruct H|]. destruct H as [H|[]].
    inversion H; subst. exists []. split; [auto | reflexivity].
  - destruct (walk_named_paths _ Hchild _ _ _ H) as (p & _ & Hok & ->).
    exists p. split; [auto|]. rewrite <- app_assoc. reflexivity.
Qed.

Lemma nodup_append {A : Type} (l1 l2 : list A) :
  NoDup l1 -> NoDup l2 -> (forall a, In a l1 -> ~ In a l2) -> NoDup (l1 ++ l2).
Proof.
  intros H1 H2 D. induction H1 as [|x l1 Hx H1 IH]; simpl; [exact H2|].
  constructor.
  - rewrite in_app_iff. intros [H|H]; [auto | apply (D x); simpl; auto].
  - apply IH. intros a Ha. apply D. simpl. auto.
Qed.

Lemma walk_paths_nodup :
  forall n, Tree.well_formed n -> forall dir, NoDup (map fst (Core.walk dir n)).
Proof.
  intros n. induction n as [d0|es IH] using node_induction; intros W dir.
  - constructor.
  - inversion W as [|? Hnd Hes]; subst. rewrite walk_dir_eq.
    assert (G : forall es',
      NoDup (map fst es') -> (forall name child, In (name, child) es' ->
                                                  In (name, child) es) ->
      NoDup (map fst (flat_map (Spec.walk_entry dir) es'))).
    { induction es' as [|[name child] es' IHes]; intros Hn Hsub; simpl;
        [constructor|].
      inversion Hn as [|? ? Hfresh Hn']; subst.
      destruct (Hes name child (Hsub _ _ (or_introl eq_refl))) as [Hname Hchild].
      rewrite map_app. apply nodup_append.
      - unfold Spec.walk_entry. simpl. destruct child as [d1|sub].
        + destruct (Core.has _ _); simpl; repeat constructor. intros [].
        + apply (IH name (Fs.Dir sub) (Hsub _ _ (or_introl eq_refl)) Hchild).
      - apply IHes; [exact Hn'|]. intros n0 c0 Hin. apply Hsub. right. exact Hin.
      - intros r Hr1 Hr2.
        apply in_map_iff in Hr1. destruct Hr1 as [[r1 d1] [E1 Hr1]].
        apply in_map_iff in Hr2. destruct Hr2 as [[r2 d2] [E2 Hr2]].
        simpl in E1, E2. subst r1 r2.
        apply in_flat_map in Hr2. destruct Hr2 as [[name' child'] [Hin' Hr2]].
        destruct (Hes name' child' (Hsub _ _ (or_intror Hin'))) as [Hname' Hchild'].
        destruct (walk_entry_paths dir name child r d1 Hname Hchild Hr1)
          as (q & Hq & Eq).
        destruct (walk_entry_paths dir name' child' r d2 Hname' Hchild' Hr2)
          as (q' & Hq' & Eq').
        rewrite Eq in Eq'.
        pose proof (rel_first_component dir name name' q q' Hq Hq' Eq') as E.
        subst name'. apply Hfresh. apply in_map_iff. exists (name, child'). auto. }
    apply G; auto.
Qed.

(** X2.  The relative paths of the file set hold no backslash; and in a
    directory as a file system gives it (entries of distinct names, names
    not empty and without a separator) no two files of the set share a
    relative path and no path is empty, so no record of the importer can
    overwrite the manifest entry of another file. *)
Theorem walker_paths_are_distinct :
  forall fs,
    (forall r d, In (r, d) (Core.walk [] fs) -> Terms.no_backslash r = true) /\
    (Tree.well_formed fs ->
     NoDup (map fst (Core.walk [] fs)) /\
     forall r d, In (r, d) (Core.walk [] fs) -> r <> "").
Proof.
  intros fs. split.
  - intros r d H. apply walk_sound in H. destruct H as (_ & p & _ & _ & ->).
    apply slashes_no_backslash.
  - intros W. split; [apply walk_paths_nodup; exact W|].
    intros r d H. destruct (walk_named_paths _ W _ _ _ H) as (p & Hp & Hok & ->).
    destruct p as [|x q]; [congruence|].
    destruct (rel_below []) as [pre Hpre].
    rewrite (Hpre (x :: q)) by (auto; discriminate).
    destruct (concat_first x q) as (t & -> & _).
    inversion Hok as [|? ? [Hx _] _]; subst.
    destruct x as [|c x]; [congruence|]. destruct pre; discriminate.
Qed.

Lemma site_is_well_formed : Tree.well_formed Reference.site.
Proof.
  assert (Ok : forall s, s <> "" -> Spec.all_chars Tree.name_char_ok s = true ->
                         Tree.name_ok s) by (intros; split; assumption).
  constructor.
  - simpl. repeat constructor; simpl; intuition discriminate.
  - intros name child H. simpl in H.
    destruct H as [H|[H|[H|[H|[]]]]]; inversion H; subst;
      (split; [apply Ok; [discriminate | reflexivity]|]); try constructor.
    + simpl. repeat constructor. intros [].
    + intros name child [H'|[]]. inversion H'; subst.
      split; [apply Ok; [discriminate | reflexivity] | constructor].
Qed.

Lemma walker_paths_witness :
  NoDup (map fst (Core.walk [] Reference.site)).
Proof.
  exact (proj1 (proj2 (walker_paths_are_distinct Reference.site)
                  site_is_well_formed)).
Defined.

(** ** The rewriter: when it does nothing, and what it adds *)

Lemma find_in (name : string) es child :
  Fs.find name es = Some child -> In (name, child) es.
Proof.
  induction es as [|[n c] es IH]; simpl; [discriminate|].
  destruct (n =? name) eqn:E.
  - apply String.eqb_eq in E. intros H. inversion H; subst. auto.
  - auto.
Qed.

Lemma read_file_at (p : Fs.path) :
  forall fs d, Fs.read p fs = Some d -> Spec.file_at p d fs.
Proof.
  induction p as [|name rest IH]; intros fs d H.
  - destruct fs; unfold Fs.read in H; simpl in H; inversion H. reflexivity.
  - destruct fs as [|es]; [discriminate|]. rewrite read_cons in H. simpl.
    destruct (Fs.find name es) as [child|] eqn:F; [|discriminate].
    exists child. split; [apply find_in; exact F | apply IH; exact H].
Qed.

Lemma read_exists (p : Fs.path) fs d :
  Fs.read p fs = Some d -> Fs.exists_ p fs = true.
Proof.
  unfold Fs.read, Fs.exists_. destruct (Fs.lookup p fs); [reflexivity | discriminate].
Qed.

Lemma bind_returned {A B : Type} (m : Core.M A) (k : A -> Core.M B) fs fs' b :
  Core.bind m k fs = (fs', Core.Returned b) ->
  exists a fs1, m fs = (fs1, Core.Returned a) /\ k a fs1 = (fs', Core.Returned b).
Proof.
  unfold Core.bind. destruct (m fs) as [fs1 [a|e]]; [eauto | discriminate].
Qed.

Section RewriterRuns.

Import Core.

Variable JSON_parse : string -> option Manifest.

Lemma rewriter_preserves env manifestPath options q :
  Spec.path_ends_with ".ipfs.html" q = false ->
  Terms.preserves q (writeIpfsAddressedHtml JSON_parse env manifestPath options).
Proof.
  intros Hq fs.
  unfold writeIpfsAddressedHtml, bind, existsSync, readFileSync, collect_html.
  destruct (negb _); [reflexivity|].
  destruct (Fs.read _ fs) as [raw|]; [|reflexivity].
  destruct (JSON_parse raw) as [manifest|]; [|reflexivity].
  destruct (root manifest =? ""); [reflexivity|].
  destruct (Fs.is_dir fs); [|reflexivity].
  apply for_each_frame; [|exact Hq].
  intros p H. apply walk_html_names in H. destruct H as (d & name & -> & _).
  destruct d; discriminate.
Qed.

(** X12.  The rewriter gives up without a word and without a trace when the
    manifest is missing, when [JSON.parse] refuses it, and when its root is
    empty: it returns and the directory is exactly as before, no sibling
    written.  When the manifest path names a directory, reading it throws,
    again with nothing written. *)
Theorem rewriter_skips_without_a_manifest :
  forall env manifestPath options fs,
    let manifestAbs :=
      match manifestPath with Some p => p | None => default_manifestPath end in
    ((Fs.exists_ manifestAbs fs = false \/
      exists raw, Fs.read manifestAbs fs = Some raw /\
                  (JSON_parse raw = None \/
                   exists m, JSON_parse raw = Some m /\ root m = "")) ->
     writeIpfsAddressedHtml JSON_parse env manifestPath options fs =
     (fs, Returned tt)) /\
    (Fs.exists_ manifestAbs fs = true -> Fs.read manifestAbs fs = None ->
     writeIpfsAddressedHtml JSON_parse env manifestPath options fs =
     (fs, Thrown FsError)).
Proof.
  intros env manifestPath options fs manifestAbs. subst manifestAbs.
  unfold writeIpfsAddressedHtml, bind, existsSync, readFileSync. cbv zeta.
  split.
  - intros [H|(raw & R & H)].
    + rewrite H. reflexivity.
    + rewrite (read_exists _ _ _ R). cbn beta iota delta [negb]. rewrite R.
      destruct H as [->|(m & -> & ->)]; reflexivity.
  - intros E R. rewrite E. cbn beta iota delta [negb]. rewrite R. reflexivity.
Qed.

Lemma process_html_writes urlStyle manifest ipfsPrefix h fs fs' :
  process_html urlStyle manifest ipfsPrefix h fs = (fs', Returned tt) ->
  exists d, Fs.read (outPath_of h) fs' = Some d.
Proof.
  unfold process_html, bind, readFileSync.
  destruct (Fs.read h fs) as [html|]; [|discriminate].
  assert (W : forall d,
             writeFileSync (outPath_of h) d fs = (fs', Returned tt) ->
             exists d', Fs.read (outPath_of h) fs' = Some d').
  { intros d. unfold writeFileSync.
    destruct (Fs.write (outPath_of h) d fs) eqn:E; [|discriminate].
    intros H. inversion H; subst. exists d. apply (write_read_same _ _ _ _ E). }
  destruct (negb _); [apply W|]. destruct urlStyle; apply W.
Qed.

Lemma process_html_keeps_files urlStyle manifest ipfsPrefix h fs q d :
  Fs.read q fs = Some d ->
  exists d', Fs.read q (fst (process_html urlStyle manifest ipfsPrefix h fs)) = Some d'.
Proof.
  intros R. unfold process_html, bind, readFileSync.
  destruct (Fs.read h fs) as [html|]; [|simpl; eauto].
  assert (W : forall x, exists d',
             Fs.read q (fst (writeFileSync (outPath_of h) x fs)) = Some d').
  { intros x. unfold writeFileSync.
    destruct (Fs.write (outPath_of h) x fs) eqn:E; simpl; [|eauto].
    destruct (list_eq_dec string_dec q (outPath_of h)) as [->|N].
    - exists x. apply (write_read_same _ _ _ _ E).
    - exists d. rewrite (write_read_other _ _ q _ _ E N). exact R. }
  destruct (negb _); [apply W|]. destruct urlStyle; apply W.
Qed.

Lemma for_each_keeps_files urlStyle manifest ipfsPrefix l :
  forall fs q d,
    Fs.read q fs = Some d ->
    exists d', Fs.read q (fst (for_each l (process_html urlStyle manifest ipfsPrefix) fs))
               = Some d'.
Proof.
  induction l as [|h l IH]; intros fs q d R; [simpl; eauto|].
  simpl. unfold bind.
  destruct (process_html_keeps_files urlStyle manifest ipfsPrefix h fs q d R)
    as [d1 R1].
  destruct (process_html urlStyle manifest ipfsPrefix h fs) as [fs1 [[]|e]];
    simpl in R1 |- *; [|eauto].
  apply (IH fs1 q d1 R1).
Qed.

Lemma for_each_written urlStyle manifest ipfsPrefix l :
  forall fs fs',
    for_each l (process_html urlStyle manifest ipfsPrefix) fs = (fs', Returned tt) ->
    forall h, In h l -> exists d, Fs.read (outPath_of h) fs' = Some d.
Proof.
  induction l as [|h0 l IH]; intros fs fs' H h Hin; [destruct Hin|].
  simpl in H. apply bind_returned in H. destruct H as ([] & fs1 & H1 & H2).
  destruct Hin as [<-|Hin].
  - destruct (process_html_writes _ _ _ _ _ _ H1) as [d R].
    destruct (for_each_keeps_files urlStyle manifest ipfsPrefix l fs1 _ d R)
      as [d' R'].
    rewrite H2 in R'. eauto.
  - apply (IH fs1 fs' H2 h Hin).
Qed.

Lemma sibling_not_excluded (h : Fs.path) :
  h <> [] -> Core.has (Fs.rel (outPath_of h)) excludedAtRoot = false.
Proof.
  intros Hh. destruct (has (Fs.rel (outPath_of h)) excludedAtRoot) eqn:E;
    [|reflexivity].
  apply excluded_iff_root_artifact in E. destruct E as (name & E & Hin).
  pose proof (outPath_suffix h Hh) as S. unfold Spec.path_ends_with in S.
  rewrite E in S. simpl in S, Hin.
  destruct Hin as [<-|[<-|[<-|[]]]]; vm_compute in S; discriminate.
Qed.

(** X11.  What the rewriter writes becomes input of the next run of the
    packer: after a run of the rewriter that got past the manifest and
    returned, every HTML file it found has a sibling in the directory, and
    that sibling, with the data it holds, is in the file set the walker of
    [packDirectoryToCar] yields.  The exclusion set does not cover the
    siblings. *)
Theorem siblings_join_the_file_set :
  forall env manifestPath options fs fs' raw m,
    Fs.read (match manifestPath with Some p => p | None => default_manifestPath end)
      fs = Some raw ->
    JSON_parse raw = Some m ->
    root m <> "" ->
    writeIpfsAddressedHtml JSON_parse env manifestPath options fs =
      (fs', Returned tt) ->
    forall h, In h (walk_html [] fs) ->
      exists d, Fs.read (outPath_of h) fs' = Some d /\
                In (Fs.rel (outPath_of h), d) (Core.walk [] fs').
Proof.
  intros env manifestPath options fs fs' raw m R P N H h Hin.
  unfold writeIpfsAddressedHtml, bind, existsSync, readFileSync, collect_html in H.
  rewrite (read_exists _ _ _ R) in H. cbn beta iota delta [negb] in H.
  rewrite R, P in H. apply String.eqb_neq in N. rewrite N in H.
  destruct (Fs.is_dir fs); [|discriminate].
  destruct (for_each_written _ _ _ _ _ _ H h Hin) as [d Rd].
  exists d. split; [exact Rd|].
  assert (Hh : h <> []).
  { apply walk_html_names in Hin. destruct Hin as (d0 & name & -> & _).
    destruct d0; discriminate. }
  assert (Ho : outPath_of h <> []).
  { intros E. apply (f_equal (@List.length string)) in E.
    unfold outPath_of in E. clear -E Hh.
    induction h as [|x [|y rest] IH]; simpl in *; try congruence; discriminate. }
  apply (walk_complete (outPath_of h) d fs' [] Ho (read_file_at _ _ _ Rd)).
  apply sibling_not_excluded. exact Hh.
Qed.

End RewriterRuns.

Lemma rewriter_skip_witness :
  Core.writeIpfsAddressedHtml (fun _ => None) Reference.no_env None None
    Reference.site = (Reference.site, Core.Returned tt).
Proof.
  apply (proj1 (rewriter_skips_without_a_manifest (fun _ => None)
                  Reference.no_env None None Reference.site)).
  left. reflexivity.
Defined.

Lemma siblings_witness :
  exists d,
    Fs.read ["news.ipfs.html"]
      (fst (Core.writeIpfsAddressedHtml
              (Reference.parse_only Reference.page_manifest)
              Reference.no_env None None Reference.fragment_dir)) = Some d /\
    In ("news.ipfs.html", d)
       (Core.walk []
          (fst (Core.writeIpfsAddressedHtml
                  (Reference.parse_only Reference.page_manifest)
                  Reference.no_env None None Reference.fragment_dir))).
Proof.
  destruct (Core.writeIpfsAddressedHtml
              (Reference.parse_only Reference.page_manifest)
              Reference.no_env None None Reference.fragment_dir)
    as [fs' [[]|e]] eqn:H.
  - apply (siblings_join_the_file_set
             (Reference.parse_only Reference.page_manifest)
             Reference.no_env None None Reference.fragment_dir fs'
             (Core.manifest_json (Core.root Reference.page_manifest)
                (Core.files Reference.page_manifest))
             Reference.page_manifest eq_refl eq_refl
             ltac:(discriminate) H ["news.html"]).
    left. reflexivity.
  - vm_compute in H. discriminate.
Defined.

(** ** The upload adapter *)

Lemma last_root_result_cons (wrap : bool) (r : Upload.AddResult) rs :
  Terms.last_root_result wrap (r :: rs) =
  match Terms.last_root_result wrap rs with
  | Some c => Some c
  | None => if Upload.is_root_result wrap r then Some (Upload.cid r) else None
  end.
Proof.
  unfold Terms.last_root_result. simpl. rewrite find_app_last.
  destruct (List.find _ (rev rs)); simpl; [reflexivity|].
  destruct (Upload.is_root_result wrap r); reflexivity.
Qed.

Lemma last_cid_result_cons (p : string) (r : Upload.AddResult) rs :
  Terms.last_cid_result p (r :: rs) =
  match Terms.last_cid_result p rs with
  | Some c => Some c
  | None =>
      match Upload.path r with
      | Some q => if q =? p then Some (Upload.cid r) else None
      | None => None
      end
  end.
Proof.
  unfold Terms.last_cid_result. simpl. rewrite find_app_last.
  destruct (List.find _ (rev rs)); simpl; [reflexivity|].
  destruct (Upload.path r) as [q|]; [destruct (q =? p)|]; reflexivity.
Qed.

Lemma length_positive (s : string) : (0 <? length s)%nat = negb (s =? "").
Proof. destruct s; reflexivity. Qed.

Lemma upload_fold_root (wrap : bool) rs :
  forall acc,
    fst (fold_left (Upload.record_result wrap) rs acc) =
    match Terms.last_root_result wrap rs with
    | Some c => Some c
    | None => fst acc
    end.
Proof.
  induction rs as [|r rs IH]; intros acc; [reflexivity|].
  simpl fold_left. rewrite IH, last_root_result_cons.
  destruct (Terms.last_root_result wrap rs); [reflexivity|].
  unfold Upload.record_result. destruct acc as [a f].
  destruct (Upload.is_root_result wrap r); [reflexivity|].
  destruct (Upload.path r) as [q|]; [destruct (0 <? length q)%nat|]; reflexivity.
Qed.

Lemma upload_fold_get (wrap : bool) (p : string) rs :
  p <> "" -> p <> "__proto__" ->
  forall acc,
    JsObject.get p (snd (fold_left (Upload.record_result wrap) rs acc)) =
    match Terms.last_cid_result p rs with
    | Some c => Some c
    | None => JsObject.get p (snd acc)
    end.
Proof.
  intros Hp Hq. induction rs as [|r rs IH]; intros acc; [reflexivity|].
  simpl fold_left. rewrite IH, last_cid_result_cons.
  destruct (Terms.last_cid_result p rs); [reflexivity|].
  unfold Upload.record_result, Upload.is_root_result. destruct acc as [a f].
  destruct (Upload.path r) as [q|].
  - destruct (q =? "") eqn:E0.
    + apply String.eqb_eq in E0. subst q.
      destruct ("" =? p) eqn:E; [apply String.eqb_eq in E; congruence | reflexivity].
    + rewrite length_positive, E0. simpl.
      destruct (q =? p) eqn:E.
      * apply String.eqb_eq in E. subst q. apply get_set_same. exact Hq.
      * apply String.eqb_neq in E. apply get_set_other. congruence.
  - destruct (wrap && _); reflexivity.
Qed.

Lemma upload_fold_no_empty_key (wrap : bool) rs :
  forall acc,
    JsObject.get "" (snd (fold_left (Upload.record_result wrap) rs acc)) =
    JsObject.get "" (snd acc).
Proof.
  induction rs as [|r rs IH]; intros acc; [reflexivity|].
  simpl fold_left. rewrite IH.
  unfold Upload.record_result. destruct acc as [a f].
  destruct (Upload.is_root_result wrap r); [reflexivity|].
  destruct (Upload.path r) as [q|]; [|reflexivity].
  rewrite length_positive. destruct (q =? "") eqn:E; [reflexivity|].
  apply String.eqb_neq in E. simpl. apply get_set_other. congruence.
Qed.

Lemma upload_fold_no_proto (wrap : bool) rs :
  forall acc,
    JsObject.get "__proto__" (snd acc) = None ->
    JsObject.get "__proto__"
      (snd (fold_left (Upload.record_result wrap) rs acc)) = None.
Proof.
  induction rs as [|r rs IH]; intros acc Ha; [exact Ha|].
  simpl. apply IH. unfold Upload.record_result. destruct acc as [a f].
  destruct (Upload.is_root_result wrap r); [exact Ha|].
  destruct (Upload.path r) as [q|]; [|exact Ha].
  destruct (0 <? length q)%nat; [|exact Ha]. simpl.
  destruct (string_dec q "__proto__") as [->|Hq]; [exact Ha|].
  rewrite get_set_other; auto.
Qed.

Lemma conclude_without_empty_key (root : option string) (files : JsObject.t) :
  JsObject.get "" files = None ->
  Upload.conclude (root, files) =
  match root with
  | Some r =>
      if r =? "" then inl Upload.NoDirectoryRootCid
      else inr {| Upload.rootCid := r; Upload.fileCids := files |}
  | None => inl Upload.NoDirectoryRootCid
  end.
Proof.
  intros H. unfold Upload.conclude. rewrite H.
  destruct root as [r|]; simpl; [|reflexivity].
  destruct (r =? "") eqn:E; simpl; rewrite ?E; reflexivity.
Qed.

Section Uploads.

Variable create : string -> option string -> string + Upload.Client.
Variable fs_message : string.

Lemma upload_outcome env options fs client results :
  create (Upload.apiUrl_of env options) (Upload.authHeader_of env options) =
    inr client ->
  Fs.is_dir fs = true ->
  client (Core.walk [] fs) (Upload.wrap_of options) = inr results ->
  Upload.uploadDirectoryViaApi create fs_message env options fs =
  let files :=
    snd (fold_left (Upload.record_result (Upload.wrap_of options)) results
           (None, JsObject.empty)) in
  match Terms.last_root_result (Upload.wrap_of options) results with
  | Some r =>
      if r =? "" then inl Upload.NoDirectoryRootCid
      else inr {| Upload.rootCid := r; Upload.fileCids := files |}
  | None => inl Upload.NoDirectoryRootCid
  end.
Proof.
  intros C D R. unfold Upload.uploadDirectoryViaApi. rewrite C, D, R.
  set (acc := fold_left _ results _).
  rewrite (surjective_pairing acc), conclude_without_empty_key.
  - unfold acc. rewrite upload_fold_root.
    destruct (Terms.last_root_result _ results); reflexivity.
  - unfold acc. rewrite upload_fold_no_empty_key. reflexivity.
Qed.

(** X5.  The upload throws 'IPFS upload did not return a directory root
    CID' exactly when no result of the client marks the root (an empty path,
    or with wrapping no path and no name) with a CID that is not empty.  The
    fallback on [fileCids['']] never supplies a root: the loop stores a CID
    under a path only when the path is not empty, so the object returned
    never has the empty key. *)
Theorem upload_needs_a_root_result :
  forall env options fs client results,
    create (Upload.apiUrl_of env options) (Upload.authHeader_of env options) =
      inr client ->
    Fs.is_dir fs = true ->
    client (Core.walk [] fs) (Upload.wrap_of options) = inr results ->
    let outcome := Upload.uploadDirectoryViaApi create fs_message env options fs in
    let root := Terms.last_root_result (Upload.wrap_of options) results in
    (outcome = inl Upload.NoDirectoryRootCid <-> (root = None \/ root = Some "")) /\
    (forall r, outcome = inr r ->
               root = Some (Upload.rootCid r) /\ Upload.rootCid r <> "" /\
               JsObject.get "" (Upload.fileCids r) = None).
Proof.
  intros env options fs client results C D R outcome root.
  subst outcome root. rewrite (upload_outcome env options fs client results C D R).
  cbv zeta.
  destruct (Terms.last_root_result (Upload.wrap_of options) results) as [c|].
  - destruct (c =? "") eqn:E.
    + apply String.eqb_eq in E. subst c.
      split; [split; auto | intros r H; discriminate].
    + apply String.eqb_neq in E. split.
      * split; [discriminate | intros [H|H]; congruence].
      * intros r H. inversion H; subst. simpl.
        split; [reflexivity|]. split; [exact E|].
        rewrite upload_fold_no_empty_key. reflexivity.
  - split; [split; auto | intros r H; discriminate].
Qed.

(** X4.  What a successful upload returns: under every path that is not
    empty, [__proto__] apart, the CID of the last result the client yielded
    with that path, and nothing under a path the client never yielded; a
    result whose path is [__proto__] is dropped, as by the packer. *)
Theorem upload_returns_the_last_cids :
  forall env options fs client results r,
    create (Upload.apiUrl_of env options) (Upload.authHeader_of env options) =
      inr client ->
    Fs.is_dir fs = true ->
    client (Core.walk [] fs) (Upload.wrap_of options) = inr results ->
    Upload.uploadDirectoryViaApi create fs_message env options fs = inr r ->
    (forall p, p <> "" -> p <> "__proto__" ->
               JsObject.get p (Upload.fileCids r) =
               Terms.last_cid_result p results) /\
    JsObject.get "__proto__" (Upload.fileCids r) = None.
Proof.
  intros env options fs client results r C D R H.
  rewrite (upload_outcome env options fs client results C D R) in H.
  cbv zeta in H.
  destruct (Terms.last_root_result (Upload.wrap_of options) results) as [c|];
    [|discriminate].
  destruct (c =? ""); [discriminate|]. inversion H; subst. simpl. split.
  - intros p Hp Hq. rewrite upload_fold_get by assumption.
    destruct (Terms.last_cid_result p results); reflexivity.
  - apply upload_fold_no_proto. reflexivity.
Qed.

(** An exception of the client, at its creation or while it adds the files,
    and a directory that cannot be listed are thrown on as they are. *)
Lemma upload_throws_on (env : Upload.Env) (options : option Upload.Options) fs :
  (forall text,
      create (Upload.apiUrl_of env options) (Upload.authHeader_of env options) =
        inl text ->
      Upload.uploadDirectoryViaApi create fs_message env options fs =
      inl (Upload.Threw text)) /\
  (forall client text,
      create (Upload.apiUrl_of env options) (Upload.authHeader_of env options) =
        inr client ->
      Fs.is_dir fs = true ->
      client (Core.walk [] fs) (Upload.wrap_of options) = inl text ->
      Upload.uploadDirectoryViaApi create fs_message env options fs =
      inl (Upload.Threw text)).
Proof.
  unfold Upload.uploadDirectoryViaApi. split.
  - intros text ->. reflexivity.
  - intros client text -> -> ->. reflexivity.
Qed.

End Uploads.

Lemma upload_root_witness :
  Upload.uploadDirectoryViaApi (fun _ _ => inr Terms.rootless_client) "ENOTDIR"
    Terms.no_upload_env None Reference.one_file = inl Upload.NoDirectoryRootCid.
Proof.
  apply (proj1 (upload_needs_a_root_result (fun _ _ => inr Terms.rootless_client)
                  "ENOTDIR" Terms.no_upload_env None Reference.one_file
                  Terms.rootless_client _ eq_refl eq_refl eq_refl)).
  left. reflexivity.
Defined.

Lemma upload_cids_witness :
  exists r,
    Upload.uploadDirectoryViaApi (fun _ _ => inr Terms.echo_client) "ENOTDIR"
      Terms.no_upload_env None Reference.one_file = inr r /\
    JsObject.get "a.txt" (Upload.fileCids r) = Some (Reference.raw_cid "hi").
Proof.
  destruct (Upload.uploadDirectoryViaApi (fun _ _ => inr Terms.echo_client)
              "ENOTDIR" Terms.no_upload_env None Reference.one_file)
    as [e|r] eqn:H; [vm_compute in H; discriminate|].
  exists r. split; [reflexivity|].
  rewrite (proj1 (upload_returns_the_last_cids (fun _ _ => inr Terms.echo_client)
                    "ENOTDIR" Terms.no_upload_env None Reference.one_file
                    Terms.echo_client _ r eq_refl eq_refl eq_refl H)
             "a.txt" ltac:(discriminate) ltac:(discriminate)).
  reflexivity.
Defined.

(** ** The upload report *)

Section Reports.

Variable localeCompare : string -> string -> comparison.




Hypothesis one_way : forall a b, localeCompare a b = Lt -> localeCompare b a <> Lt.




End Reports.




Lemma style_value_of_envStyle (env : Core.Env) :
  Core.envStyle env =
  let v := Terms.style_value env in
  if v =? "" then Core.scheme_file_style
  else if (v =? "scheme-file") || (v =? "file") then Core.scheme_file_style
  else if (v =? "scheme") || (v =? "ipfs") then Core.scheme_style
  else Core.path_style.
Proof. reflexivity. Qed.

Lemma style_value_of_report (env : Plugin.Env) :
  Plugin.report_urlStyle env =
  let v := Terms.style_value (Plugin.core env) in
  if v =? "" then "scheme-file" else v.
Proof. reflexivity. Qed.

Lemma replacement_by_value (style : Core.UrlStyle) (m : Core.Manifest)
  (prefix rel attr quote : string) :
  Core.replacement style m prefix rel attr quote =
  attr ++ "=" ++ quote ++
  match style with
  | Core.scheme_file_style =>
      if JsObject.value_of (Core.files m) rel =? "" then prefix ++ rel
      else "ipfs://" ++ JsObject.value_of (Core.files m) rel
  | _ => prefix ++ rel
  end ++ quote.
Proof.
  unfold Core.replacement, JsObject.value_of.
  destruct style; try (rewrite !append_assoc; reflexivity).
  destruct (JsObject.get rel (Core.files m)) as [c|].
  - destruct (c =? ""); rewrite ?append_assoc; reflexivity.
  - cbn [String.eqb]. rewrite append_assoc. reflexivity.
Qed.

(** X7.  The URL the report shows for a file against the URL the rewriter
    writes for a binding of that file, for the same environment, the same
    root and the same file CIDs.  They are the same, with two exceptions.
    Under the scheme-file style a file whose CID is empty is shown as
    [ipfs://] by the report and bound to its path below the root by the
    rewriter.  And the aliases [file] and [ipfs] are known to the rewriter
    alone: it takes them for scheme-file and scheme, while the report, which
    is handed the value as it is, falls to the path URLs in both cases. *)
Theorem report_follows_the_rewriter_style :
  forall env rootCid fileCids k attr quote,
    let v := Terms.style_value (Plugin.core env) in
    let style := Core.envStyle (Plugin.core env) in
    let cid := JsObject.value_of fileCids k in
    let href := Upload.href_of (Plugin.report_urlStyle env) rootCid cid k in
    let binding :=
      Core.replacement style {| Core.root := rootCid; Core.files := fileCids |}
        (Core.ipfsPrefix_of style rootCid) k attr quote in
    (v <> "file" -> v <> "ipfs" ->
     (style = Core.scheme_file_style -> cid <> "") ->
     binding = attr ++ "=" ++ quote ++ href ++ quote) /\
    (v <> "file" -> style = Core.scheme_file_style -> cid = "" ->
     href = "ipfs://" /\
     binding = attr ++ "=" ++ quote ++ "/ipfs/" ++ rootCid ++ "/" ++ k ++ quote) /\
    (v = "file" ->
     style = Core.scheme_file_style /\
     href = "/ipfs/" ++ rootCid ++ "/" ++ k /\
     (cid <> "" -> binding = attr ++ "=" ++ quote ++ "ipfs://" ++ cid ++ quote)) /\
    (v = "ipfs" ->
     style = Core.scheme_style /\
     href = "/ipfs/" ++ rootCid ++ "/" ++ k /\
     binding = attr ++ "=" ++ quote ++ "ipfs://" ++ rootCid ++ "/" ++ k ++ quote).
Proof.
  intros env rootCid fileCids k attr quote v style cid href binding.
  subst binding href style. rewrite replacement_by_value. cbn [Core.files].
  fold cid. rewrite style_value_of_envStyle, style_value_of_report. fold v.
  cbv zeta. clearbody v cid.
  split; [|split; [|split]].
  - intros Hf Hi Hc.
    destruct (string_dec v "") as [->|H0].
    { cbn. specialize (Hc eq_refl). apply String.eqb_neq in Hc. rewrite Hc.
      rewrite ?append_assoc. reflexivity. }
    destruct (string_dec v "scheme-file") as [->|H1].
    { cbn. specialize (Hc eq_refl). apply String.eqb_neq in Hc. rewrite Hc.
      rewrite ?append_assoc. reflexivity. }
    destruct (string_dec v "scheme") as [->|H2].
    { cbn. rewrite ?append_assoc. reflexivity. }
    rewrite (proj2 (String.eqb_neq _ _) H0), (proj2 (String.eqb_neq _ _) H1),
      (proj2 (String.eqb_neq _ _) H2), (proj2 (String.eqb_neq _ _) Hf),
      (proj2 (String.eqb_neq _ _) Hi).
    unfold Upload.href_of.
    rewrite (proj2 (String.eqb_neq _ _) H1), (proj2 (String.eqb_neq _ _) H2).
    cbn [orb Core.ipfsPrefix_of]. rewrite ?append_assoc. reflexivity.
  - intros Hf Hs ->.
    destruct (string_dec v "") as [->|H0].
    { split; [reflexivity|]. cbn. rewrite ?append_assoc. reflexivity. }
    destruct (string_dec v "scheme-file") as [->|H1].
    { split; [reflexivity|]. cbn. rewrite ?append_assoc. reflexivity. }
    exfalso. revert Hs.
    rewrite (proj2 (String.eqb_neq _ _) H0), (proj2 (String.eqb_neq _ _) H1),
      (proj2 (String.eqb_neq _ _) Hf).
    cbn [orb]. destruct ((v =? "scheme") || (v =? "ipfs")); discriminate.
  - intros ->. split; [reflexivity|]. split; [reflexivity|].
    intros Hc. cbn. apply String.eqb_neq in Hc. rewrite Hc.
    rewrite ?append_assoc. reflexivity.
  - intros ->. split; [reflexivity|]. split; [reflexivity|].
    cbn. rewrite ?append_assoc. reflexivity.
Qed.

Lemma report_style_witness :
  Core.envStyle (Plugin.core Terms.file_style_env) = Core.scheme_file_style /\
  Upload.href_of (Plugin.report_urlStyle Terms.file_style_env)
    "bafyroot" "bafkreia" "a.css" = "/ipfs/bafyroot/a.css" /\
  Core.replacement Core.scheme_file_style
    {| Core.root := "bafyroot"; Core.files := Terms.two_files |}
    "/ipfs/bafyroot/" "a.css" "href" "'" = "href='ipfs://bafkreia'".
Proof.
  destruct (proj1 (proj2 (proj2 (report_follows_the_rewriter_style
                                   Terms.file_style_env "bafyroot" Terms.two_files
                                   "a.css" "href" "'"))) eq_refl)
    as (H1 & H2 & H3).
  split; [exact H1|]. split; [exact H2|]. apply H3. discriminate.
Defined.

(** ** The bundler integrations *)

Lemma stamp_inserts (rootCid raw before after : string) fs :
  Spec.cid_text rootCid = true ->
  Fs.read Core.indexPath fs = Some raw ->
  Text.includes Spec.meta_marker (Text.utf8 raw) = false ->
  Spec.first_occurrence "</head>" (Text.utf8 raw) before after ->
  Fs.read Core.indexPath (fst (Core.stampIndexWithRootCID rootCid fs)) =
  Some (before ++ Spec.meta_tag rootCid ++ Text.nl ++ "</head>" ++ after).
Proof.
  change Spec.meta_marker with Core.stamp_marker.
  change (Spec.meta_tag rootCid) with (Core.stamp_tag rootCid).
  intros Hcid Hr Hm Ho. rewrite stamp_cases, Hr, Hm.
  apply first_occurrence_split in Ho.
  rewrite (replace_first_occurrence _ _ _ _ _ (stamp_tag_no_dollar _ Hcid) Ho).
  destruct (write_succeeds Core.indexPath
              (before ++ (Core.stamp_tag rootCid ++ Text.nl ++ "</head>") ++ after)
              raw fs Hr) as [fs2 W].
  rewrite W, (write_read_same _ _ _ _ W), !append_assoc. reflexivity.
Qed.

Lemma last_of_snoc {A : Type} (l : list A) (a d : A) : last (l ++ [a]) d = a.
Proof.
  induction l as [|x l IH]; [reflexivity|].
  simpl. destruct (l ++ [a])%list eqn:E; [destruct l; discriminate | exact IH].
Qed.

Section Integrations.

Import Core.

Variable importer : list (string * string) -> Import.
Variable car_bytes : list string -> list (string * string) -> string.
Variable JSON_parse : string -> option Manifest.
Variable create : string -> option string -> string + Upload.Client.
Variable fs_message : string.
Variable localeCompare : string -> string -> comparison.
Variable flushed : option nat.

Let pack_or_compute := Plugin.pack_or_compute importer car_bytes flushed.
Let pack_stamp_rewrite :=
  Plugin.pack_stamp_rewrite importer car_bytes JSON_parse flushed.
Let upload_message := Plugin.upload_message create fs_message localeCompare.
Let closeBundle :=
  Plugin.closeBundle importer car_bytes JSON_parse create fs_message localeCompare
    flushed.
Let postbuild :=
  Plugin.postbuild importer car_bytes JSON_parse create fs_message localeCompare
    flushed.

Lemma upload_message_runs env fs :
  exists messages,
    upload_message env fs = (fs, Returned messages) /\
    (Plugin.doUpload env = false -> messages = []) /\
    (Plugin.doUpload env = true -> List.length messages = 1).
Proof.
  unfold upload_message, Plugin.upload_message.
  destruct (Plugin.doUpload env).
  - destruct (Upload.uploadDirectoryViaApi _ _ _ _ fs);
      eexists; (split; [reflexivity|]); split; (discriminate || reflexivity).
  - eexists. split; [reflexivity|]. split; [reflexivity | discriminate].
Qed.

Lemma upload_message_preserves env q : Terms.preserves q (upload_message env).
Proof.
  intros fs. destruct (upload_message_runs env fs) as (m & -> & _). reflexivity.
Qed.

Lemma pack_or_compute_preserves env q :
  q <> Plugin.manifestPath -> q <> debugPath ->
  (Plugin.shouldSkipCar env = false -> q <> Plugin.carPath) ->
  Terms.preserves q (pack_or_compute env).
Proof.
  intros Nm Nd Nc. unfold pack_or_compute, Plugin.pack_or_compute.
  destruct (Plugin.shouldSkipCar env).
  - apply preserves_bind; [apply compute_preserves; assumption|].
    intros a. apply preserves_ret.
  - apply preserves_bind; [apply pack_preserves; auto|].
    intros a. apply preserves_ret.
Qed.

Lemma pack_stamp_rewrite_preserves env q :
  q <> Plugin.manifestPath -> q <> debugPath -> q <> indexPath ->
  (Plugin.shouldSkipCar env = false -> q <> Plugin.carPath) ->
  Spec.path_ends_with ".ipfs.html" q = false ->
  Terms.preserves q (pack_stamp_rewrite env).
Proof.
  intros Nm Nd Ni Nc Hs. unfold pack_stamp_rewrite, Plugin.pack_stamp_rewrite.
  apply preserves_bind; [apply pack_or_compute_preserves; assumption|].
  intros root. apply preserves_bind; [apply stamp_preserves; exact Ni|].
  intros _. apply preserves_bind; [apply rewriter_preserves; exact Hs|].
  intros _. apply preserves_ret.
Qed.

Lemma build_preserves env q :
  q <> Plugin.manifestPath -> q <> debugPath -> q <> indexPath ->
  (Plugin.shouldSkipCar env = false -> q <> Plugin.carPath) ->
  Spec.path_ends_with ".ipfs.html" q = false ->
  Terms.preserves q (closeBundle env) /\ Terms.preserves q (postbuild env).
Proof.
  intros Nm Nd Ni Nc Hs.
  pose proof (pack_stamp_rewrite_preserves env q Nm Nd Ni Nc Hs) as P.
  split; (apply preserves_bind; [exact P|]; intros root;
          apply preserves_bind; [apply upload_message_preserves|];
          intros m; apply preserves_ret).
Qed.

(** X9.  A build hook leaves the build as the bundler wrote it: whatever
    the environment, and whether the hook returns or throws, every path
    other than [ipfs-manifest.json], [ipfs-debug.json], [bundle.car],
    [index.html] and the paths ending in [.ipfs.html] holds after the hook
    what it held before. *)
Theorem hook_leaves_the_build_alone :
  forall env fs q,
    q <> Plugin.manifestPath -> q <> debugPath -> q <> Plugin.carPath ->
    q <> indexPath ->
    Spec.path_ends_with ".ipfs.html" q = false ->
    Fs.read q (fst (closeBundle env fs)) = Fs.read q fs /\
    Fs.read q (fst (postbuild env fs)) = Fs.read q fs.
Proof.
  intros env fs q Nm Nd Nc Ni Hs.
  destruct (build_preserves env q Nm Nd Ni (fun _ => Nc) Hs) as [H1 H2].
  split; [apply H1 | apply H2].
Qed.

(** X8.  The CAR is opt-in.  With [IPFS_PACK_SKIP_CAR] unset the hook
    skips it, and a hook that skips it leaves the path of [bundle.car] as it
    was, a stale CAR of an earlier build included; the variable set to the
    empty string does not skip. *)
Theorem car_is_skipped_by_default :
  forall env fs,
    (Plugin.IPFS_PACK_SKIP_CAR env = None -> Plugin.shouldSkipCar env = true) /\
    (Plugin.IPFS_PACK_SKIP_CAR env = Some "" -> Plugin.shouldSkipCar env = false) /\
    (Plugin.shouldSkipCar env = true ->
     Fs.read Plugin.carPath (fst (closeBundle env fs)) = Fs.read Plugin.carPath fs /\
     Fs.read Plugin.carPath (fst (postbuild env fs)) = Fs.read Plugin.carPath fs).
Proof.
  intros env fs. unfold Plugin.shouldSkipCar.
  split; [intros ->; reflexivity|]. split; [intros ->; reflexivity|].
  intros Skip.
  assert (B : Terms.preserves Plugin.carPath (closeBundle env) /\
              Terms.preserves Plugin.carPath (postbuild env)).
  { apply build_preserves; try discriminate; try reflexivity.
    unfold Plugin.shouldSkipCar. rewrite Skip. discriminate. }
  destruct B as [H1 H2]. split; [apply H1 | apply H2].
Qed.

Lemma postbuild_after_upload env fs :
  match pack_stamp_rewrite env fs with
  | (fs1, Returned rootCid) =>
      forall messages,
        upload_message env fs1 = (fs1, Returned messages) ->
        postbuild env fs =
          (fs1, Returned (("IPFS root CID: " ++ rootCid)%string :: messages))
  | (fs1, Thrown e) => True
  end.
Proof.
  unfold postbuild, Plugin.postbuild, bind.
  fold pack_stamp_rewrite. fold upload_message.
  destruct (pack_stamp_rewrite env fs) as [fs1 [root|e]]; [|exact I].
  intros m E. rewrite E. reflexivity.
Qed.


Lemma manifest_after (env : Plugin.Env) fs fs1 root :
  pack_or_compute env fs = (fs1, Returned root) ->
  Spec.last_root (yielded (importer (walk [] fs))) = Some root /\
  Fs.read Plugin.manifestPath fs1 =
    Some (Spec.manifest_text root
            (snd (record_entries (yielded (importer (walk [] fs)))))).
Proof.
  unfold pack_or_compute, Plugin.pack_or_compute. intros H.
  rewrite <- manifest_json_text.
  destruct (Plugin.shouldSkipCar env).
  - apply bind_returned in H. destruct H as (res & f & H & R).
    inversion R; subst. apply compute_returned in H. cbv zeta in H.
    destruct H as (_ & Hroot & _ & Hfiles & _ & f2 & W2 & W3).
    split; [exact Hroot|]. rewrite <- Hfiles.
    pose proof (write_read_same _ _ _ _ W2) as R2.
    destruct (truthy (IPFS_PACK_DEBUG (Plugin.core env))); [|subst; exact R2].
    rewrite (write_read_other _ _ Plugin.manifestPath _ _ W3); [exact R2|discriminate].
  - apply bind_returned in H. destruct H as (res & f & H & R).
    inversion R; subst. apply pack_returned in H. cbv zeta in H.
    destruct H as (_ & Hroot & _ & Hfiles & _ & _ & f1 & f2 & _ & W2 & W3).
    split; [exact Hroot|]. rewrite <- Hfiles.
    pose proof (write_read_same _ _ _ _ W2) as R2.
    destruct (truthy (IPFS_PACK_DEBUG (Plugin.core env))); [|subst; exact R2].
    rewrite (write_read_other _ _ Plugin.manifestPath _ _ W3); [exact R2|discriminate].
Qed.

(** X10.  What a hook that returns leaves behind.  Its last message (its
    first, in the postbuild script) gives the CID of the wrapper record the
    importer yielded for the directory as the hook found it.  The manifest
    on disk is the manifest text for that root and the file CIDs of that
    import: it starts with the root, between double quotes as it is when it
    needs no escape, and has the line of every path of the file CIDs.  And
    an [index.html] whose text has no marker and a [</head>] now carries the
    meta tag with that root before its first [</head>], while the bytes of
    [index.html] that went into the root are the ones before the stamp. *)
Theorem hook_reports_the_manifest_root :
  forall env fs fs' messages,
    closeBundle env fs = (fs', Returned messages) ->
    let entries := yielded (importer (walk [] fs)) in
    let fileCids := snd (record_entries entries) in
    exists rootCid,
      Spec.last_root entries = Some rootCid /\
      last messages "" = "IPFS root CID: " ++ rootCid /\
      (exists others, postbuild env fs =
                      (fs', Returned (("IPFS root CID: " ++ rootCid)%string :: others))) /\
      (exists text,
          Fs.read Plugin.manifestPath fs' = Some text /\
          text = Spec.manifest_text rootCid fileCids /\
          Text.starts_with (Spec.manifest_head rootCid) text = true /\
          (Spec.plain rootCid = true ->
           Spec.manifest_head rootCid =
           "{" ++ Text.nl ++ "  " ++ Text.dq ++ "root" ++ Text.dq ++ ": " ++
           Text.dq ++ rootCid ++ Text.dq ++ "," ++ Text.nl ++
           "  " ++ Text.dq ++ "files" ++ Text.dq ++ ": {") /\
          (forall k, In k (JsObject.keys fileCids) ->
                     Text.includes
                       (Spec.manifest_line k (JsObject.value_of fileCids k))
                       text = true)) /\
      (forall raw before after,
          Fs.read indexPath fs = Some raw ->
          Text.includes Spec.meta_marker (Text.utf8 raw) = false ->
          Spec.first_occurrence "</head>" (Text.utf8 raw) before after ->
          Spec.cid_text rootCid = true ->
          Fs.read indexPath fs' =
            Some (before ++ Spec.meta_tag rootCid ++ Text.nl ++ "</head>" ++ after) /\
          In ("index.html", raw) (walk [] fs)).
Proof.
  intros env fs fs' messages H entries fileCids.
  pose proof (postbuild_after_upload env fs) as A.
  unfold closeBundle, Plugin.closeBundle in H.
  apply bind_returned in H. destruct H as (root & fs3 & Hpsr & H).
  apply bind_returned in H. destruct H as (m & fs4 & Hup & Hret).
  inversion Hret; subst. clear Hret.
  fold upload_message in Hup.
  destruct (upload_message_runs env fs3) as (m' & E & _).
  fold pack_stamp_rewrite in Hpsr. rewrite Hpsr in A. specialize (A m' E).
  rewrite E in Hup. inversion Hup; subst. clear Hup.
  pose proof Hpsr as Hpsr0.
  unfold pack_stamp_rewrite, Plugin.pack_stamp_rewrite in Hpsr.
  apply bind_returned in Hpsr. destruct Hpsr as (root' & fs1 & Hpc & Hpsr).
  apply bind_returned in Hpsr. destruct Hpsr as ([] & fs2 & Hst & Hpsr).
  apply bind_returned in Hpsr. destruct Hpsr as ([] & fs3' & Hrw & Hret).
  inversion Hret; subst. clear Hret.
  fold pack_or_compute in Hpc.
  destruct (manifest_after env fs fs1 root Hpc) as [Hroot Hman].
  assert (F2 : fs2 = fst (stampIndexWithRootCID root fs1)) by (rewrite Hst; reflexivity).
  assert (F3 : fs' = fst (writeIpfsAddressedHtml JSON_parse (Plugin.core env)
                            (Some Plugin.manifestPath) None fs2))
    by (rewrite Hrw; reflexivity).
  exists root. split; [exact Hroot|]. split; [apply last_of_snoc|].
  split; [eexists; exact A|]. split.
  - exists (Spec.manifest_text root fileCids). split; [|split; [reflexivity|split; [|split]]].
    + rewrite F3, rewriter_preserves by reflexivity.
      rewrite F2, stamp_preserves by discriminate. exact Hman.
    + apply manifest_text_head.
    + intros Pr. apply (proj1 (manifest_letters root "" "") Pr).
    + intros k Hk. apply manifest_text_line. exact Hk.
  - intros raw before after Hr Hm Ho Hcid. split.
    + rewrite F3, rewriter_preserves by reflexivity. rewrite F2.
      assert (P : Fs.read indexPath (fst (pack_or_compute env fs)) =
                  Fs.read indexPath fs).
      { apply pack_or_compute_preserves; discriminate. }
      rewrite Hpc in P. simpl in P. rewrite <- P in Hr.
      exact (stamp_inserts root raw before after fs1 Hcid Hr Hm Ho).
    + apply (walk_complete ["index.html"] raw fs []);
        [discriminate | apply read_file_at; exact Hr | reflexivity].
Qed.

End Integrations.

Lemma hook_frame_witness :
  Fs.read ["app.js"]
    (fst (Plugin.closeBundle Reference.importer Reference.car_bytes
            Terms.site_parse (fun _ _ => inr Terms.echo_client) "ENOTDIR"
            Terms.byte_order (Some 3) Terms.upload_env Reference.site)) =
  Fs.read ["app.js"] Reference.site /\
  Fs.read ["app.js"]
    (fst (Plugin.postbuild Reference.importer Reference.car_bytes
            Terms.site_parse (fun _ _ => inr Terms.echo_client) "ENOTDIR"
            Terms.byte_order (Some 3) Terms.upload_env Reference.site)) =
  Fs.read ["app.js"] Reference.site.
Proof.
  apply hook_leaves_the_build_alone; (discriminate || reflexivity).
Defined.

Lemma stale_car_witness :
  Fs.read Plugin.carPath
    (fst (Plugin.closeBundle Reference.importer Reference.car_bytes
            Terms.site_parse (fun _ _ => inl "offline") "ENOTDIR"
            Terms.byte_order None Terms.default_env Reference.site)) =
  Some "stale".
Proof.
  exact (proj1 (proj2 (proj2 (car_is_skipped_by_default
                                Reference.importer Reference.car_bytes
                                Terms.site_parse (fun _ _ => inl "offline")
                                "ENOTDIR" Terms.byte_order None Terms.default_env
                                Reference.site)) eq_refl)).
Defined.


Lemma hook_root_witness :
  exists rootCid,
    Spec.last_root
      (Core.yielded (Reference.importer (Core.walk [] Reference.site))) =
      Some rootCid /\
    Fs.read Plugin.manifestPath
      (fst (Plugin.closeBundle Reference.importer Reference.car_bytes
              Terms.site_parse (fun _ _ => inl "offline") "ENOTDIR"
              Terms.byte_order None Terms.default_env Reference.site)) =
      Some (Spec.manifest_text rootCid
              (snd (Core.record_entries
                      (Core.yielded
                         (Reference.importer (Core.walk [] Reference.site)))))).
Proof.
  destruct (Plugin.closeBundle Reference.importer Reference.car_bytes
              Terms.site_parse (fun _ _ => inl "offline") "ENOTDIR"
              Terms.byte_order None Terms.default_env Reference.site)
    as [fs' [messages|e]] eqn:E.
  - destruct (hook_reports_the_manifest_root _ _ _ _ _ _ _ _ _ _ _ E)
      as (rootCid & H1 & _ & _ & (text & H4 & -> & _) & _).
    exists rootCid. split; [exact H1 | exact H4].
  - vm_compute in E. discriminate.
Defined.

(** ** The positive halves on concrete directories *)

Lemma pack_result_witness :
  exists r,
    snd (Reference.pack Reference.no_env Reference.site) = Core.Returned r /\
    Spec.last_root
      (Core.yielded (Reference.importer (Core.walk [] Reference.site))) =
      Some (Core.rootCid r) /\
    JsObject.get "app.js" (Core.fileCids r) =
      Spec.last_cid "app.js"
        (Core.yielded (Reference.importer (Core.walk [] Reference.site))).
Proof.
  destruct (Reference.pack Reference.no_env Reference.site)
    as [fs' [r|e]] eqn:E.
  - exists r. split; [reflexivity|].
    destruct (pack_returns_root_and_file_cids Reference.importer
                Reference.car_bytes None Reference.no_env Reference.carPath
                Core.default_manifestPath Reference.site fs' r E)
      as (H1 & _ & _ & H4 & _).
    split; [exact H1 | apply H4; discriminate].
  - vm_compute in E. discriminate.
Defined.

Lemma compute_and_pack_witness :
  exists rc rp,
    snd (Reference.compute Reference.debug_env Reference.site) = Core.Returned rc /\
    snd (Reference.pack Reference.debug_env Reference.site) = Core.Returned rp /\
    Core.m_rootCid rc = Core.rootCid rp /\
    Core.m_fileCids rc = Core.fileCids rp.
Proof.
  destruct (Reference.compute Reference.debug_env Reference.site)
    as [fsc [rc|e]] eqn:Ec; [|vm_compute in Ec; discriminate].
  destruct (Reference.pack Reference.debug_env Reference.site)
    as [fsp [rp|e]] eqn:Ep; [|vm_compute in Ep; discriminate].
  exists rc, rp. split; [reflexivity|]. split; [reflexivity|].
  destruct (proj2 (compute_agrees_with_pack Reference.importer
                     Reference.car_bytes None Reference.debug_env Reference.carPath
                     Core.default_manifestPath Reference.site)
              fsc rc fsp rp Ec Ep) as (H1 & H2 & _).
  split; [exact H1 | exact H2].
Defined.


(** ** The rewriter run again *)

Lemma to_lower_app (a b : string) :
  Text.to_lower (a ++ b) = Text.to_lower a ++ Text.to_lower b.
Proof.
  induction a as [|c a IH]; [reflexivity|].
  change (String (Text.lower_ascii c) (Text.to_lower (a ++ b)) =
          String (Text.lower_ascii c) (Text.to_lower a ++ Text.to_lower b)).
  rewrite IH. reflexivity.
Qed.

Lemma out_name_is_html (name : string) :
  Text.ends_with ".html" (Text.to_lower (Core.out_name name)) = true.
Proof.
  assert (E : forall x, Text.ends_with ".html" (Text.to_lower (x ++ ".ipfs.html")) = true).
  { intros x. rewrite to_lower_app.
    change (Text.to_lower ".ipfs.html") with (".ipfs" ++ ".html").
    rewrite <- append_assoc. apply ends_with_app. }
  unfold Core.out_name. destruct (Text.ends_with ".html" name); apply E.
Qed.

Lemma walk_html_complete :
  forall p data n dir,
    p <> [] -> Spec.file_at p data n ->
    Text.ends_with ".html" (Text.to_lower (last p "")) = true ->
    In (dir ++ p)%list (Core.walk_html dir n).
Proof.
  induction p as [|name rest IH]; intros data n dir Hp Hf Hx; [congruence|].
  destruct n as [d|es]; [destruct Hf|].
  destruct Hf as [child [Hin Hf]].
  rewrite walk_html_dir_eq. apply in_flat_map. exists (name, child).
  split; [exact Hin|]. unfold Spec.html_entry. simpl.
  destruct rest as [|n2 rest].
  - simpl in Hf. subst child. simpl in Hx. rewrite Hx. left. reflexivity.
  - destruct child as [d|sub]; [destruct Hf|].
    replace (dir ++ name :: n2 :: rest)%list
      with ((dir ++ [name]) ++ n2 :: rest)%list by (rewrite <- app_assoc; reflexivity).
    apply (IH data); [discriminate | exact Hf | exact Hx].
Qed.

Lemma html_path_not_empty (h : Fs.path) (dir : Fs.path) (n : Fs.node) :
  In h (Core.walk_html dir n) -> h <> [].
Proof.
  intros Hin. apply walk_html_names in Hin. destruct Hin as (d0 & name & -> & _).
  destruct d0; discriminate.
Qed.

Lemma outPath_not_empty (h : Fs.path) : h <> [] -> Core.outPath_of h <> [].
Proof.
  intros Hh E. unfold Core.outPath_of in E.
  destruct h as [|x [|y rest]]; simpl in E; congruence.
Qed.

Section RewriterAgain.

Import Core.

Variable JSON_parse : string -> option Manifest.

Lemma rewriter_run_writes env manifestPath options fs fs' raw m :
  Fs.read (match manifestPath with Some p => p | None => default_manifestPath end)
    fs = Some raw ->
  JSON_parse raw = Some m ->
  root m <> "" ->
  writeIpfsAddressedHtml JSON_parse env manifestPath options fs =
    (fs', Returned tt) ->
  forall h, In h (walk_html [] fs) ->
            exists d, Fs.read (outPath_of h) fs' = Some d.
Proof.
  intros R P N H h Hin.
  unfold writeIpfsAddressedHtml, bind, existsSync, readFileSync, collect_html in H.
  rewrite (read_exists _ _ _ R) in H. cbn beta iota delta [negb] in H.
  rewrite R, P in H. apply String.eqb_neq in N. rewrite N in H.
  destruct (Fs.is_dir fs); [|discriminate].
  exact (for_each_written _ _ _ _ _ _ H h Hin).
Qed.

(** X15.  The rewriter does not know its own output.  Its walker takes
    every file whose lower-cased name ends in [.html], and the name of a
    sibling does: after a run that got past the manifest and returned, the
    sibling of every HTML file is in the set of HTML files of the next run,
    and a second run that returns has written a sibling of the sibling, at a
    path that is neither the page nor its sibling. *)
Theorem siblings_are_rewritten_again :
  forall env manifestPath options fs fs' fs'' raw m,
    let manifestAbs :=
      match manifestPath with Some p => p | None => default_manifestPath end in
    Spec.path_ends_with ".ipfs.html" manifestAbs = false ->
    Fs.read manifestAbs fs = Some raw ->
    JSON_parse raw = Some m ->
    root m <> "" ->
    writeIpfsAddressedHtml JSON_parse env manifestPath options fs =
      (fs', Returned tt) ->
    writeIpfsAddressedHtml JSON_parse env manifestPath options fs' =
      (fs'', Returned tt) ->
    forall h, In h (walk_html [] fs) ->
      In (outPath_of h) (walk_html [] fs') /\
      outPath_of (outPath_of h) <> outPath_of h /\
      outPath_of (outPath_of h) <> h /\
      exists d, Fs.read (outPath_of (outPath_of h)) fs'' = Some d.
Proof.
  intros env manifestPath options fs fs' fs'' raw m manifestAbs S R P N H1 H2 h Hin.
  subst manifestAbs.
  pose proof (html_path_not_empty _ _ _ Hin) as Hh.
  pose proof (outPath_not_empty h Hh) as Ho.
  destruct (rewriter_run_writes env manifestPath options fs fs' raw m R P N H1 h Hin)
    as [d Rd].
  assert (In1 : In (outPath_of h) (walk_html [] fs')).
  { apply (walk_html_complete (outPath_of h) d fs' [] Ho (read_file_at _ _ _ Rd)).
    unfold outPath_of. rewrite last_map_last by exact Hh. apply out_name_is_html. }
  assert (R' : Fs.read (match manifestPath with
                        | Some p => p
                        | None => default_manifestPath
                        end) fs' = Some raw).
  { rewrite <- R.
    pose proof (rewriter_preserves JSON_parse env manifestPath options _ S fs) as F.
    rewrite H1 in F. exact F. }
  split; [exact In1|]. split; [apply outPath_differs; exact Ho|]. split.
  - intros E. apply (f_equal (fun q => length (last q ""))) in E.
    unfold outPath_of in E.
    rewrite last_map_last in E by (apply outPath_not_empty; exact Hh).
    rewrite last_map_last in E by exact Hh.
    pose proof (out_name_longer (last h "")).
    pose proof (out_name_longer (out_name (last h ""))). lia.
  - exact (rewriter_run_writes env manifestPath options fs' fs'' raw m R' P N H2
             (outPath_of h) In1).
Qed.

End RewriterAgain.

Lemma second_run_witness :
  exists d,
    Fs.read ["news.ipfs.ipfs.html"]
      (fst (Core.writeIpfsAddressedHtml
              (Reference.parse_only Reference.page_manifest)
              Reference.no_env None None
              (fst (Core.writeIpfsAddressedHtml
                      (Reference.parse_only Reference.page_manifest)
                      Reference.no_env None None Reference.fragment_dir)))) =
    Some d.
Proof.
  destruct (Core.writeIpfsAddressedHtml
              (Reference.parse_only Reference.page_manifest)
              Reference.no_env None None Reference.fragment_dir)
    as [fs' [[]|e]] eqn:H1; [|vm_compute in H1; discriminate].
  cbv beta iota delta [fst].
  destruct (Core.writeIpfsAddressedHtml
              (Reference.parse_only Reference.page_manifest)
              Reference.no_env None None fs')
    as [fs'' [[]|e]] eqn:H2.
  - refine (proj2 (proj2 (proj2
             (siblings_are_rewritten_again
                (Reference.parse_only Reference.page_manifest)
                Reference.no_env None None Reference.fragment_dir fs' fs''
                (Core.manifest_json (Core.root Reference.page_manifest)
                   (Core.files Reference.page_manifest))
                Reference.page_manifest eq_refl eq_refl eq_refl
                ltac:(discriminate) H1 H2 ["news.html"] _)))).
    left. reflexivity.
  - vm_compute in H1. inversion H1; subst. vm_compute in H2. discriminate.
Defined.
